(** * sync.Mutex (go1.16 and the earlier two-flag version) and the
      concurrent map built on it: a shallow embedding and its properties.

    The state word of a mutex is an [int32]; it is modelled as a [Z] in
    the range of [int32] with the wrap-around of Go's arithmetic written
    out ([Int32.wrap]).  Bit operations are those of [Z], which agree with
    two's complement on every width.

    A goroutine executing [Lock] or [Unlock] is a small machine: a program
    counter naming the next access to shared memory, and the local
    variables of the function.  One step performs one access to the shared
    [Mutex] (an atomic load, compare-and-swap or add on [state], or a
    semaphore operation on [sema]) followed by the local code up to the
    next access.  The values the runtime supplies ([runtime_canSpin],
    [runtime_nanotime]) are inputs of the step. *)

From Stdlib Require Import ZArith Lia String.
From stdpp Require Import gmap list.

Local Open Scope Z_scope.

(** ** 32-bit signed integers *)

Module Int32.

Definition min_int : Z := - 2 ^ 31.
Definition max_int : Z := 2 ^ 31 - 1.

Definition in_range (z : Z) : Prop := min_int <= z <= max_int.

(** Two's complement wrap-around of a mathematical integer. *)
Definition wrap (z : Z) : Z := (z + 2 ^ 31) mod 2 ^ 32 - 2 ^ 31.

Definition add (x y : Z) : Z := wrap (x + y).
Definition sub (x y : Z) : Z := wrap (x - y).

End Int32.

(** The waiter count occupies the 29 bits above the three flags; as the
    code reads it ([old >> mutexWaiterShift] on an [int32]) it is a signed
    29-bit number. *)
Definition wrap29 (z : Z) : Z := (z + 2 ^ 28) mod 2 ^ 29 - 2 ^ 28.

(** ** Outcomes of code that may abort *)

Inductive result (A : Type) : Type :=
| Ok (a : A)
| Throw (msg : string).
Arguments Ok {A} a.
Arguments Throw {A} msg.

(** What a step shows to the runtime: nothing, one round of active
    spinning, taking the semaphore after queueing at the front ([lifo]) or
    at the back, and releasing the semaphore to one waiter.  A release
    with [handoff = true] is what the specification calls LIFO hand-off,
    one with [handoff = false] is its FIFO signal. *)
Inductive event : Type :=
| Tau
| DoSpin
| Semacquire (lifo : bool)
| Semrelease (handoff : bool).

(** The shared words of a [Mutex]. *)
Record Mutex : Type := mkMutex { state : Z; sema : Z }.

Definition set_state (v : Z) (m : Mutex) : Mutex := mkMutex v (sema m).
Definition set_sema (v : Z) (m : Mutex) : Mutex := mkMutex (state m) v.

(** Modelled from the spec: the semaphore-style parker of the runtime
    ([runtime_SemacquireMutex], [runtime_Semacquire], [runtime_Semrelease]),
    which is not among the sources.  It offers "park the calling thread
    until signaled" and "signal one parked thread": [sema] counts the
    signals not yet consumed, a release adds one, and an acquire waits
    until the count is positive and takes one.  Which of several parked
    goroutines takes a signal (FIFO or LIFO queueing) is left to the
    scheduler; the queueing flags are visible as events. *)
Definition semrelease (m : Mutex) : Mutex := set_sema (sema m + 1) m.

(** Modelled from the spec: "park calling thread until signaled" of the
    same parker: [None] while no signal is pending (the goroutine stays
    parked), else the mutex with one signal taken. *)
Definition semacquire (m : Mutex) : option Mutex :=
  if 0 <? sema m then Some (set_sema (sema m - 1) m) else None.

(** What the runtime supplies to a step: the answer of [runtime_canSpin]
    (the adaptive-spin heuristic) for a given iteration count, and the
    reading of the monotonic clock [runtime_nanotime].  Neither function is
    among the sources; a step takes their values as inputs. *)
Record runtime : Type := mkRuntime {
  runtime_canSpin : Z -> bool;
  runtime_nanotime : Z
}.

(** The two calls of a [Locker]. *)
Inductive call : Type := CallLock | CallUnlock.

(** [n] calls by one goroutine, alternating, the first being [c]. *)
Fixpoint alternating (n : nat) (c : call) : list call :=
  match n with
  | O => []
  | S n' => c :: alternating n' (match c with
                                 | CallLock => CallUnlock
                                 | CallUnlock => CallLock
                                 end)
  end.

(** The state words seen when a mutex is locked and unlocked in turn:
    [n] words, each the other of [0] and [1] than the one before. *)
Fixpoint toggles (n : nat) (s : Z) : list Z :=
  match n with
  | O => []
  | S n' => (1 - s) :: toggles n' (1 - s)
  end.

(** ** sync.Mutex, go1.16 (src/go-go1.16/src/sync/mutex.go) *)

Module Mutex116.

Definition mutexLocked : Z := 1.
Definition mutexWoken : Z := 2.
Definition mutexStarving : Z := 4.
Definition mutexWaiterShift : Z := 3.
Definition starvationThresholdNs : Z := 1000000.

Definition inconsistent : string := "sync: inconsistent mutex state".
Definition unlock_of_unlocked : string := "sync: unlock of unlocked mutex".

(** Named accessors of the four fields of the state word. *)
Definition locked (s : Z) : bool := negb (Z.land s mutexLocked =? 0).
Definition woken (s : Z) : bool := negb (Z.land s mutexWoken =? 0).
Definition starving_bit (s : Z) : bool := negb (Z.land s mutexStarving =? 0).
Definition waiterCount (s : Z) : Z := Z.shiftr s mutexWaiterShift.

(** The state word with the given fields. *)
Definition pack (l k s : bool) (w : Z) : Z :=
  8 * w + (Z.b2z l + 2 * Z.b2z k + 4 * Z.b2z s).

Inductive pc : Type :=
| Idle                 (* outside Lock and Unlock, not holding the mutex *)
| Lock_fast            (* line 75: CompareAndSwapInt32(&m.state, 0, mutexLocked) *)
| lockSlow_entry       (* line 90: old := m.state *)
| lockSlow_spinCAS     (* line 102: CompareAndSwapInt32(&m.state, old, old|mutexWoken) *)
| lockSlow_spin        (* lines 105-107: runtime_doSpin(); iter++; old = m.state *)
| lockSlow_CAS         (* line 139: CompareAndSwapInt32(&m.state, old, new) *)
| lockSlow_park        (* line 151: runtime_SemacquireMutex(&m.sema, queueLifo, 1) *)
| lockSlow_wakeup      (* lines 153-154: starving = ...; old = m.state *)
| lockSlow_handoff     (* line 180: atomic.AddInt32(&m.state, delta) *)
| lockSlow_reread      (* line 186: old = m.state *)
| Holding              (* Lock has returned, Unlock not yet called *)
| Unlock_add           (* line 209: atomic.AddInt32(&m.state, -mutexLocked) *)
| unlockSlow_CAS       (* line 236: CompareAndSwapInt32(&m.state, old, new) *)
| unlockSlow_wake (handoff : bool)  (* lines 237 and 248: runtime_Semrelease *)
| unlockSlow_reread    (* line 240: old = m.state *)
| Thrown (msg : string).

(** A goroutine: where it is, and the local variables of [lockSlow]
    ([waitStartTime], [starving], [awoke], [iter], [old], [new],
    [queueLifo], [delta]) and of [Unlock]/[unlockSlow] ([old], [new]). *)
Record goroutine : Type := mkG {
  at_pc : pc;
  waitStartTime : Z;
  starving : bool;
  awoke : bool;
  iter : Z;
  old : Z;
  new : Z;
  queueLifo : bool;
  delta : Z
}.

Definition goto (p : pc) (g : goroutine) : goroutine :=
  mkG p (waitStartTime g) (starving g) (awoke g) (iter g) (old g) (new g)
      (queueLifo g) (delta g).
Definition set_waitStartTime (v : Z) (g : goroutine) : goroutine :=
  mkG (at_pc g) v (starving g) (awoke g) (iter g) (old g) (new g)
      (queueLifo g) (delta g).
Definition set_starving (v : bool) (g : goroutine) : goroutine :=
  mkG (at_pc g) (waitStartTime g) v (awoke g) (iter g) (old g) (new g)
      (queueLifo g) (delta g).
Definition set_awoke (v : bool) (g : goroutine) : goroutine :=
  mkG (at_pc g) (waitStartTime g) (starving g) v (iter g) (old g) (new g)
      (queueLifo g) (delta g).
Definition set_iter (v : Z) (g : goroutine) : goroutine :=
  mkG (at_pc g) (waitStartTime g) (starving g) (awoke g) v (old g) (new g)
      (queueLifo g) (delta g).
Definition set_old (v : Z) (g : goroutine) : goroutine :=
  mkG (at_pc g) (waitStartTime g) (starving g) (awoke g) (iter g) v (new g)
      (queueLifo g) (delta g).
Definition set_new (v : Z) (g : goroutine) : goroutine :=
  mkG (at_pc g) (waitStartTime g) (starving g) (awoke g) (iter g) (old g) v
      (queueLifo g) (delta g).
Definition set_queueLifo (v : bool) (g : goroutine) : goroutine :=
  mkG (at_pc g) (waitStartTime g) (starving g) (awoke g) (iter g) (old g)
      (new g) v (delta g).
Definition set_delta (v : Z) (g : goroutine) : goroutine :=
  mkG (at_pc g) (waitStartTime g) (starving g) (awoke g) (iter g) (old g)
      (new g) (queueLifo g) v.

(** A goroutine that has not called anything yet. *)
Definition fresh : goroutine := mkG Idle 0 false false 0 0 0 false 0.

(** Lines 110-137 of [lockSlow]: the state the goroutine will try to
    install, or the fatal error of line 134. *)
Definition candidate (old : Z) (starving awoke : bool) : result Z :=
  let new := old in
  let new := if Z.land old mutexStarving =? 0
             then Z.lor new mutexLocked else new in
  let new := if negb (Z.land old (Z.lor mutexLocked mutexStarving) =? 0)
             then Int32.add new (Z.shiftl 1 mutexWaiterShift) else new in
  let new := if starving && negb (Z.land old mutexLocked =? 0)
             then Z.lor new mutexStarving else new in
  if awoke then
    if Z.land new mutexWoken =? 0 then Throw inconsistent
    else Ok (Z.ldiff new mutexWoken)
  else Ok new.

(** Lines 96-137: the head of the loop of [lockSlow], from a freshly
    read [old] to the next access to [m.state]. *)
Definition lockSlow_top (r : runtime) (g : goroutine) : goroutine :=
  if (Z.land (old g) (Z.lor mutexLocked mutexStarving) =? mutexLocked)
     && runtime_canSpin r (iter g)
  then
    if negb (awoke g) && (Z.land (old g) mutexWoken =? 0)
       && negb (Z.shiftr (old g) mutexWaiterShift =? 0)
    then goto lockSlow_spinCAS g
    else goto lockSlow_spin g
  else
    match candidate (old g) (starving g) (awoke g) with
    | Throw msg => goto (Thrown msg) g
    | Ok n => goto lockSlow_CAS (set_new n g)
    end.

(** Line 160: the test that guards the hand-off branch. *)
Definition handoff_inconsistent (old : Z) : bool :=
  negb (Z.land old (Z.lor mutexLocked mutexWoken) =? 0)
  || (Z.shiftr old mutexWaiterShift =? 0).

(** Lines 166-179: the amount added to the state word on hand-off. *)
Definition handoff_delta (starving : bool) (old : Z) : Z :=
  let delta := Int32.wrap (mutexLocked - Z.shiftl 1 mutexWaiterShift) in
  if negb starving || (Z.shiftr old mutexWaiterShift =? 1)
  then Int32.sub delta mutexStarving
  else delta.

(** Lines 155-184: what a goroutine does with the state it reads after
    it has been woken. *)
Definition lockSlow_after_wakeup (r : runtime) (g : goroutine) : goroutine :=
  if negb (Z.land (old g) mutexStarving =? 0) then
    if handoff_inconsistent (old g) then goto (Thrown inconsistent) g
    else goto lockSlow_handoff (set_delta (handoff_delta (starving g) (old g)) g)
  else lockSlow_top r (set_iter 0 (set_awoke true g)).

(** Lines 231-235: the head of the loop of [unlockSlow]. *)
Definition unlockSlow_top (g : goroutine) : goroutine :=
  if (Z.shiftr (old g) mutexWaiterShift =? 0)
     || negb (Z.land (old g)
                (Z.lor (Z.lor mutexLocked mutexWoken) mutexStarving) =? 0)
  then goto Idle g
  else goto unlockSlow_CAS
         (set_new (Z.lor (Int32.sub (old g) (Z.shiftl 1 mutexWaiterShift))
                     mutexWoken) g).

(** Lines 217-223 and 242-248: [unlockSlow(new)] up to its first access
    to shared memory. *)
Definition unlockSlow (g : goroutine) : goroutine :=
  if Z.land (Int32.add (new g) mutexLocked) mutexLocked =? 0
  then goto (Thrown unlock_of_unlocked) g
  else if Z.land (new g) mutexStarving =? 0
       then unlockSlow_top (set_old (new g) g)
       else goto (unlockSlow_wake true) g.

(** One step of a goroutine on the mutex [m]. *)
Definition step (r : runtime) (g : goroutine) (m : Mutex)
  : event * goroutine * Mutex :=
  match at_pc g with
  | Idle => (Tau, goto Lock_fast g, m)
  | Lock_fast =>
      if state m =? 0
      then (Tau, goto Holding g, set_state mutexLocked m)
      else (Tau, goto lockSlow_entry g, m)
  | lockSlow_entry =>
      (Tau,
       lockSlow_top r
         (set_old (state m)
            (set_iter 0 (set_awoke false (set_starving false
               (set_waitStartTime 0 g))))),
       m)
  | lockSlow_spinCAS =>
      if state m =? old g
      then (Tau, goto lockSlow_spin (set_awoke true g),
            set_state (Z.lor (old g) mutexWoken) m)
      else (Tau, goto lockSlow_spin g, m)
  | lockSlow_spin =>
      (DoSpin, lockSlow_top r (set_old (state m) (set_iter (iter g + 1) g)), m)
  | lockSlow_CAS =>
      if state m =? old g then
        if Z.land (old g) (Z.lor mutexLocked mutexStarving) =? 0
        then (Tau, goto Holding g, set_state (new g) m)
        else
          let g1 := set_queueLifo (negb (waitStartTime g =? 0)) g in
          let g2 := if waitStartTime g =? 0
                    then set_waitStartTime (runtime_nanotime r) g1 else g1 in
          (Tau, goto lockSlow_park g2, set_state (new g) m)
      else (Tau, goto lockSlow_reread g, m)
  | lockSlow_park =>
      match semacquire m with
      | Some m' => (Semacquire (queueLifo g), goto lockSlow_wakeup g, m')
      | None => (Tau, g, m)
      end
  | lockSlow_wakeup =>
      let g1 := set_starving
                  (starving g
                   || (starvationThresholdNs
                         <? runtime_nanotime r - waitStartTime g)) g in
      (Tau, lockSlow_after_wakeup r (set_old (state m) g1), m)
  | lockSlow_handoff =>
      (Tau, goto Holding g, set_state (Int32.add (state m) (delta g)) m)
  | lockSlow_reread =>
      (Tau, lockSlow_top r (set_old (state m) g), m)
  | Holding => (Tau, goto Unlock_add g, m)
  | Unlock_add =>
      let n := Int32.add (state m) (- mutexLocked) in
      (Tau,
       (if n =? 0 then goto Idle (set_new n g) else unlockSlow (set_new n g)),
       set_state n m)
  | unlockSlow_CAS =>
      if state m =? old g
      then (Tau, goto (unlockSlow_wake false) g, set_state (new g) m)
      else (Tau, goto unlockSlow_reread g, m)
  | unlockSlow_wake handoff =>
      (Semrelease handoff, goto Idle g, semrelease m)
  | unlockSlow_reread =>
      (Tau, unlockSlow_top (set_old (state m) g), m)
  | Thrown _ => (Tau, g, m)
  end.

(** A call has returned (or aborted) when the goroutine is outside
    [Lock] and [Unlock]. *)
Definition returned (p : pc) : bool :=
  match p with
  | Idle | Holding | Thrown _ => true
  | _ => false
  end.

(** Run a goroutine alone until its call returns, recording the state
    word after every step. *)
Fixpoint exec (fuel : nat) (r : runtime) (g : goroutine) (m : Mutex)
  : list Z * goroutine * Mutex :=
  match fuel with
  | O => ([], g, m)
  | S fuel' =>
      let '(_, g1, m1) := step r g m in
      if returned (at_pc g1) then ([state m1], g1, m1)
      else let '(tr, g2, m2) := exec fuel' r g1 m1 in (state m1 :: tr, g2, m2)
  end.

Definition Lock (fuel : nat) (r : runtime) (g : goroutine) (m : Mutex) :=
  exec fuel r (goto Lock_fast g) m.
Definition Unlock (fuel : nat) (r : runtime) (g : goroutine) (m : Mutex) :=
  exec fuel r (goto Unlock_add g) m.

(** A sequence of calls by one goroutine; it stops at a fatal error. *)
Fixpoint calls (fuel : nat) (r : runtime) (cs : list call)
    (g : goroutine) (m : Mutex) : list Z * goroutine * Mutex :=
  match cs with
  | [] => ([], g, m)
  | c :: cs' =>
      let '(t1, g1, m1) :=
        match c with
        | CallLock => Lock fuel r g m
        | CallUnlock => Unlock fuel r g m
        end in
      match at_pc g1 with
      | Thrown _ => (t1, g1, m1)
      | _ => let '(t2, g2, m2) := calls fuel r cs' g1 m1 in (t1 ++ t2, g2, m2)
      end
  end.

End Mutex116.

(** ** sync.Mutex, the earlier version with two flags (src/unnamed/part_000) *)

Module MutexLegacy.

Definition mutexLocked : Z := 1.
Definition mutexWoken : Z := 2.
Definition mutexWaiterShift : Z := 2.

Definition unlock_of_unlocked : string := "sync: unlock of unlocked mutex".

Definition locked (s : Z) : bool := negb (Z.land s mutexLocked =? 0).
Definition woken (s : Z) : bool := negb (Z.land s mutexWoken =? 0).
Definition waiterCount (s : Z) : Z := Z.shiftr s mutexWaiterShift.

Inductive pc : Type :=
| Idle              (* outside Lock and Unlock, not holding the mutex *)
| Lock_fast         (* line 41: CompareAndSwapInt32(&m.state, 0, mutexLocked) *)
| Lock_load         (* line 47: old := m.state *)
| Lock_CAS          (* line 57: CompareAndSwapInt32(&m.state, old, new) *)
| Lock_park         (* line 61: runtime_Semacquire(&m.sema) *)
| Holding           (* Lock has returned, Unlock not yet called *)
| Unlock_add        (* line 77: atomic.AddInt32(&m.state, -mutexLocked) *)
| Unlock_CAS        (* line 96: CompareAndSwapInt32(&m.state, old, new) *)
| Unlock_wake       (* line 97: runtime_Semrelease(&m.sema) *)
| Unlock_reread     (* line 101: old = m.state *)
| Panicked (msg : string).

Record goroutine : Type := mkG {
  at_pc : pc;
  awoke : bool;
  old : Z;
  new : Z
}.

Definition goto (p : pc) (g : goroutine) : goroutine :=
  mkG p (awoke g) (old g) (new g).
Definition set_awoke (v : bool) (g : goroutine) : goroutine :=
  mkG (at_pc g) v (old g) (new g).
Definition set_old (v : Z) (g : goroutine) : goroutine :=
  mkG (at_pc g) (awoke g) v (new g).
Definition set_new (v : Z) (g : goroutine) : goroutine :=
  mkG (at_pc g) (awoke g) (old g) v.

Definition fresh : goroutine := mkG Idle false 0 0.

(** Lines 48-56: the state [Lock] will try to install. *)
Definition candidate (old : Z) (awoke : bool) : Z :=
  let new := Z.lor old mutexLocked in
  let new := if negb (Z.land old mutexLocked =? 0)
             then Int32.add old (Z.shiftl 1 mutexWaiterShift) else new in
  if awoke then Z.ldiff new mutexWoken else new.

(** Lines 89-95: the head of the loop of [Unlock]. *)
Definition Unlock_top (g : goroutine) : goroutine :=
  if (Z.shiftr (old g) mutexWaiterShift =? 0)
     || negb (Z.land (old g) (Z.lor mutexLocked mutexWoken) =? 0)
  then goto Idle g
  else goto Unlock_CAS
         (set_new (Z.lor (Int32.sub (old g) (Z.shiftl 1 mutexWaiterShift))
                     mutexWoken) g).

(** Lines 79-83: after the atomic add of [Unlock]. *)
Definition Unlock_check (g : goroutine) : goroutine :=
  if Z.land (Int32.add (new g) mutexLocked) mutexLocked =? 0
  then goto (Panicked unlock_of_unlocked) g
  else Unlock_top (set_old (new g) g).

Definition step (g : goroutine) (m : Mutex) : event * goroutine * Mutex :=
  match at_pc g with
  | Idle => (Tau, goto Lock_fast g, m)
  | Lock_fast =>
      if state m =? 0
      then (Tau, goto Holding g, set_state mutexLocked m)
      else (Tau, goto Lock_load (set_awoke false g), m)
  | Lock_load =>
      let g1 := set_old (state m) g in
      (Tau, goto Lock_CAS (set_new (candidate (old g1) (awoke g1)) g1), m)
  | Lock_CAS =>
      if state m =? old g then
        if Z.land (old g) mutexLocked =? 0
        then (Tau, goto Holding g, set_state (new g) m)
        else (Tau, goto Lock_park g, set_state (new g) m)
      else (Tau, goto Lock_load g, m)
  | Lock_park =>
      match semacquire m with
      | Some m' => (Semacquire false, goto Lock_load (set_awoke true g), m')
      | None => (Tau, g, m)
      end
  | Holding => (Tau, goto Unlock_add g, m)
  | Unlock_add =>
      let n := Int32.add (state m) (- mutexLocked) in
      (Tau, Unlock_check (set_new n g), set_state n m)
  | Unlock_CAS =>
      if state m =? old g
      then (Tau, goto Unlock_wake g, set_state (new g) m)
      else (Tau, goto Unlock_reread g, m)
  | Unlock_wake => (Semrelease false, goto Idle g, semrelease m)
  | Unlock_reread => (Tau, Unlock_top (set_old (state m) g), m)
  | Panicked _ => (Tau, g, m)
  end.

Definition returned (p : pc) : bool :=
  match p with
  | Idle | Holding | Panicked _ => true
  | _ => false
  end.

Fixpoint exec (fuel : nat) (g : goroutine) (m : Mutex)
  : list Z * goroutine * Mutex :=
  match fuel with
  | O => ([], g, m)
  | S fuel' =>
      let '(_, g1, m1) := step g m in
      if returned (at_pc g1) then ([state m1], g1, m1)
      else let '(tr, g2, m2) := exec fuel' g1 m1 in (state m1 :: tr, g2, m2)
  end.

Definition Lock (fuel : nat) (g : goroutine) (m : Mutex) :=
  exec fuel (goto Lock_fast g) m.
Definition Unlock (fuel : nat) (g : goroutine) (m : Mutex) :=
  exec fuel (goto Unlock_add g) m.

Fixpoint calls (fuel : nat) (cs : list call) (g : goroutine) (m : Mutex)
  : list Z * goroutine * Mutex :=
  match cs with
  | [] => ([], g, m)
  | c :: cs' =>
      let '(t1, g1, m1) :=
        match c with
        | CallLock => Lock fuel g m
        | CallUnlock => Unlock fuel g m
        end in
      match at_pc g1 with
      | Panicked _ => (t1, g1, m1)
      | _ => let '(t2, g2, m2) := calls fuel cs' g1 m1 in (t1 ++ t2, g2, m2)
      end
  end.

End MutexLegacy.

(** ** Goroutines sharing one go1.16 mutex

    Every goroutine runs the loop [for { m.Lock(); ...; m.Unlock() }]: from
    [Idle] it calls [Lock], and once [Lock] has returned ([Holding]) it
    calls [Unlock].  A locked mutex is not tied to the goroutine that
    locked it: the holder may instead arrange for an idle goroutine to
    unlock in its place ([hand_over]).  The scheduler picks at every step
    which goroutine moves; the runtime supplies what that step asks for.
    The order in which the semaphore serves parked goroutines is not
    fixed: any goroutine parked in [lockSlow_park] may take a pending
    signal. *)

Module System.
Import Mutex116.

Record config : Type := mkConfig {
  goroutines : list goroutine;
  mutex : Mutex
}.

(** [n] goroutines and the zero value of a [Mutex]. *)
Definition init (n : nat) : config :=
  mkConfig (replicate n fresh) (mkMutex 0 0).

(** Goroutine [i] takes one step; an index that names no goroutine
    changes nothing. *)
Definition fire (i : nat) (r : runtime) (c : config) : config :=
  match goroutines c !! i with
  | Some g =>
      let '(_, g', m') := step r g (mutex c) in
      mkConfig (<[i := g']> (goroutines c)) m'
  | None => c
  end.

(** The holder [i] leaves it to the idle goroutine [j] to unlock the
    mutex; anything else changes nothing. *)
Definition hand_over (i j : nat) (c : config) : config :=
  match goroutines c !! i, goroutines c !! j with
  | Some gi, Some gj =>
      match at_pc gi, at_pc gj with
      | Holding, Idle =>
          mkConfig (<[j := goto Holding gj]> (<[i := goto Idle gi]> (goroutines c)))
                   (mutex c)
      | _, _ => c
      end
  | _, _ => c
  end.

Fixpoint run (sched : list (nat * runtime)) (c : config) : config :=
  match sched with
  | [] => c
  | (i, r) :: rest => run rest (fire i r c)
  end.

Inductive reachable (n : nat) : config -> Prop :=
| reachable_init : reachable n (init n)
| reachable_fire c i r : reachable n c -> reachable n (fire i r c)
| reachable_hand_over c i j : reachable n c -> reachable n (hand_over i j c).

(** The program points of [Lock]. *)
Definition acquiring (p : pc) : bool :=
  match p with
  | Lock_fast | lockSlow_entry | lockSlow_spinCAS | lockSlow_spin
  | lockSlow_CAS | lockSlow_park | lockSlow_wakeup | lockSlow_handoff
  | lockSlow_reread => true
  | _ => false
  end.

(** How many goroutines play a given part, as the sum of an indicator. *)
Fixpoint tally (f : goroutine -> Z) (gs : list goroutine) : Z :=
  match gs with
  | [] => 0
  | g :: gs' => f g + tally f gs'
  end.

(** The parts of a goroutine that the state word and the semaphore
    account for. *)
Definition holder (g : goroutine) : Z :=
  match at_pc g with Holding | Unlock_add => 1 | _ => 0 end.
Definition queued (g : goroutine) : Z :=
  match at_pc g with lockSlow_park => 1 | _ => 0 end.
Definition waking (g : goroutine) : Z :=
  match at_pc g with lockSlow_wakeup => 1 | _ => 0 end.
Definition adding (g : goroutine) : Z :=
  match at_pc g with lockSlow_handoff => 1 | _ => 0 end.
Definition signalling (handoff : bool) (g : goroutine) : Z :=
  match at_pc g with
  | unlockSlow_wake h => if Bool.eqb h handoff then 1 else 0
  | _ => 0
  end.
Definition awake (g : goroutine) : Z :=
  match at_pc g with
  | lockSlow_spinCAS | lockSlow_spin | lockSlow_CAS | lockSlow_reread =>
      Z.b2z (awoke g)
  | _ => 0
  end.

(** The parts played by a goroutine, collected. *)
Definition parts (g : goroutine) : Z * Z * Z * Z * Z * Z * Z :=
  (holder g, queued g, waking g, adding g, signalling false g,
   signalling true g, awake g).

(** What each goroutine knows about its own local variables. *)
Definition local_ok (g : goroutine) : Prop :=
  match at_pc g with
  | lockSlow_spinCAS =>
      awoke g = false /\ starving g = false /\ locked (old g) = true
      /\ woken (old g) = false /\ starving_bit (old g) = false
  | lockSlow_spin | lockSlow_reread => starving g = true -> awoke g = true
  | lockSlow_CAS =>
      candidate (old g) (starving g) (awoke g) = Ok (new g)
      /\ (starving g = true -> awoke g = true)
  | lockSlow_handoff => delta g = -7 \/ delta g = -11
  | unlockSlow_CAS =>
      locked (old g) = false /\ woken (old g) = false
      /\ starving_bit (old g) = false /\ waiterCount (old g) <> 0
      /\ new g = Z.lor (Int32.sub (old g) 8) mutexWoken
  | Thrown _ => False
  | _ => True
  end.

(** The invariant that ties the state word and the semaphore to the
    goroutines. *)
Record invariant (n : nat) (c : config) : Prop := mkInvariant {
  inv_length : length (goroutines c) = n;
  inv_local : Forall local_ok (goroutines c);
  inv_sema : 0 <= sema (mutex c);
  inv_waiters : 0 <= waiterCount (state (mutex c));
  inv_locked :
    Z.b2z (locked (state (mutex c))) = tally holder (goroutines c);
  inv_mode :
    let gs := goroutines c in
    let m := mutex c in
    if starving_bit (state m) then
      woken (state m) = false
      /\ tally awake gs = 0
      /\ tally (signalling false) gs = 0
      /\ tally holder gs + tally waking gs + sema m
         + tally (signalling true) gs + tally adding gs = 1
      /\ waiterCount (state m) = tally queued gs + tally waking gs + tally adding gs
    else
      tally adding gs = 0
      /\ tally (signalling true) gs = 0
      /\ Z.b2z (woken (state m))
         = tally awake gs + tally waking gs + sema m + tally (signalling false) gs
      /\ waiterCount (state m)
         = tally queued gs - sema m - tally (signalling false) gs
}.

End System.

(** ** The concurrent map

    The sources of the map are not in the repository; its operations are
    modelled from the specification, as they run when no other goroutine
    interferes (every compare-and-swap succeeds and the lock is free). *)

Module SyncMap.
Section Map.
Context {K : Type} `{Countable K} {V : Type}.

(** Modelled from the spec: the slot of an [entry], "a live
    value-reference, a logically-deleted marker (nil), or a
    permanently-expunged marker". *)
Inductive slot : Type :=
| Live (v : V)
| Deleted
| Expunged.

(** Modelled from the spec: the identity of an [entry] object ("every key
    that ever existed maps to exactly one entry object", which the read
    snapshot and the write map may share). *)
Definition entry : Type := positive.

(** Modelled from the spec: the data model of ConcurrentMap: the entry
    objects, [readSnapshot] with its [amended] flag, [writeMap] (empty
    when uninitialized) and [missCount]. *)
Record Map : Type := mkMap {
  entries : gmap entry slot;
  readSnapshot : gmap K entry;
  amended : bool;
  writeMap : gmap K entry;
  missCount : nat
}.

(** Modelled from the spec: the map before any operation. *)
Definition empty : Map := mkMap ∅ ∅ false ∅ 0.

(** Modelled from the spec: the atomic load of the slot of an entry
    object; an identity that names no object reads as a cleared slot. *)
Definition slot_at (m : Map) (e : entry) : slot :=
  default Deleted (entries m !! e).

(** Modelled from the spec: the value of a slot, "not found if the slot
    reads as deleted/expunged". *)
Definition slot_load (s : slot) : option V :=
  match s with
  | Live v => Some v
  | Deleted | Expunged => None
  end.

(** Modelled from the spec: the tests for the two markers. *)
Definition is_expunged (s : slot) : bool :=
  match s with Expunged => true | _ => false end.

(** Modelled from the spec: see [is_expunged]. *)
Definition is_deleted (s : slot) : bool :=
  match s with Deleted => true | _ => false end.

(** Modelled from the spec: the atomic store into the slot of an entry
    object. *)
Definition set_slot (e : entry) (s : slot) (m : Map) : Map :=
  mkMap (<[e := s]> (entries m)) (readSnapshot m) (amended m) (writeMap m)
        (missCount m).

(** Modelled from the spec: inserting a key with its entry into
    [writeMap]. *)
Definition set_write (k : K) (e : entry) (m : Map) : Map :=
  mkMap (entries m) (readSnapshot m) (amended m) (<[k := e]> (writeMap m))
        (missCount m).

(** Modelled from the spec: promotion: "replace readSnapshot wholesale
    with {map: writeMap, amended: false}, discard writeMap (set to
    empty/uninitialized), reset missCount to zero". *)
Definition promote (m : Map) : Map :=
  mkMap (entries m) (writeMap m) false ∅ 0.

(** Modelled from the spec: miss accounting: "every locked fallback to
    writeMap increments missCount.  When missCount reaches the size of
    writeMap, promote". *)
Definition miss (m : Map) : Map :=
  let c := S (missCount m) in
  if (c <? size (writeMap m))%nat
  then mkMap (entries m) (readSnapshot m) (amended m) (writeMap m) c
  else promote m.

(** Modelled from the spec: "materialize writeMap as a copy of
    readSnapshot (expunging any already-deleted slots during the copy,
    since expunged entries must not be resurrected into writeMap) and mark
    readSnapshot.amended = true". *)
Definition materialize (m : Map) : Map :=
  let referenced : gset entry := map_img (readSnapshot m) in
  let es :=
    map_imap (fun e s =>
                Some (if is_deleted s && bool_decide (e ∈ referenced)
                      then Expunged else s))
      (entries m) in
  let copy :=
    omap (fun e => if is_expunged (default Deleted (es !! e))
                   then None else Some e)
      (readSnapshot m) in
  mkMap es (readSnapshot m) true copy (missCount m).

(** Modelled from the spec: the read path, [load(key) -> (value, found)];
    [None] stands for "not found". *)
Definition load (k : K) (m : Map) : option V * Map :=
  match readSnapshot m !! k with
  | Some e => (slot_load (slot_at m e), m)
  | None =>
      if amended m
      then (match writeMap m !! k with
            | Some e => slot_load (slot_at m e)
            | None => None
            end,
            miss m)
      else (None, m)
  end.

(** Modelled from the spec: "a genuinely new key: if not already amended,
    first materialize writeMap ...; then insert a fresh entry into
    writeMap". *)
Definition insert_new (k : K) (v : V) (m : Map) : Map :=
  let m1 := if amended m then m else materialize m in
  let e := fresh (dom (entries m1)) in
  set_write k e (set_slot e (Live v) m1).

(** Modelled from the spec: the write path, [store(key, value)]. *)
Definition store (k : K) (v : V) (m : Map) : Map :=
  match readSnapshot m !! k with
  | Some e =>
      if is_expunged (slot_at m e)
      then set_slot e (Live v) (set_write k e (set_slot e Deleted m))
      else set_slot e (Live v) m
  | None =>
      match writeMap m !! k with
      | Some e => set_slot e (Live v) m
      | None => insert_new k v m
      end
  end.

(** Modelled from the spec: [loadOrStore(key, value) -> (actual, loaded)],
    which "mirrors store's structure but the slot-level primitive is CAS
    the slot from empty to the new value, else report the value that's
    already there". *)
Definition loadOrStore (k : K) (v : V) (m : Map) : V * bool * Map :=
  match readSnapshot m !! k with
  | Some e =>
      match slot_at m e with
      | Live x => (x, true, m)
      | Deleted => (v, false, set_slot e (Live v) m)
      | Expunged =>
          (v, false, set_slot e (Live v) (set_write k e (set_slot e Deleted m)))
      end
  | None =>
      match writeMap m !! k with
      | Some e =>
          match slot_at m e with
          | Live x => (x, true, m)
          | _ => (v, false, set_slot e (Live v) m)
          end
      | None => (v, false, insert_new k v m)
      end
  end.

(** Modelled from the spec: a delete "only atomically clears the slot
    (CAS current -> nil)"; a slot that is already cleared or expunged is
    left as it is. *)
Definition clear_slot (e : entry) (m : Map) : option V * Map :=
  match slot_at m e with
  | Live x => (Some x, set_slot e Deleted m)
  | Deleted | Expunged => (None, m)
  end.

(** Modelled from the spec: [loadAndDelete(key) -> (value, found)]: the
    slot is cleared; a key found only in the write map is removed from
    it, on the locked path taken "exactly as in load". *)
Definition loadAndDelete (k : K) (m : Map) : option V * Map :=
  match readSnapshot m !! k with
  | Some e => clear_slot e m
  | None =>
      if amended m
      then match writeMap m !! k with
           | Some e =>
               clear_slot e
                 (miss (mkMap (entries m) (readSnapshot m) (amended m)
                          (delete k (writeMap m)) (missCount m)))
           | None => (None, miss m)
           end
      else (None, m)
  end.

(** Modelled from the spec: [delete(key)], [loadAndDelete] without its
    result. *)
Definition delete_key (k : K) (m : Map) : Map := (loadAndDelete k m).2.

(** Modelled from the spec: the calls of [visit] made by [range], which
    "stops early if visit returns false". *)
Fixpoint visits (visit : K -> V -> bool) (kvs : list (K * V)) : list (K * V) :=
  match kvs with
  | [] => []
  | (k, v) :: rest =>
      if visit k v then (k, v) :: visits visit rest else [(k, v)]
  end.

(** Modelled from the spec: [range(visit)]: "if amended, ... promote
    writeMap into readSnapshot unconditionally ... before iterating; then
    iterate the resulting snapshot ..., skipping slots that read as
    deleted/expunged".  The result lists the calls made to [visit]. *)
Definition range (visit : K -> V -> bool) (m : Map) : list (K * V) * Map :=
  let m1 := if amended m then promote m else m in
  (visits visit
     (omap (fun '(k, e) => pair k <$> slot_load (slot_at m1 e))
        (map_to_list (readSnapshot m1))),
   m1).

(** Modelled from the spec: the maps that the operations build from the
    empty map. *)
Inductive reachable : Map -> Prop :=
| reachable_empty : reachable empty
| reachable_load k m : reachable m -> reachable (load k m).2
| reachable_store k v m : reachable m -> reachable (store k v m)
| reachable_loadOrStore k v m : reachable m -> reachable (loadOrStore k v m).2
| reachable_loadAndDelete k m : reachable m -> reachable (loadAndDelete k m).2
| reachable_range visit m : reachable m -> reachable (range visit m).2.

(** Modelled from the spec: what the data model says of the write map
    and of expunged slots: the write map is "nil when not in amended
    mode", expunged entries are "never copied into a freshly built
    writeMap", and the snapshot holds expunged entries only while it is
    amended. *)
Definition well_formed (m : Map) : Prop :=
  (amended m = false -> writeMap m = ∅)
  /\ (forall k e, writeMap m !! k = Some e -> is_expunged (slot_at m e) = false)
  /\ (forall k e, readSnapshot m !! k = Some e ->
                  is_expunged (slot_at m e) = true -> amended m = true).

End Map.
Arguments Map K {_ _} V.
Arguments slot V : clear implicits.
End SyncMap.

(** ** sync.Map, as implemented (the second document of
       src/go-go1.0.1/src/pkg/hash/crc32/crc32_amd64.s, lines 63-364)

    The map is embedded as one goroutine runs it: a method runs from its
    first statement to its return with no other goroutine in between, so
    the first attempt of every compare-and-swap loop meets the pointer it
    has just loaded.  The calls of [m.mu.Lock] and [m.mu.Unlock] are those
    of [Mutex116].  A method is a function from the memory before the call
    to its outcome: the results with the memory after the call, a panic, or
    no return at all (a [Lock] that does not come back).

    Go leaves the order in which [range] visits a map open; it is an input
    of the methods that iterate ([host_order]). *)

(** How a call ends. *)
Inductive outcome (A : Type) : Type :=
| Returns (a : A)
| Panics (msg : string)
| Blocks.
Arguments Returns {A} a.
Arguments Panics {A} msg.
Arguments Blocks {A}.

Module GoMap.

Definition nil_map_assignment : string := "assignment to entry in nil map".

Section Map.
Context {K : Type} `{Countable K} {V : Type}.

(** What the field [p] of an [entry] holds (lines 87-91): [nil], the
    sentinel [expunged], or the address of a value, which is modelled by
    the value. *)
Inductive pointer : Type :=
| nil_ptr
| expunged
| value_ptr (v : V).

(** [*entry]: the address of an entry object. *)
Definition entry : Type := positive.

(** Lines 81-84. *)
Record readOnly : Type := mkReadOnly {
  m : gmap K entry;
  amended : bool
}.

(** Lines 74-79, together with the entry objects that the pointers of the
    two maps lead to ([heap]).  [dirty = None] is the nil map. *)
Record Map : Type := mkMap {
  heap : gmap entry pointer;
  mu : Mutex;
  read : readOnly;
  dirty : option (gmap K entry);
  misses : nat
}.

Definition set_heap (v : gmap entry pointer) (s : Map) : Map :=
  mkMap v (mu s) (read s) (dirty s) (misses s).
Definition set_mu (v : Mutex) (s : Map) : Map :=
  mkMap (heap s) v (read s) (dirty s) (misses s).
Definition set_read (v : readOnly) (s : Map) : Map :=
  mkMap (heap s) (mu s) v (dirty s) (misses s).
Definition set_dirty (v : option (gmap K entry)) (s : Map) : Map :=
  mkMap (heap s) (mu s) (read s) v (misses s).
Definition set_misses (v : nat) (s : Map) : Map :=
  mkMap (heap s) (mu s) (read s) (dirty s) v.

(** The zero value, [var m sync.Map]. *)
Definition zero : Map := mkMap ∅ (mkMutex 0 0) (mkReadOnly ∅ false) None 0.

(** What the surroundings supply to a method: the runtime of the mutex
    and the number of steps it is given to return, and the order in which
    a [range] statement visits a map. *)
Record host : Type := mkHost {
  host_runtime : runtime;
  host_fuel : nat;
  host_order : gmap K entry -> list (K * entry)
}.

(** A [range] statement visits every key of the map once. *)
Definition order_ok (h : host) : Prop :=
  forall d, host_order h d ≡ₚ map_to_list d.

(** *** Code that reads and writes the memory and may not return *)

Definition M (A : Type) : Type := Map -> outcome (A * Map).

Definition ret {A : Type} (a : A) : M A := fun s => Returns (a, s).

Definition bind {A B : Type} (c : M A) (f : A -> M B) : M B :=
  fun s =>
    match c s with
    | Returns (a, s') => f a s'
    | Panics msg => Panics msg
    | Blocks => Blocks
    end.

Definition gets {A : Type} (f : Map -> A) : M A := fun s => Returns (f s, s).
Definition modify (f : Map -> Map) : M unit := fun s => Returns (tt, f s).

Notation "x <- c ;; k" := (bind c (fun x => k))
  (at level 20, c at level 99, k at level 200, only parsing).

(** [atomic.LoadPointer(&e.p)]; an address that names no object reads
    as [nil]. *)
Definition LoadPointer (e : entry) : M pointer :=
  gets (fun s => default nil_ptr (heap s !! e)).

(** [atomic.StorePointer(&e.p, p)], and a compare-and-swap that
    succeeds. *)
Definition StorePointer (e : entry) (p : pointer) : M unit :=
  modify (fun s => set_heap (<[e := p]> (heap s)) s).

(** [m.mu.Lock()]: [Mutex116.Lock] by a goroutine on the mutex of the
    map. *)
Definition mu_Lock (h : host) : M unit :=
  fun s =>
    let '(_, g, mu') :=
      Mutex116.Lock (host_fuel h) (host_runtime h) Mutex116.fresh (mu s) in
    match Mutex116.at_pc g with
    | Mutex116.Holding => Returns (tt, set_mu mu' s)
    | Mutex116.Thrown msg => Panics msg
    | _ => Blocks
    end.

(** [m.mu.Unlock()]. *)
Definition mu_Unlock (h : host) : M unit :=
  fun s =>
    let '(_, g, mu') :=
      Mutex116.Unlock (host_fuel h) (host_runtime h) Mutex116.fresh (mu s) in
    match Mutex116.at_pc g with
    | Mutex116.Idle => Returns (tt, set_mu mu' s)
    | Mutex116.Thrown msg => Panics msg
    | _ => Blocks
    end.

(** [e, ok = m.dirty[key]]; a nil map has no keys. *)
Definition dirty_lookup (key : K) : M (option entry) :=
  gets (fun s => d ← dirty s; d !! key).

(** [m.dirty[key] = e]; assigning to an entry of a nil map panics. *)
Definition dirty_assign (key : K) (e : entry) : M unit :=
  fun s =>
    match dirty s with
    | Some d => Returns (tt, set_dirty (Some (<[key := e]> d)) s)
    | None => Panics nil_map_assignment
    end.

(** [delete(m.dirty, key)]; deleting from a nil map does nothing. *)
Definition dirty_delete (key : K) : M unit :=
  modify (fun s => set_dirty (delete key <$> dirty s) s).

(** [len(m.dirty)]; a nil map has length 0. *)
Definition len (d : option (gmap K entry)) : nat :=
  match d with
  | Some d => size d
  | None => 0
  end.

(** [for k, e := range ... { body }] without [break], over the keys in
    the order given. *)
Fixpoint for_range (kes : list (K * entry)) (body : K -> entry -> M unit)
  : M unit :=
  match kes with
  | [] => ret tt
  | (k, e) :: rest => _ <- body k e ;; for_range rest body
  end.

(** *** The methods of [entry] *)

(** Lines 93-95: a new entry object that holds the value. *)
Definition newEntry (i : V) : M entry :=
  fun s =>
    let e := fresh (dom (heap s)) in
    Returns (e, set_heap (<[e := value_ptr i]> (heap s)) s).

(** Lines 120-128. *)
Definition entry_load (e : entry) : M (option V) :=
  p <- LoadPointer e ;;
  match p with
  | nil_ptr | expunged => ret None
  | value_ptr v => ret (Some v)
  end.

(** Lines 168-180. *)
Definition entry_tryStore (e : entry) (i : V) : M bool :=
  p <- LoadPointer e ;;
  match p with
  | expunged => ret false
  | _ => _ <- StorePointer e (value_ptr i) ;; ret true
  end.

(** Lines 185-187: [CompareAndSwapPointer(&e.p, expunged, nil)]. *)
Definition entry_unexpungeLocked (e : entry) : M bool :=
  p <- LoadPointer e ;;
  match p with
  | expunged => _ <- StorePointer e nil_ptr ;; ret true
  | _ => ret false
  end.

(** Lines 190-192. *)
Definition entry_storeLocked (e : entry) (i : V) : M unit :=
  StorePointer e (value_ptr i).

(** Lines 231-252: [(actual, loaded, ok)]; [actual] is [nil] when the
    entry is expunged. *)
Definition entry_tryLoadOrStore (e : entry) (i : V)
  : M (option V * bool * bool) :=
  p <- LoadPointer e ;;
  match p with
  | expunged => ret (None, false, false)
  | value_ptr v => ret (Some v, true, true)
  | nil_ptr => _ <- StorePointer e (value_ptr i) ;; ret (Some i, false, true)
  end.

(** Lines 284-294. *)
Definition entry_delete (e : entry) : M (option V) :=
  p <- LoadPointer e ;;
  match p with
  | nil_ptr | expunged => ret None
  | value_ptr v => _ <- StorePointer e nil_ptr ;; ret (Some v)
  end.

(** Lines 355-364. *)
Definition entry_tryExpungeLocked (e : entry) : M bool :=
  p <- LoadPointer e ;;
  match p with
  | nil_ptr => _ <- StorePointer e expunged ;; ret true
  | expunged => ret true
  | value_ptr _ => ret false
  end.

(** *** The methods of [Map] *)

(** Lines 326-335. *)
Definition missLocked : M unit :=
  _ <- modify (fun s => set_misses (S (misses s)) s) ;;
  n <- gets misses ;;
  d <- gets dirty ;;
  if (n <? len d)%nat then ret tt
  else
    _ <- modify (set_read (mkReadOnly (default ∅ d) false)) ;;
    _ <- modify (set_dirty None) ;;
    modify (set_misses 0%nat).

(** Lines 340-351. *)
Definition dirtyLocked (h : host) : M unit :=
  d <- gets dirty ;;
  match d with
  | Some _ => ret tt
  | None =>
      rd <- gets read ;;
      _ <- modify (set_dirty (Some ∅)) ;;
      for_range (host_order h (m rd))
        (fun k e =>
           isExpunged <- entry_tryExpungeLocked e ;;
           if isExpunged then ret tt else dirty_assign k e)
  end.

(** Lines 97-118; [None] is [(nil, false)]. *)
Definition Load (h : host) (key : K) : M (option V) :=
  rd <- gets read ;;
  let e := m rd !! key in
  e <- (if negb (bool_decide (is_Some e)) && amended rd then
          _ <- mu_Lock h ;;
          rd <- gets read ;;
          let e := m rd !! key in
          e <- (if negb (bool_decide (is_Some e)) && amended rd then
                  e <- dirty_lookup key ;;
                  _ <- missLocked ;;
                  ret e
                else ret e) ;;
          _ <- mu_Unlock h ;;
          ret e
        else ret e) ;;
  match e with
  | None => ret None
  | Some e => entry_load e
  end.

(** Lines 157-162 of [Store] and 214-219 of [LoadOrStore]: a key that
    neither map has. *)
Definition store_new (h : host) (rd : readOnly) (key : K) (value : V)
  : M unit :=
  _ <- (if negb (amended rd) then
          _ <- dirtyLocked h ;;
          modify (set_read (mkReadOnly (m rd) true))
        else ret tt) ;;
  e <- newEntry value ;;
  dirty_assign key e.

(** Lines 131-165. *)
Definition Store (h : host) (key : K) (value : V) : M unit :=
  rd <- gets read ;;
  stored <- match m rd !! key with
            | Some e => entry_tryStore e value
            | None => ret false
            end ;;
  if stored then ret tt
  else
    _ <- mu_Lock h ;;
    rd <- gets read ;;
    _ <- match m rd !! key with
         | Some e =>
             wasExpunged <- entry_unexpungeLocked e ;;
             _ <- (if wasExpunged then dirty_assign key e else ret tt) ;;
             entry_storeLocked e value
         | None =>
             d <- dirty_lookup key ;;
             match d with
             | Some e => entry_storeLocked e value
             | None => store_new h rd key value
             end
         end ;;
    mu_Unlock h.

(** Lines 196-225: [(actual, loaded)]. *)
Definition LoadOrStore (h : host) (key : K) (value : V)
  : M (option V * bool) :=
  rd <- gets read ;;
  early <- match m rd !! key with
           | Some e =>
               r <- entry_tryLoadOrStore e value ;;
               let '(actual, loaded, ok) := r in
               ret (if ok then Some (actual, loaded) else None)
           | None => ret None
           end ;;
  match early with
  | Some r => ret r
  | None =>
      _ <- mu_Lock h ;;
      rd <- gets read ;;
      r <- match m rd !! key with
           | Some e =>
               wasExpunged <- entry_unexpungeLocked e ;;
               _ <- (if wasExpunged then dirty_assign key e else ret tt) ;;
               r <- entry_tryLoadOrStore e value ;;
               ret (r.1.1, r.1.2)
           | None =>
               d <- dirty_lookup key ;;
               match d with
               | Some e =>
                   r <- entry_tryLoadOrStore e value ;;
                   _ <- missLocked ;;
                   ret (r.1.1, r.1.2)
               | None =>
                   _ <- store_new h rd key value ;;
                   ret (Some value, false)
               end
           end ;;
      _ <- mu_Unlock h ;;
      ret r
  end.

(** Lines 257-275. *)
Definition LoadAndDelete (h : host) (key : K) : M (option V) :=
  rd <- gets read ;;
  let e := m rd !! key in
  e <- (if negb (bool_decide (is_Some e)) && amended rd then
          _ <- mu_Lock h ;;
          rd <- gets read ;;
          let e := m rd !! key in
          e <- (if negb (bool_decide (is_Some e)) && amended rd then
                  e <- dirty_lookup key ;;
                  _ <- dirty_delete key ;;
                  _ <- missLocked ;;
                  ret e
                else ret e) ;;
          _ <- mu_Unlock h ;;
          ret e
        else ret e) ;;
  match e with
  | Some e => entry_delete e
  | None => ret None
  end.

(** Lines 279-281. *)
Definition Delete (h : host) (key : K) : M unit :=
  _ <- LoadAndDelete h key ;; ret tt.

(** Lines 312-320: the loop of [Range]; the result lists the calls made
    to [f], in order. *)
Fixpoint range_loop (f : K -> V -> bool) (kes : list (K * entry))
  : M (list (K * V)) :=
  match kes with
  | [] => ret []
  | (k, e) :: rest =>
      v <- entry_load e ;;
      match v with
      | None => range_loop f rest
      | Some v =>
          if f k v
          then calls <- range_loop f rest ;; ret ((k, v) :: calls)
          else ret [(k, v)]
      end
  end.

(** Lines 298-321. *)
Definition Range (h : host) (f : K -> V -> bool) : M (list (K * V)) :=
  rd <- gets read ;;
  rd <- (if amended rd then
           _ <- mu_Lock h ;;
           rd <- gets read ;;
           rd <- (if amended rd then
                    d <- gets dirty ;;
                    let rd := mkReadOnly (default ∅ d) false in
                    _ <- modify (set_read rd) ;;
                    _ <- modify (set_dirty None) ;;
                    _ <- modify (set_misses 0%nat) ;;
                    ret rd
                  else ret rd) ;;
           _ <- mu_Unlock h ;;
           ret rd
         else ret rd) ;;
  range_loop f (host_order h (m rd)).

(** The calls of the methods. *)
Inductive op : Type :=
| OpLoad (key : K)
| OpStore (key : K) (value : V)
| OpLoadOrStore (key : K) (value : V)
| OpLoadAndDelete (key : K)
| OpDelete (key : K)
| OpRange (f : K -> V -> bool).

(** The memory after a call. *)
Definition after (h : host) (o : op) (s : Map) : outcome Map :=
  match o with
  | OpLoad key =>
      match Load h key s with
      | Returns (_, s') => Returns s' | Panics msg => Panics msg | Blocks => Blocks
      end
  | OpStore key value =>
      match Store h key value s with
      | Returns (_, s') => Returns s' | Panics msg => Panics msg | Blocks => Blocks
      end
  | OpLoadOrStore key value =>
      match LoadOrStore h key value s with
      | Returns (_, s') => Returns s' | Panics msg => Panics msg | Blocks => Blocks
      end
  | OpLoadAndDelete key =>
      match LoadAndDelete h key s with
      | Returns (_, s') => Returns s' | Panics msg => Panics msg | Blocks => Blocks
      end
  | OpDelete key =>
      match Delete h key s with
      | Returns (_, s') => Returns s' | Panics msg => Panics msg | Blocks => Blocks
      end
  | OpRange f =>
      match Range h f s with
      | Returns (_, s') => Returns s' | Panics msg => Panics msg | Blocks => Blocks
      end
  end.

(** The memories that calls of the methods lead to from the zero value;
    every call may meet another iteration order, and the mutex is given
    at least one step. *)
Inductive reachable : Map -> Prop :=
| reachable_zero : reachable zero
| reachable_after h o s s' :
    order_ok h -> (0 < host_fuel h)%nat -> reachable s ->
    after h o s = Returns s' -> reachable s'.

(** The pointer of an entry and the value it leads to. *)
Definition pointer_at (s : Map) (e : entry) : pointer :=
  default nil_ptr (heap s !! e).

Definition value_of (p : pointer) : option V :=
  match p with
  | value_ptr v => Some v
  | nil_ptr | expunged => None
  end.

(** The entry of a key: that of [read.m], and for a key that [read.m]
    lacks that of [dirty] when [read.amended]. *)
Definition entry_of (s : Map) (key : K) : option entry :=
  match m (read s) !! key with
  | Some e => Some e
  | None => if amended (read s) then d ← dirty s; d !! key else None
  end.

(** The keys of the map with their values: the finite map that the
    memory stands for. *)
Definition contents (s : Map) : gmap K V :=
  omap (fun e => value_of (pointer_at s e))
    (m (read s) ∪ (if amended (read s) then default ∅ (dirty s) else ∅)).

Definition is_nil (p : pointer) : bool :=
  match p with nil_ptr => true | _ => false end.
Definition is_expunged (p : pointer) : bool :=
  match p with expunged => true | _ => false end.
Definition is_value (p : pointer) : bool :=
  match p with value_ptr _ => true | _ => false end.

(** The key is bound to the entry in [read.m] or in [dirty]. *)
Definition bound (s : Map) (k : K) (e : entry) : Prop :=
  m (read s) !! k = Some e \/ exists d, dirty s = Some d /\ d !! k = Some e.

(** What the comments of the source say of the two maps, and what makes
    it true: [dirty] is nil exactly when [read] is not amended; no entry of
    [dirty] is expunged; an expunged entry of [read.m] has its key outside
    [dirty], which is not nil then; every other entry of [read.m] is the
    entry of [dirty] for that key; the entry objects exist, and none
    serves two keys. *)
Record coherent (s : Map) : Prop := mkCoherent {
  co_amended : amended (read s) = bool_decide (is_Some (dirty s));
  co_dirty : forall d k e,
    dirty s = Some d -> d !! k = Some e -> is_expunged (pointer_at s e) = false;
  co_expunged : forall k e,
    m (read s) !! k = Some e -> is_expunged (pointer_at s e) = true ->
    exists d, dirty s = Some d /\ d !! k = None;
  co_shared : forall d k e,
    dirty s = Some d -> m (read s) !! k = Some e ->
    is_expunged (pointer_at s e) = false -> d !! k = Some e;
  co_allocated : forall k e, bound s k e -> is_Some (heap s !! e);
  co_injective : forall k1 k2 e, bound s k1 e -> bound s k2 e -> k1 = k2
}.

(** Between calls the mutex is free, and [misses] has not reached the
    length of [dirty]. *)
Definition well_formed (s : Map) : Prop :=
  mu s = mkMutex 0 0
  /\ coherent s
  /\ (misses s = 0%nat \/ (misses s < len (dirty s))%nat).

(** The pairs that a [range] over the entries in the order given hands to
    the loop body of [Range]: those of the entries that hold a value. *)
Definition live (s : Map) (kes : list (K * entry)) : list (K * V) :=
  omap (fun ke => pair ke.1 <$> value_of (pointer_at s ke.2)) kes.

End Map.
Arguments Map K {_ _} V.
Arguments readOnly K {_ _}.
Arguments host K {_ _}.
Arguments op K V : clear implicits.
Arguments pointer V : clear implicits.

(** A host for examples: the mutex is given one step, and [range] visits
    a map in the order of [map_to_list]. *)
Definition example_host : host nat :=
  mkHost (mkRuntime (fun _ => false) 0) 1 map_to_list.

(** The zero value after [Store(7, 42)]. *)
Definition example_map : Map nat Z :=
  match Store example_host 7%nat 42 zero with
  | Returns (_, s) => s
  | _ => zero
  end.

End GoMap.

(** ** Goroutines sharing one go1.16 mutex: who wakes the waiters *)

Module Wakeups.
Import Mutex116 System.

(** A goroutine in the loop of [unlockSlow] (lines 224-241), which has
    not yet decided whether it wakes a waiter. *)
Definition unlocking (g : goroutine) : Z :=
  match at_pc g with
  | unlockSlow_CAS | unlockSlow_reread => 1
  | _ => 0
  end.

(** A goroutine about to take the mutex by the atomic add of line 180
    with the [delta] of line 166, which leaves the mutex in starvation
    mode. *)
Definition keeping (g : goroutine) : Z :=
  match at_pc g with
  | lockSlow_handoff => if delta g =? -7 then 1 else 0
  | _ => 0
  end.

(** What the comments of lines 122-125 and 225-230 rely on: a starving
    mutex has waiters, two of them while a hand-off that keeps it starving
    is under way; and while a mutex in normal mode is free, has waiters and
    no goroutine is flagged as woken, some goroutine is in the loop of
    [unlockSlow]. *)
Record wakeups (c : config) : Prop := mkWakeups {
  wk_starving :
    starving_bit (state (mutex c)) = true ->
    1 <= waiterCount (state (mutex c));
  wk_keeping :
    2 * tally keeping (goroutines c) <= waiterCount (state (mutex c));
  wk_unlocking :
    locked (state (mutex c)) = false ->
    woken (state (mutex c)) = false ->
    starving_bit (state (mutex c)) = false ->
    1 <= waiterCount (state (mutex c)) ->
    1 <= tally unlocking (goroutines c)
}.

(** A goroutine that the waiters can count on: it holds the mutex, it is
    in [unlockSlow], it has taken a wake-up signal, or it is in the loop of
    [lockSlow] flagged as woken. *)
Definition on_the_way (g : goroutine) : bool :=
  match at_pc g with
  | Holding | Unlock_add
  | unlockSlow_CAS | unlockSlow_reread | unlockSlow_wake _
  | lockSlow_wakeup | lockSlow_handoff => true
  | lockSlow_spinCAS | lockSlow_spin | lockSlow_CAS | lockSlow_reread =>
      awoke g
  | _ => false
  end.

(** In starvation mode the mutex belongs to the goroutine that holds it
    or is unlocking it with the hand-off (line 248), or to the waiter that
    has taken the signal of the hand-off and has not yet fixed the state
    word (lines 153-180). *)
Definition owning (g : goroutine) : Z :=
  match at_pc g with
  | Holding | Unlock_add | unlockSlow_wake true
  | lockSlow_wakeup | lockSlow_handoff => 1
  | _ => 0
  end.

(** What a goroutine that runs [Lock] alone on a locked mutex knows: the
    semaphore has no signal, the mutex stays locked, and when the
    goroutine has flagged itself as woken (line 103) the woken bit is
    set. *)
Definition waits_for_itself (g : goroutine) (m : Mutex) : Prop :=
  sema m = 0 /\ locked (state m) = true
  /\ match at_pc g with
     | Lock_fast | lockSlow_entry | lockSlow_park => True
     | lockSlow_spinCAS => awoke g = false
     | lockSlow_spin | lockSlow_reread =>
         awoke g = true -> woken (state m) = true
     | lockSlow_CAS =>
         candidate (old g) (starving g) (awoke g) = Ok (new g)
         /\ (awoke g = true -> woken (state m) = true)
     | _ => False
     end.

(** Schedules for examples.  Goroutine 0 takes the mutex and goroutine 1
    parks behind it. *)
Definition parked_schedule : list (nat * runtime) :=
  let r := mkRuntime (fun _ => false) 0 in
  [(0%nat, r); (0%nat, r); (1%nat, r); (1%nat, r); (1%nat, r); (1%nat, r)].

(** Then goroutine 0 unlocks and wakes goroutine 1, goroutine 2 takes the
    mutex, and goroutine 1 runs a millisecond late, switches the mutex to
    starvation mode and parks again. *)
Definition starving_schedule : list (nat * runtime) :=
  let r := mkRuntime (fun _ => false) 0 in
  let late := mkRuntime (fun _ => false) 5000000 in
  parked_schedule
  ++ [(0%nat, r); (0%nat, r); (0%nat, r); (0%nat, r)]
  ++ [(2%nat, r); (2%nat, r); (2%nat, r); (2%nat, r)]
  ++ [(1%nat, late); (1%nat, late); (1%nat, late); (1%nat, late)].

(** Then goroutine 2 unlocks and releases the semaphore for the
    hand-off. *)
Definition handoff_schedule : list (nat * runtime) :=
  let r := mkRuntime (fun _ => false) 0 in
  starving_schedule ++ [(2%nat, r); (2%nat, r); (2%nat, r)].

End Wakeups.

(** ** Goroutines sharing one mutex of the earlier version
       (src/unnamed/part_000)

    As for the go1.16 mutex: every goroutine runs
    [for { m.Lock(); ...; m.Unlock() }], the holder may leave it to an idle
    goroutine to unlock, and the scheduler picks which goroutine moves. *)

(** The waiter count occupies the 30 bits above the two flags. *)
Definition wrap30 (z : Z) : Z := (z + 2 ^ 29) mod 2 ^ 30 - 2 ^ 29.

Module LegacySystem.
Import MutexLegacy.

(** The state word with the given fields. *)
Definition pack (l k : bool) (w : Z) : Z := 4 * w + (Z.b2z l + 2 * Z.b2z k).

Record config : Type := mkConfig {
  goroutines : list goroutine;
  mutex : Mutex
}.

Definition init (n : nat) : config :=
  mkConfig (replicate n fresh) (mkMutex 0 0).

Definition fire (i : nat) (c : config) : config :=
  match goroutines c !! i with
  | Some g =>
      let '(_, g', m') := step g (mutex c) in
      mkConfig (<[i := g']> (goroutines c)) m'
  | None => c
  end.

Definition hand_over (i j : nat) (c : config) : config :=
  match goroutines c !! i, goroutines c !! j with
  | Some gi, Some gj =>
      match at_pc gi, at_pc gj with
      | Holding, Idle =>
          mkConfig (<[j := goto Holding gj]> (<[i := goto Idle gi]> (goroutines c)))
                   (mutex c)
      | _, _ => c
      end
  | _, _ => c
  end.

Fixpoint run (sched : list nat) (c : config) : config :=
  match sched with
  | [] => c
  | i :: rest => run rest (fire i c)
  end.

Inductive reachable (n : nat) : config -> Prop :=
| reachable_init : reachable n (init n)
| reachable_fire c i : reachable n c -> reachable n (fire i c)
| reachable_hand_over c i j : reachable n c -> reachable n (hand_over i j c).

(** The program points of [Lock]. *)
Definition acquiring (p : pc) : bool :=
  match p with
  | Lock_fast | Lock_load | Lock_CAS | Lock_park => true
  | _ => false
  end.

Fixpoint tally (f : goroutine -> Z) (gs : list goroutine) : Z :=
  match gs with
  | [] => 0
  | g :: gs' => f g + tally f gs'
  end.

(** The parts of a goroutine that the state word and the semaphore
    account for. *)
Definition holder (g : goroutine) : Z :=
  match at_pc g with Holding | Unlock_add => 1 | _ => 0 end.
Definition queued (g : goroutine) : Z :=
  match at_pc g with Lock_park => 1 | _ => 0 end.
Definition signalling (g : goroutine) : Z :=
  match at_pc g with Unlock_wake => 1 | _ => 0 end.
Definition awake (g : goroutine) : Z :=
  match at_pc g with
  | Lock_load | Lock_CAS => Z.b2z (awoke g)
  | _ => 0
  end.

(** What each goroutine knows about its own local variables. *)
Definition local_ok (g : goroutine) : Prop :=
  match at_pc g with
  | Lock_CAS => new g = candidate (old g) (awoke g)
  | Unlock_CAS =>
      locked (old g) = false /\ woken (old g) = false
      /\ waiterCount (old g) <> 0
      /\ new g = Z.lor (Int32.sub (old g) 4) mutexWoken
  | Panicked _ => False
  | _ => True
  end.

(** The invariant that ties the state word and the semaphore to the
    goroutines: the locked bit is set exactly while a goroutine holds the
    mutex; the woken bit is set exactly while a wake-up is under way (an
    unlocker about to signal, a pending signal, or a woken goroutine that
    has not yet retried); and the waiter count is the number of parked
    goroutines that no wake-up is under way for. *)
Record invariant (n : nat) (c : config) : Prop := mkInvariant {
  inv_length : length (goroutines c) = n;
  inv_local : Forall local_ok (goroutines c);
  inv_sema : 0 <= sema (mutex c);
  inv_waiters : 0 <= waiterCount (state (mutex c));
  inv_locked :
    Z.b2z (locked (state (mutex c))) = tally holder (goroutines c);
  inv_woken :
    Z.b2z (woken (state (mutex c)))
    = tally awake (goroutines c) + sema (mutex c)
      + tally signalling (goroutines c);
  inv_count :
    waiterCount (state (mutex c))
    = tally queued (goroutines c) - sema (mutex c)
      - tally signalling (goroutines c)
}.

(** A goroutine in the loop of [Unlock] (lines 84-102), which has not
    yet decided whether it wakes a waiter. *)
Definition unlocking (g : goroutine) : Z :=
  match at_pc g with
  | Unlock_CAS | Unlock_reread => 1
  | _ => 0
  end.

(** While the mutex is free, has waiters and no wake-up is under way,
    some goroutine is in the loop of [Unlock]. *)
Definition unlocker_present (c : config) : Prop :=
  locked (state (mutex c)) = false ->
  woken (state (mutex c)) = false ->
  1 <= waiterCount (state (mutex c)) ->
  1 <= tally unlocking (goroutines c).

(** A goroutine that the waiters can count on: it holds the mutex, it is
    in the slow path of [Unlock], or it has been woken and has not yet
    retried. *)
Definition on_the_way (g : goroutine) : bool :=
  match at_pc g with
  | Holding | Unlock_add | Unlock_CAS | Unlock_reread | Unlock_wake => true
  | Lock_load | Lock_CAS => awoke g
  | _ => false
  end.

(** A schedule for examples: goroutine 0 takes the mutex, goroutine 1
    parks behind it. *)
Definition parked_schedule : list nat :=
  [0%nat; 0%nat; 1%nat; 1%nat; 1%nat; 1%nat].

End LegacySystem.

(** ** hash/crc32 on amd64 (the first document of
       src/go-go1.0.1/src/pkg/hash/crc32/crc32_amd64.s, lines 1-61)

    The two routines are embedded instruction by instruction.  A register
    holds 64 bits; an instruction with the suffix [L] works on the low 32
    bits and clears the high ones, as the processor does.  What the
    instructions [CRC32B], [CRC32Q] and [CPUID] compute is not in the
    source: it is an input of the model ([hardware]). *)

Module Crc32.

Definition wrap32 (z : Z) : Z := z mod 2 ^ 32.
Definition wrap64 (z : Z) : Z := z mod 2 ^ 64.

(** The low 32 bits of a register read as a signed number, as the
    comparison of [CMPL] with [JL] reads them. *)
Definition signed32 (z : Z) : Z := Int32.wrap z.

(** [NOTL]: the complement of the low 32 bits. *)
Definition not32 (z : Z) : Z := 2 ^ 32 - 1 - wrap32 z.

(** The processor: the result of [CRC32B] on an accumulator and a byte,
    of [CRC32Q] on an accumulator and the eight bytes of its operand in
    the order of their addresses, and the registers [(AX, BX, CX, DX)]
    that [CPUID] gives for a leaf. *)
Record hardware : Type := mkHardware {
  crc32b : Z -> Z -> Z;
  crc32q : Z -> list Z -> Z;
  cpuid : Z -> Z * Z * Z * Z
}.

(** [CRC32B] on the bytes of a list in turn, from the accumulator [c]. *)
Definition accumulate (hw : hardware) (c : Z) (bs : list Z) : Z :=
  fold_left (fun a b => wrap32 (crc32b hw a b)) bs c.

(** On a quadword the instruction does what it does on the eight bytes,
    one after the other from the lowest address. *)
Definition bytewise (hw : hardware) : Prop :=
  forall c bs, length bs = 8%nat ->
    wrap32 (crc32q hw c bs) = accumulate hw (wrap32 c) bs.

(** The instructions of [castagnoliSSE42], named by their lines. *)
Inductive pc : Type :=
| L7    (* MOVL crc+0(FP), AX *)
| L8    (* MOVQ p+8(FP), SI *)
| L9    (* MOVL p+16(FP), CX *)
| L11   (* NOTL AX *)
| L14   (* CMPL CX, $8 *)
| L15   (* JL cleanup *)
| L19   (* startup: MOVQ SI, BX *)
| L20   (* ANDQ $7, BX *)
| L21   (* JZ aligned *)
| L23   (* CRC32B (SI), AX *)
| L24   (* DECL CX *)
| L25   (* INCQ SI *)
| L26   (* JMP startup *)
| L30   (* aligned: CMPL CX, $8 *)
| L31   (* JL cleanup *)
| L33   (* CRC32Q (SI), AX *)
| L34   (* ADDQ $8, SI *)
| L35   (* SUBQ $8, CX *)
| L36   (* JMP aligned *)
| L40   (* cleanup: CMPL CX, $0 *)
| L41   (* JE done *)
| L43   (* CRC32B (SI), AX *)
| L44   (* INCQ SI *)
| L45   (* DECQ CX *)
| L46   (* JMP cleanup *)
| L49   (* done: NOTL AX *)
| L50   (* MOVL AX, ret+24(FP) *)
| L51   (* RET *)
| Returned.

(** The registers, the two conditions that the jumps of the routine
    test (zero, and signed less-than), and the result slot of the frame. *)
Record machine : Type := mkMachine {
  at_pc : pc;
  AX : Z;
  BX : Z;
  CX : Z;
  SI : Z;
  ZF : bool;
  LT : bool;
  ret : Z
}.

(** The arguments in the frame: [crc], and the slice [p] as its data
    pointer and its length; and the memory, a byte for every address. *)
Record frame : Type := mkFrame {
  arg_crc : Z;
  arg_ptr : Z;
  arg_len : Z;
  mem : Z -> Z
}.

Definition goto (p : pc) (s : machine) : machine :=
  mkMachine p (AX s) (BX s) (CX s) (SI s) (ZF s) (LT s) (ret s).
Definition set_AX (v : Z) (s : machine) : machine :=
  mkMachine (at_pc s) v (BX s) (CX s) (SI s) (ZF s) (LT s) (ret s).
Definition set_BX (v : Z) (s : machine) : machine :=
  mkMachine (at_pc s) (AX s) v (CX s) (SI s) (ZF s) (LT s) (ret s).
Definition set_CX (v : Z) (s : machine) : machine :=
  mkMachine (at_pc s) (AX s) (BX s) v (SI s) (ZF s) (LT s) (ret s).
Definition set_SI (v : Z) (s : machine) : machine :=
  mkMachine (at_pc s) (AX s) (BX s) (CX s) v (ZF s) (LT s) (ret s).
Definition set_flags (z l : bool) (s : machine) : machine :=
  mkMachine (at_pc s) (AX s) (BX s) (CX s) (SI s) z l (ret s).
Definition set_ret (v : Z) (s : machine) : machine :=
  mkMachine (at_pc s) (AX s) (BX s) (CX s) (SI s) (ZF s) (LT s) v.

(** The signed reading of a 64-bit register. *)
Definition signed64 (z : Z) : Z := (z + 2 ^ 63) mod 2 ^ 64 - 2 ^ 63.

(** The conditions after a subtraction or comparison [a - b] and after
    an addition [a + b]: zero, and sign flag unlike overflow flag. *)
Definition cmp32 (a b : Z) (s : machine) : machine :=
  set_flags (wrap32 a =? wrap32 b) (signed32 a <? signed32 b) s.
Definition sub64_flags (a b : Z) (s : machine) : machine :=
  set_flags (wrap64 (a - b) =? 0) (signed64 a <? signed64 b) s.
Definition add64_flags (a b : Z) (s : machine) : machine :=
  set_flags (wrap64 (a + b) =? 0) (signed64 a + signed64 b <? 0) s.
Definition sub32_flags (a b : Z) (s : machine) : machine :=
  set_flags (wrap32 (a - b) =? 0) (signed32 a <? signed32 b) s.

(** The eight bytes at an address. *)
Definition quad (f : frame) (a : Z) : list Z :=
  map (fun i => mem f (wrap64 (a + i))) [0; 1; 2; 3; 4; 5; 6; 7].

(** One instruction. *)
Definition step (hw : hardware) (f : frame) (s : machine) : machine :=
  match at_pc s with
  | L7 => goto L8 (set_AX (wrap32 (arg_crc f)) s)
  | L8 => goto L9 (set_SI (wrap64 (arg_ptr f)) s)
  | L9 => goto L11 (set_CX (wrap32 (arg_len f)) s)
  | L11 => goto L14 (set_AX (not32 (AX s)) s)
  | L14 => goto L15 (cmp32 (CX s) 8 s)
  | L15 => if LT s then goto L40 s else goto L19 s
  | L19 => goto L20 (set_BX (SI s) s)
  | L20 =>
      let r := Z.land (BX s) 7 in
      goto L21 (set_flags (r =? 0) (signed64 r <? 0) (set_BX r s))
  | L21 => if ZF s then goto L30 s else goto L23 s
  | L23 => goto L24 (set_AX (wrap32 (crc32b hw (AX s) (mem f (SI s)))) s)
  | L24 => goto L25 (sub32_flags (CX s) 1 (set_CX (wrap32 (CX s - 1)) s))
  | L25 => goto L26 (add64_flags (SI s) 1 (set_SI (wrap64 (SI s + 1)) s))
  | L26 => goto L19 s
  | L30 => goto L31 (cmp32 (CX s) 8 s)
  | L31 => if LT s then goto L40 s else goto L33 s
  | L33 => goto L34 (set_AX (wrap32 (crc32q hw (AX s) (quad f (SI s)))) s)
  | L34 => goto L35 (add64_flags (SI s) 8 (set_SI (wrap64 (SI s + 8)) s))
  | L35 => goto L36 (sub64_flags (CX s) 8 (set_CX (wrap64 (CX s - 8)) s))
  | L36 => goto L30 s
  | L40 => goto L41 (cmp32 (CX s) 0 s)
  | L41 => if ZF s then goto L49 s else goto L43 s
  | L43 => goto L44 (set_AX (wrap32 (crc32b hw (AX s) (mem f (SI s)))) s)
  | L44 => goto L45 (add64_flags (SI s) 1 (set_SI (wrap64 (SI s + 1)) s))
  | L45 => goto L46 (sub64_flags (CX s) 1 (set_CX (wrap64 (CX s - 1)) s))
  | L46 => goto L40 s
  | L49 => goto L50 (set_AX (not32 (AX s)) s)
  | L50 => goto L51 (set_ret (wrap32 (AX s)) s)
  | L51 => goto Returned s
  | Returned => s
  end.

Fixpoint exec (fuel : nat) (hw : hardware) (f : frame) (s : machine)
  : machine :=
  match fuel with
  | O => s
  | S fuel' => exec fuel' hw f (step hw f s)
  end.

(** The machine at the entry of the routine; the registers hold what the
    caller left in them. *)
Definition entry (ax bx cx si : Z) (zf lt : bool) : machine :=
  mkMachine L7 ax bx cx si zf lt 0.

(** [castagnoliSSE42(crc, p)]: the result slot once the routine has
    returned, [None] while it is running. *)
Definition castagnoliSSE42 (fuel : nat) (hw : hardware) (f : frame)
    (s : machine) : option Z :=
  let s' := exec fuel hw f (goto L7 s) in
  match at_pc s' with
  | Returned => Some (ret s')
  | _ => None
  end.

(** The bytes at [n] addresses from [a] on. *)
Definition segment (f : frame) (a : Z) (n : nat) : list Z :=
  map (fun i => mem f (a + Z.of_nat i)) (seq 0 n).

(** The bytes of the slice [p]. *)
Definition bytes (f : frame) : list Z :=
  segment f (arg_ptr f) (Z.to_nat (arg_len f)).

(** Lines 54-61, [haveSSE42]: the instructions in turn.  [XORQ AX, AX];
    [INCL AX]; [CPUID]; [SHRQ $20, CX]; [ANDQ $1, CX]; [MOVB CX, ret]. *)
Definition haveSSE42 (hw : hardware) : Z :=
  let ax := Z.lxor 0 0 in
  let ax := wrap32 (ax + 1) in
  let '(_, _, cx, _) := cpuid hw ax in
  let cx := wrap32 cx in
  let cx := Z.shiftr cx 20 in
  let cx := Z.land cx 1 in
  cx mod 2 ^ 8.

(** A processor for examples: a toy accumulator, with a byte-wise
    [CRC32Q]. *)
Definition example_hardware : hardware :=
  mkHardware (fun a b => (33 * a + b) mod 2 ^ 32)
    (fun c bs => fold_left (fun a b => (33 * a + b) mod 2 ^ 32) bs
                   (c mod 2 ^ 32))
    (fun _ => (0, 0, 2 ^ 20, 0)).

(** A frame for examples: eleven bytes at the odd address 4099. *)
Definition example_frame : frame :=
  mkFrame 7 4099 11 (fun a => a mod 256).

End Crc32.

(** * Properties *)

(** ** The models at work *)

(** Normal mode.  Goroutine 0 takes the mutex, goroutine 1 queues behind it
    and parks (state [9]); goroutine 0 unlocks ([8]), wins the right to
    wake a waiter ([2]) and releases the semaphore; goroutine 1 wakes and
    takes the mutex, clearing the woken bit ([1]). *)
Example normal_mode_wake :
  let r := mkRuntime (fun _ => false) 0 in
  let lock0 := [(0%nat, r); (0%nat, r)] in
  let park1 := [(1%nat, r); (1%nat, r); (1%nat, r); (1%nat, r)] in
  let unlock0 := [(0%nat, r); (0%nat, r); (0%nat, r); (0%nat, r)] in
  let wake1 := [(1%nat, r); (1%nat, r); (1%nat, r)] in
  let at_end sched :=
    let c := System.run sched (System.init 2) in
    (map Mutex116.at_pc (System.goroutines c), System.mutex c) in
  at_end (lock0 ++ park1)
  = ([Mutex116.Holding; Mutex116.lockSlow_park], mkMutex 9 0)
  /\ at_end (lock0 ++ park1 ++ unlock0)
     = ([Mutex116.Idle; Mutex116.lockSlow_park], mkMutex 2 1)
  /\ at_end (lock0 ++ park1 ++ unlock0 ++ wake1)
     = ([Mutex116.Idle; Mutex116.Holding], mkMutex 1 0).
Proof. repeat split. Qed.

(** Starvation mode.  As above, but before goroutine 1 runs again a third
    goroutine takes the mutex ([3]); goroutine 1 wakes after more than a
    millisecond, finds the mutex locked, switches it to starvation mode
    and parks again ([13]); goroutine 2 unlocks ([12]) and releases the
    semaphore with hand-off; goroutine 1, the last waiter, takes the
    mutex with one atomic add and leaves starvation mode ([1]). *)
Example starvation_mode_handoff :
  let r := mkRuntime (fun _ => false) 0 in
  let late := mkRuntime (fun _ => false) 5000000 in
  let lock0 := [(0%nat, r); (0%nat, r)] in
  let park1 := [(1%nat, r); (1%nat, r); (1%nat, r); (1%nat, r)] in
  let unlock0 := [(0%nat, r); (0%nat, r); (0%nat, r); (0%nat, r)] in
  let lock2 := [(2%nat, r); (2%nat, r); (2%nat, r); (2%nat, r)] in
  let starve1 := [(1%nat, late); (1%nat, late); (1%nat, late); (1%nat, late)] in
  let unlock2 := [(2%nat, r); (2%nat, r); (2%nat, r)] in
  let handoff1 := [(1%nat, late); (1%nat, late); (1%nat, late)] in
  let at_end sched :=
    let c := System.run sched (System.init 3) in
    (map Mutex116.at_pc (System.goroutines c), System.mutex c) in
  at_end (lock0 ++ park1 ++ unlock0 ++ lock2)
  = ([Mutex116.Idle; Mutex116.lockSlow_park; Mutex116.Holding], mkMutex 3 1)
  /\ at_end (lock0 ++ park1 ++ unlock0 ++ lock2 ++ starve1)
     = ([Mutex116.Idle; Mutex116.lockSlow_park; Mutex116.Holding],
        mkMutex 13 0)
  /\ at_end (lock0 ++ park1 ++ unlock0 ++ lock2 ++ starve1 ++ unlock2)
     = ([Mutex116.Idle; Mutex116.lockSlow_park; Mutex116.Idle], mkMutex 12 1)
  /\ at_end (lock0 ++ park1 ++ unlock0 ++ lock2 ++ starve1 ++ unlock2
               ++ handoff1)
     = ([Mutex116.Idle; Mutex116.Holding; Mutex116.Idle], mkMutex 1 0).
Proof. repeat split. Qed.

(** One goroutine locks, another unlocks. *)
Example unlock_by_another :
  let r := mkRuntime (fun _ => false) 0 in
  let c := System.hand_over 0 1 (System.run [(0%nat, r); (0%nat, r)]
                                   (System.init 2)) in
  map Mutex116.at_pc (System.goroutines c) = [Mutex116.Idle; Mutex116.Holding]
  /\ System.mutex (System.run [(1%nat, r); (1%nat, r)] c) = mkMutex 0 0.
Proof. repeat split. Qed.

(** The earlier mutex, used by one goroutine. *)
Example legacy_lock_unlock :
  MutexLegacy.calls 3 [CallLock; CallUnlock; CallLock] MutexLegacy.fresh
    (mkMutex 0 0)
  = ([1; 0; 1], MutexLegacy.mkG MutexLegacy.Holding false 0 0, mkMutex 1 0).
Proof. reflexivity. Qed.

(** The map: two stores make the write map, two misses promote it into
    the snapshot; a delete clears the slot, the next new key expunges it,
    and a store to the deleted key brings it back into the write map. *)
Example map_promotion_and_expunge :
  let m1 : SyncMap.Map nat Z :=
    SyncMap.store 2%nat 20 (SyncMap.store 1%nat 10 SyncMap.empty) in
  let m2 := (SyncMap.load 1%nat (SyncMap.load 1%nat m1).2).2 in
  let m3 := SyncMap.store 3%nat 30 (SyncMap.delete_key 1%nat m2) in
  let m4 := SyncMap.store 1%nat 11 m3 in
  (SyncMap.amended m1, SyncMap.amended m2) = (true, false)
  /\ (SyncMap.load 1%nat m1).1 = Some 10
  /\ map_to_list (SyncMap.readSnapshot m2) = [(2%nat, 2%positive); (1%nat, 1%positive)]
  /\ SyncMap.slot_at m3 1%positive = SyncMap.Expunged
  /\ SyncMap.writeMap m3 !! 1%nat = None
  /\ (SyncMap.load 1%nat m3).1 = None
  /\ SyncMap.writeMap m4 !! 1%nat = Some 1%positive
  /\ (SyncMap.range (fun _ _ => true) m4).1
     = [(2%nat, 20); (3%nat, 30); (1%nat, 11)].
Proof. vm_compute. repeat split. Qed.


(** ** Bit operations on the state word *)

Lemma lor_as_add (x m : Z) : Z.lor x m = x + m - Z.land x m.
Proof. pose proof (Z.add_lor_land x m). lia. Qed.

Lemma ldiff_as_sub (x m : Z) : Z.ldiff x m = x - Z.land x m.
Proof.
  pose proof (Z.add_lor_land (Z.ldiff x m) (Z.land x m)) as H.
  rewrite Z.lor_ldiff_and in H.
  replace (Z.land (Z.ldiff x m) (Z.land x m)) with 0 in H; [lia|].
  symmetry. apply Z.bits_inj'. intros n Hn.
  rewrite !Z.land_spec, Z.ldiff_spec, Z.bits_0.
  destruct (Z.testbit x n), (Z.testbit m n); reflexivity.
Qed.

(** A mask below 8 only sees the three flags. *)
Lemma land_low3 (x m : Z) : 0 <= m < 8 -> Z.land x m = Z.land (x mod 8) m.
Proof.
  intros Hm.
  change 8 with (2 ^ 3). rewrite <- Z.land_ones by lia.
  rewrite <- Z.land_assoc. f_equal.
  change (Z.ones 3) with 7.
  assert (m = 0 \/ m = 1 \/ m = 2 \/ m = 3 \/ m = 4 \/ m = 5 \/ m = 6 \/ m = 7)
    as H by lia.
  destruct H as [->|[->|[->|[->|[->|[->|[->| ->]]]]]]]; reflexivity.
Qed.

Lemma low3_mod (w r : Z) : 0 <= r < 8 -> (8 * w + r) mod 8 = r.
Proof. intros. Z.div_mod_to_equations. lia. Qed.

Lemma low3_div (w r : Z) : 0 <= r < 8 -> (8 * w + r) / 8 = w.
Proof. intros. Z.div_mod_to_equations. lia. Qed.

Lemma wrap_low3 (w r : Z) :
  0 <= r < 8 -> Int32.wrap (8 * w + r) = 8 * wrap29 w + r.
Proof.
  intros. unfold Int32.wrap, wrap29.
  change (2 ^ 31) with 2147483648. change (2 ^ 32) with 4294967296.
  change (2 ^ 28) with 268435456. change (2 ^ 29) with 536870912.
  Z.div_mod_to_equations. lia.
Qed.

Lemma wrap29_small (w : Z) : - 2 ^ 28 <= w < 2 ^ 28 -> wrap29 w = w.
Proof.
  intros. unfold wrap29.
  change (2 ^ 28) with 268435456 in *. change (2 ^ 29) with 536870912.
  Z.div_mod_to_equations. lia.
Qed.

Lemma wrap_small (z : Z) : Int32.in_range z -> Int32.wrap z = z.
Proof.
  unfold Int32.in_range, Int32.min_int, Int32.max_int, Int32.wrap.
  change (2 ^ 31) with 2147483648. change (2 ^ 32) with 4294967296.
  intros. Z.div_mod_to_equations. lia.
Qed.

Lemma wrap_in_range (z : Z) : Int32.in_range (Int32.wrap z).
Proof.
  unfold Int32.in_range, Int32.min_int, Int32.max_int, Int32.wrap.
  change (2 ^ 31) with 2147483648. change (2 ^ 32) with 4294967296.
  Z.div_mod_to_equations. lia.
Qed.

(** Evaluate the conjunctions of numerals that remain in the goal. *)
Ltac lands :=
  repeat match goal with
  | |- context [Z.land ?a ?b] =>
      let v := eval vm_compute in (Z.land a b) in
      match v with
      | Z0 => idtac | Zpos _ => idtac | Zneg _ => idtac
      end;
      change (Z.land a b) with v
  end.

Import Mutex116.

(** Every word is the packing of its four fields. *)
Lemma unpack (x : Z) :
  x = pack (locked x) (woken x) (starving_bit x) (waiterCount x).
Proof.
  unfold pack, locked, woken, starving_bit, waiterCount, mutexLocked, mutexWoken,
    mutexStarving, mutexWaiterShift.
  rewrite Z.shiftr_div_pow2 by lia. change (2 ^ 3) with 8.
  rewrite (land_low3 x 1), (land_low3 x 2), (land_low3 x 4) by lia.
  pose proof (Z.div_mod x 8 ltac:(lia)) as E.
  assert (x mod 8 = 0 \/ x mod 8 = 1 \/ x mod 8 = 2 \/ x mod 8 = 3 \/
          x mod 8 = 4 \/ x mod 8 = 5 \/ x mod 8 = 6 \/ x mod 8 = 7) as H
    by (pose proof (Z.mod_pos_bound x 8); lia).
  destruct H as [H|[H|[H|[H|[H|[H|[H|H]]]]]]]; rewrite H in *; lands;
    cbn [Z.eqb negb Z.b2z]; lia.
Qed.

Section Pack.
Variables (l k s : bool) (w : Z).

Let low : 0 <= Z.b2z l + 2 * Z.b2z k + 4 * Z.b2z s < 8.
Proof. destruct l, k, s; cbn; lia. Qed.

Ltac fields :=
  unfold pack, locked, woken, starving_bit, waiterCount, mutexLocked,
    mutexWoken, mutexStarving, mutexWaiterShift;
  rewrite ?lor_as_add, ?ldiff_as_sub;
  repeat rewrite (land_low3 (8 * _ + _)) by lia;
  rewrite ?low3_mod by apply low;
  destruct l, k, s; cbn [Z.b2z]; lands; cbn [Z.eqb negb andb orb Z.b2z];
  try reflexivity; try lia.

Lemma locked_pack : locked (pack l k s w) = l.
Proof. fields. Qed.
Lemma woken_pack : woken (pack l k s w) = k.
Proof. fields. Qed.
Lemma starving_pack : starving_bit (pack l k s w) = s.
Proof. fields. Qed.
Lemma waiterCount_pack : waiterCount (pack l k s w) = w.
Proof.
  unfold waiterCount, pack, mutexWaiterShift.
  rewrite Z.shiftr_div_pow2 by lia. apply low3_div, low.
Qed.
Lemma shiftr_pack : Z.shiftr (pack l k s w) 3 = w.
Proof. apply waiterCount_pack. Qed.
Lemma land_pack_1 : (Z.land (pack l k s w) 1 =? 0) = negb l.
Proof. fields. Qed.
Lemma land_pack_2 : (Z.land (pack l k s w) 2 =? 0) = negb k.
Proof. fields. Qed.
Lemma land_pack_4 : (Z.land (pack l k s w) 4 =? 0) = negb s.
Proof. fields. Qed.
Lemma land_pack_3 : (Z.land (pack l k s w) 3 =? 0) = negb l && negb k.
Proof. fields. Qed.
Lemma land_pack_5 : (Z.land (pack l k s w) 5 =? 0) = negb l && negb s.
Proof. fields. Qed.
Lemma land_pack_5_1 : (Z.land (pack l k s w) 5 =? 1) = l && negb s.
Proof. fields. Qed.
Lemma land_pack_7 :
  (Z.land (pack l k s w) 7 =? 0) = negb l && negb k && negb s.
Proof. fields. Qed.
Lemma lor_pack_1 : Z.lor (pack l k s w) 1 = pack true k s w.
Proof. fields. Qed.
Lemma lor_pack_2 : Z.lor (pack l k s w) 2 = pack l true s w.
Proof. fields. Qed.
Lemma lor_pack_4 : Z.lor (pack l k s w) 4 = pack l k true w.
Proof. fields. Qed.
Lemma ldiff_pack_2 : Z.ldiff (pack l k s w) 2 = pack l false s w.
Proof. fields. Qed.
Lemma wrap_pack : Int32.wrap (pack l k s w) = pack l k s (wrap29 w).
Proof. unfold pack. apply wrap_low3, low. Qed.
Lemma pack_add_8 : pack l k s w + 8 = pack l k s (w + 1).
Proof. unfold pack. lia. Qed.
Lemma pack_sub_8 : pack l k s w - 8 = pack l k s (w - 1).
Proof. unfold pack. lia. Qed.
End Pack.

(** Adding or subtracting the locked bit and the hand-off amounts. *)
Lemma pack_unlocked_add_1 k s w : pack false k s w + 1 = pack true k s w.
Proof. unfold pack. cbn [Z.b2z]. lia. Qed.
Lemma pack_locked_sub_1 k s w : pack true k s w - 1 = pack false k s w.
Proof. unfold pack. cbn [Z.b2z]. lia. Qed.
Lemma pack_handoff_7 k w : pack false k true w + -7 = pack true k true (w - 1).
Proof. unfold pack. cbn [Z.b2z]. lia. Qed.
Lemma pack_handoff_11 k w : pack false k true w + -11 = pack true k false (w - 1).
Proof. unfold pack. cbn [Z.b2z]. lia. Qed.

Lemma pack_unlocked_sub_1 k s w :
  pack false k s w + -1
  = pack true (negb k) (if k then s else negb s) (if k || s then w else w - 1).
Proof. destruct k, s; unfold pack; cbn [Z.b2z negb orb]; lia. Qed.
Lemma pack_locked_add_1 k s w :
  pack true k s w + 1
  = pack false (negb k) (if k then negb s else s) (if k && s then w + 1 else w).
Proof. destruct k, s; unfold pack; cbn [Z.b2z negb andb]; lia. Qed.
Lemma pack_locked_add_m1 k s w : pack true k s w + -1 = pack false k s w.
Proof. unfold pack. cbn [Z.b2z]. lia. Qed.
Lemma pack_eqb_0 l k s w :
  (pack l k s w =? 0) = negb l && negb k && negb s && (w =? 0).
Proof.
  destruct (Z.eqb_spec w 0) as [->|Hw];
    destruct l, k, s; unfold pack; cbn [Z.b2z negb andb]; lia.
Qed.

Create Rewrite HintDb pack.
#[global] Hint Rewrite locked_pack woken_pack starving_pack waiterCount_pack
  shiftr_pack land_pack_1 land_pack_2 land_pack_4 land_pack_3 land_pack_5
  land_pack_5_1 land_pack_7 lor_pack_1 lor_pack_2 lor_pack_4 ldiff_pack_2
  wrap_pack pack_add_8 pack_sub_8 pack_unlocked_add_1 pack_locked_sub_1
  pack_handoff_7 pack_handoff_11 pack_unlocked_sub_1 pack_locked_add_1
  pack_locked_add_m1 pack_eqb_0 : pack.

(** The waiter count of an [int32] fits its 29 bits. *)
Lemma waiterCount_range (x : Z) :
  Int32.in_range x -> - 2 ^ 28 <= waiterCount x < 2 ^ 28.
Proof.
  unfold Int32.in_range, Int32.min_int, Int32.max_int, waiterCount,
    mutexWaiterShift.
  rewrite Z.shiftr_div_pow2 by lia.
  change (2 ^ 31) with 2147483648. change (2 ^ 28) with 268435456.
  change (2 ^ 3) with 8.
  intros. Z.div_mod_to_equations. lia.
Qed.

(** Unfold the named constants of the mutex and the composite masks. *)
Ltac consts :=
  cbv [mutexLocked mutexWoken mutexStarving mutexWaiterShift
       Int32.add Int32.sub] in *;
  change (Z.lor 1 4) with 5 in *; change (Z.lor 1 2) with 3 in *;
  change (Z.lor (Z.lor 1 2) 4) with 7 in *; change (Z.lor 3 4) with 7 in *;
  change (Z.shiftl 1 3) with 8 in *; change (- (1)) with (-1) in *.

(** Replace a word by the packing of its fields, the fields being
    arbitrary. *)
Ltac unpack_word x l k s w :=
  rewrite (unpack x) in *;
  set (l := locked x) in *; set (k := woken x) in *;
  set (s := starving_bit x) in *; set (w := waiterCount x) in *;
  clearbody l k s w.

(** Read the registers of a goroutine and the words of the mutex after
    assignments. *)
Ltac regs :=
  cbn [at_pc waitStartTime starving awoke iter old new queueLifo delta
       goto set_waitStartTime set_starving set_awoke set_iter set_old set_new
       set_queueLifo set_delta state sema set_state set_sema semrelease
       fst snd] in *.

(** ** The acquire path of the go1.16 mutex *)

(** The candidate state, field by field, for an arbitrary word. *)
Lemma candidate_pack (l k s : bool) (w : Z) (st aw : bool) :
  candidate (pack l k s w) st aw =
  if aw && negb k then Throw inconsistent
  else Ok (pack (l || negb s) (k && negb aw) (s || (st && l))
             (if l || s then wrap29 (w + 1) else w)).
Proof.
  unfold candidate. consts. autorewrite with pack.
  destruct l, k, s, st, aw; cbn [negb andb orb]; autorewrite with pack;
    cbn [negb andb orb]; autorewrite with pack; reflexivity.
Qed.

(** C5: when the spin branch is not taken, [lockSlow] goes on to the
    compare-and-swap of line 139 with a candidate that is [old] with the
    locked bit set iff [old] is not starving, the waiter count incremented
    by one iff [old] is locked or starving (within the 29 bits of the
    field: exactly, unless the field is at its largest value), the
    starving bit set iff the goroutine is starving and [old] is locked, and
    the woken bit cleared iff the goroutine was woken; it throws instead
    iff the goroutine was woken and the woken bit is not set. *)
Theorem lockSlow_candidate_state (r : runtime) (g : goroutine) :
  (Z.land (old g) (Z.lor mutexLocked mutexStarving) =? mutexLocked)
  && runtime_canSpin r (iter g) = false ->
  match candidate (old g) (starving g) (awoke g) with
  | Throw msg =>
      msg = inconsistent /\ lockSlow_top r g = goto (Thrown inconsistent) g
      /\ awoke g = true /\ woken (old g) = false
  | Ok n =>
      lockSlow_top r g = goto lockSlow_CAS (set_new n g)
      /\ locked n = (if starving_bit (old g) then locked (old g) else true)
      /\ waiterCount n
         = (if locked (old g) || starving_bit (old g)
            then wrap29 (waiterCount (old g) + 1) else waiterCount (old g))
      /\ (Int32.in_range (old g) -> waiterCount (old g) < 2 ^ 28 - 1 ->
          waiterCount n
          = waiterCount (old g)
            + (if locked (old g) || starving_bit (old g) then 1 else 0))
      /\ starving_bit n
         = (starving_bit (old g) || (starving g && locked (old g)))
      /\ woken n = (if awoke g then false else woken (old g))
      /\ (awoke g = true -> woken (old g) = true)
  end.
Proof.
  intros Hspin. unfold lockSlow_top. rewrite Hspin. clear Hspin.
  destruct g as [p t st aw it o nw q d]; cbn [old starving awoke].
  pose proof (waiterCount_range o) as Hrange.
  unpack_word o l k s w. rewrite candidate_pack.
  autorewrite with pack in Hrange.
  destruct aw, k; cbn [andb negb]; autorewrite with pack;
    destruct l, s, st; cbn [andb orb negb]; repeat split; auto;
    intros Hr Hw; specialize (Hrange Hr);
    rewrite ?wrap29_small by lia; lia.
Qed.

(** A run of the candidate computation: a newcomer that finds the mutex
    locked queues behind it. *)
Lemma lockSlow_candidate_state_witness :
  lockSlow_top (mkRuntime (fun _ => false) 0) (set_old 1 fresh)
  = goto lockSlow_CAS (set_new 9 (set_old 1 fresh)).
Proof.
  pose proof (lockSlow_candidate_state (mkRuntime (fun _ => false) 0)
                (set_old 1 fresh) eq_refl) as H.
  exact (proj1 H).
Defined.

(** The words on which the hand-off test of line 160 fires. *)
Lemma handoff_inconsistent_pack (l k s : bool) (w : Z) :
  handoff_inconsistent (pack l k s w) = l || k || (w =? 0).
Proof.
  unfold handoff_inconsistent. consts. autorewrite with pack.
  destruct l, k; reflexivity.
Qed.

Lemma handoff_delta_cases (st : bool) (o : Z) :
  handoff_delta st o = if negb st || (waiterCount o =? 1) then -11 else -7.
Proof.
  unfold handoff_delta, waiterCount. consts.
  destruct (negb st || (Z.shiftr o 3 =? 1)); reflexivity.
Qed.




(** C7: in the hand-off branch the goroutine throws iff the word it
    observed has the locked bit or the woken bit set or no waiter;
    otherwise it goes on to the atomic add.  Throwing leaves the mutex
    untouched, and a goroutine that has thrown takes no further part. *)
Theorem handoff_check_fatal (r : runtime) (g : goroutine) (m : Mutex) :
  at_pc g = lockSlow_wakeup ->
  starving_bit (state m) = true ->
  let g' := (step r g m).1.2 in
  (at_pc g' = Thrown inconsistent
   <-> locked (state m) = true \/ woken (state m) = true
       \/ waiterCount (state m) = 0)
  /\ (at_pc g' = Thrown inconsistent \/ at_pc g' = lockSlow_handoff)
  /\ (step r g m).2 = m
  /\ (at_pc g' = Thrown inconsistent ->
      forall r' m', step r' g' m' = (Tau, g', m')).
Proof.
  intros Hpc Hs.
  destruct g as [p t st0 aw it o nw q d]; cbn in Hpc; subst p.
  destruct m as [x sm]; cbn [state sema] in *.
  cbn [step at_pc]. unfold lockSlow_after_wakeup. regs.
  unfold starving_bit in Hs. consts.
  destruct (Z.land x 4 =? 0); [discriminate|]. cbn [negb]. clear Hs.
  unpack_word x l k s w. rewrite handoff_inconsistent_pack.
  autorewrite with pack.
  destruct l, k; cbn [orb goto at_pc]; try (destruct (Z.eqb_spec w 0));
    cbn [goto at_pc]; (split; [split|]); intros; try discriminate; auto;
    try (repeat split; solve [auto | discriminate]);
    try (destruct H as [H|[H|H]]; congruence).
Qed.

(** The goroutine woken with the word [13] throws. *)
Lemma handoff_check_fatal_witness :
  at_pc (step (mkRuntime (fun _ => false) 0) (goto lockSlow_wakeup fresh)
           (mkMutex 13 0)).1.2 = Thrown inconsistent.
Proof.
  pose proof (handoff_check_fatal (mkRuntime (fun _ => false) 0)
                (goto lockSlow_wakeup fresh) (mkMutex 13 0) eq_refl eq_refl)
    as H.
  cbv zeta in H. apply H. left. reflexivity.
Defined.

(** ** The release path *)

(** The loop head of [unlockSlow] on an arbitrary word. *)
Lemma unlockSlow_top_pack (g : goroutine) (l k s : bool) (w : Z) :
  old g = pack l k s w ->
  unlockSlow_top g =
  if (w =? 0) || l || k || s then goto Idle g
  else goto unlockSlow_CAS (set_new (pack false true false (wrap29 (w - 1))) g).
Proof.
  intros E. unfold unlockSlow_top. rewrite E. consts. autorewrite with pack.
  destruct (w =? 0), l, k, s; cbn [negb orb andb]; autorewrite with pack;
    reflexivity.
Qed.

(** [unlockSlow] never throws on a word obtained from a locked one. *)
Lemma unlockSlow_pack (g : goroutine) (l k s : bool) (w : Z) :
  new g = pack l k s w ->
  unlockSlow g =
  if l then goto (Thrown unlock_of_unlocked) g
  else if s then goto (unlockSlow_wake true) g
       else unlockSlow_top (set_old (pack l k s w) g).
Proof.
  intros E. unfold unlockSlow. rewrite E. consts.
  destruct l; autorewrite with pack; cbn [negb]; [reflexivity|].
  destruct s; reflexivity.
Qed.

Lemma unlockSlow_top_not_thrown (g : goroutine) (msg : string) :
  at_pc (unlockSlow_top g) <> Thrown msg.
Proof.
  unfold unlockSlow_top.
  destruct (_ || _); cbn; discriminate.
Qed.

Lemma legacy_Unlock_top_not_panicked (g : MutexLegacy.goroutine) (msg : string) :
  MutexLegacy.at_pc (MutexLegacy.Unlock_top g) <> MutexLegacy.Panicked msg.
Proof.
  unfold MutexLegacy.Unlock_top.
  destruct (_ || _); cbn; discriminate.
Qed.

(** Subtracting the locked bit and adding it back, in terms of the locked
    bit alone. *)
Lemma locked_wrap (z : Z) : locked (Int32.wrap z) = locked z.
Proof.
  unpack_word z l k s w. now autorewrite with pack.
Qed.

Lemma locked_succ (z : Z) : locked (z + 1) = negb (locked z).
Proof.
  unpack_word z l k s w. destruct l; now autorewrite with pack.
Qed.

Lemma locked_pred (z : Z) : locked (z + -1) = negb (locked z).
Proof.
  unpack_word z l k s w. destruct l; now autorewrite with pack.
Qed.

Lemma locked_nonzero (z : Z) : locked z = true -> z <> 0.
Proof. intros H ->. discriminate. Qed.

(** The test of line 218 (line 79 of the earlier version) reads the locked
    bit of the word before the subtraction. *)
Lemma unlock_test (x : Z) :
  (Z.land (Int32.add (Int32.add x (- mutexLocked)) mutexLocked) mutexLocked =? 0)
  = negb (locked x).
Proof.
  transitivity
    (negb (locked (Int32.add (Int32.add x (- mutexLocked)) mutexLocked))).
  { unfold locked. now rewrite negb_involutive. }
  unfold Int32.add. consts.
  now rewrite locked_wrap, locked_succ, locked_wrap, locked_pred,
    negb_involutive.
Qed.

(** C2, as stated, fails in its account of the mechanism: the word that
    results from subtracting the locked bit from an unlocked mutex has its
    locked bit set, not clear (here [0 - 1 = -1]), and the fatal error is
    raised all the same. *)
Lemma Unlock_fatal_counterexample :
  let r := mkRuntime (fun _ => false) 0 in
  let g := goto Unlock_add fresh in
  let m := mkMutex 0 0 in
  locked (state m) = false
  /\ at_pc (step r g m).1.2 = Thrown unlock_of_unlocked
  /\ state (step r g m).2 = -1
  /\ locked (state (step r g m).2) = true.
Proof. repeat split. Qed.

(** C2, amended: [Unlock] (of either version) raises its error exactly
    when the locked bit is clear in the word it subtracts from; the word
    that results then has its locked bit set (the subtraction borrows),
    and the test that triggers the error is that adding the locked bit
    back gives a word whose locked bit is clear.  When the mutex was
    locked no error is raised. *)
Theorem Unlock_fatal_iff
    (r : runtime) (g : goroutine) (gl : MutexLegacy.goroutine) (m : Mutex) :
  at_pc g = Unlock_add ->
  MutexLegacy.at_pc gl = MutexLegacy.Unlock_add ->
  let g' := (step r g m).1.2 in
  let m' := (step r g m).2 in
  let gl' := (MutexLegacy.step gl m).1.2 in
  m' = set_state (Int32.add (state m) (- mutexLocked)) m
  /\ (MutexLegacy.step gl m).2 = m'
  /\ (at_pc g' = Thrown unlock_of_unlocked <-> locked (state m) = false)
  /\ (MutexLegacy.at_pc gl' = MutexLegacy.Panicked MutexLegacy.unlock_of_unlocked
      <-> locked (state m) = false)
  /\ (locked (state m) = true ->
      (forall msg, at_pc g' <> Thrown msg)
      /\ (forall msg, MutexLegacy.at_pc gl' <> MutexLegacy.Panicked msg))
  /\ (locked (state m) = false ->
      locked (state m') = true
      /\ locked (Int32.add (state m') mutexLocked) = false).
Proof.
  intros Hpc Hpcl.
  destruct g as [p t st0 aw it o nw q d]; cbn in Hpc; subst p.
  destruct gl as [pl awl ol nwl]; cbn in Hpcl; subst pl.
  destruct m as [x sm].
  cbn [step MutexLegacy.step at_pc MutexLegacy.at_pc]. regs.
  unfold MutexLegacy.Unlock_check, unlockSlow.
  cbn [MutexLegacy.new MutexLegacy.set_new MutexLegacy.goto MutexLegacy.at_pc]. regs.
  change MutexLegacy.mutexLocked with mutexLocked.
  rewrite !unlock_test.
  assert (Hn : locked x = false -> (Int32.add x (- mutexLocked) =? 0) = false).
  { intros Hl. apply Z.eqb_neq, locked_nonzero. unfold Int32.add. consts.
    now rewrite locked_wrap, locked_pred, Hl. }
  assert (Hadd : locked (Int32.add x (- mutexLocked)) = negb (locked x)).
  { unfold Int32.add. consts. now rewrite locked_wrap, locked_pred. }
  assert (Hback : locked (Int32.add (Int32.add x (- mutexLocked)) mutexLocked)
                  = locked x).
  { unfold Int32.add. consts.
    now rewrite locked_wrap, locked_succ, locked_wrap, locked_pred,
      negb_involutive. }
  destruct (locked x) eqn:Hl; cbn [negb].
  - repeat split; try discriminate; intros; try discriminate.
    + destruct (Int32.add x (- mutexLocked) =? 0); [discriminate|].
      destruct (Z.land _ mutexStarving =? 0); [|discriminate].
      exfalso. eapply unlockSlow_top_not_thrown; eauto.
    + exfalso. eapply legacy_Unlock_top_not_panicked; eauto.
    + destruct (Int32.add x (- mutexLocked) =? 0); [discriminate|].
      destruct (Z.land _ mutexStarving =? 0); [|discriminate].
      apply unlockSlow_top_not_thrown.
    + apply legacy_Unlock_top_not_panicked.
  - rewrite (Hn eq_refl). repeat split; auto; discriminate.
Qed.

(** Releasing a mutex that is not locked. *)
Lemma Unlock_fatal_iff_witness :
  at_pc (step (mkRuntime (fun _ => false) 0) (goto Unlock_add fresh)
           (mkMutex 0 0)).1.2 = Thrown unlock_of_unlocked
  /\ MutexLegacy.at_pc
       (MutexLegacy.step (MutexLegacy.goto MutexLegacy.Unlock_add MutexLegacy.fresh)
          (mkMutex 0 0)).1.2
     = MutexLegacy.Panicked MutexLegacy.unlock_of_unlocked.
Proof.
  pose proof (Unlock_fatal_iff (mkRuntime (fun _ => false) 0)
                (goto Unlock_add fresh)
                (MutexLegacy.goto MutexLegacy.Unlock_add MutexLegacy.fresh)
                (mkMutex 0 0) eq_refl eq_refl) as H.
  cbv zeta in H.
  destruct H as (_ & _ & H1 & H2 & _).
  split; [apply H1 | apply H2]; reflexivity.
Defined.

(** C6, as stated, fails on a post-subtract word whose locked bit is set:
    [Unlock] on the word [2] (woken, not locked) leaves [1], whose starving
    bit is clear and whose locked bit is set, and the slow path throws
    instead of returning. *)
Lemma unlockSlow_normal_counterexample :
  let r := mkRuntime (fun _ => false) 0 in
  let g := goto Unlock_add fresh in
  let m := mkMutex 2 0 in
  state (step r g m).2 = 1
  /\ starving_bit 1 = false /\ locked 1 = true
  /\ (step r g m).1.2 = unlockSlow (set_new 1 g)
  /\ at_pc (unlockSlow (set_new 1 g)) = Thrown unlock_of_unlocked.
Proof. repeat split. Qed.

(** C6, amended: for every post-subtract word with the starving bit clear
    that passes the test of line 218 (its locked bit is clear), the slow
    path enters the loop with that word as [old].  In every round, if
    [old] has no waiter or has its locked, woken or starving bit set, it
    returns without signalling; otherwise it tries to replace [old] by
    the word with one waiter less (within the 29 bits of the field:
    exactly, when the count is positive) and the woken bit set: on success
    it releases the semaphore once, without hand-off, and returns; on
    failure it reads the state again and starts another round. *)
Theorem unlockSlow_normal_mode (r : runtime) (g0 : goroutine) :
  starving_bit (new g0) = false ->
  locked (new g0) = false ->
  unlockSlow g0 = unlockSlow_top (set_old (new g0) g0)
  /\ forall g : goroutine,
     if (waiterCount (old g) =? 0) || locked (old g) || woken (old g)
        || starving_bit (old g)
     then unlockSlow_top g = goto Idle g
     else
       let g1 := unlockSlow_top g in
       at_pc g1 = unlockSlow_CAS /\ old g1 = old g
       /\ locked (new g1) = false /\ woken (new g1) = true
       /\ starving_bit (new g1) = false
       /\ waiterCount (new g1) = wrap29 (waiterCount (old g) - 1)
       /\ (Int32.in_range (old g) -> 1 <= waiterCount (old g) ->
           waiterCount (new g1) = waiterCount (old g) - 1)
       /\ forall m : Mutex,
          if state m =? old g then
            step r g1 m
            = (Tau, goto (unlockSlow_wake false) g1, set_state (new g1) m)
            /\ forall m',
               step r (goto (unlockSlow_wake false) g1) m'
               = (Semrelease false, goto Idle g1, set_sema (sema m' + 1) m')
          else
            step r g1 m = (Tau, goto unlockSlow_reread g1, m)
            /\ forall m',
               step r (goto unlockSlow_reread g1) m'
               = (Tau, unlockSlow_top (set_old (state m') g1), m').
Proof.
  intros Hs Hl. split.
  - pose proof (unpack (new g0)) as E. rewrite Hs, Hl in E.
    rewrite (unlockSlow_pack g0 _ _ _ _ E). now rewrite <- E.
  - intros g. rewrite (unlockSlow_top_pack g _ _ _ _ (unpack (old g))).
    destruct (_ || _); [reflexivity|].
    cbv zeta. regs. autorewrite with pack.
    do 6 (split; [reflexivity|]). split.
    + intros Hr Hw. pose proof (waiterCount_range (old g) Hr).
      apply wrap29_small. lia.
    + intros m. cbn [step at_pc goto set_new]. regs.
      destruct (state m =? old g); split; reflexivity.
Qed.

(** One waiter and nothing else: the word [8] becomes [2] and the
    semaphore is released once. *)
Lemma unlockSlow_normal_mode_witness :
  let r := mkRuntime (fun _ => false) 0 in
  let g := unlockSlow (set_new 8 fresh) in
  at_pc g = unlockSlow_CAS
  /\ step r g (mkMutex 8 0) = (Tau, goto (unlockSlow_wake false) g, mkMutex 2 0).
Proof.
  pose proof (unlockSlow_normal_mode (mkRuntime (fun _ => false) 0)
                (set_new 8 fresh) eq_refl eq_refl) as [H1 H2].
  specialize (H2 (set_old 8 (set_new 8 fresh))).
  cbv zeta. rewrite H1. cbv zeta in H2.
  destruct H2 as (Hpc & _ & _ & _ & _ & _ & _ & Hm).
  split; [exact Hpc|]. exact (proj1 (Hm (mkMutex 8 0))).
Defined.

(** C9, as stated, fails when the post-subtract word also has its locked
    bit set: [Unlock] on the zero value leaves [-1], whose starving bit is
    set, and the slow path throws; the semaphore is not released. *)
Lemma unlockSlow_starving_counterexample :
  let r := mkRuntime (fun _ => false) 0 in
  let g := goto Unlock_add fresh in
  let m := mkMutex 0 0 in
  state (step r g m).2 = -1
  /\ starving_bit (-1) = true
  /\ (step r g m).1.2 = unlockSlow (set_new (-1) g)
  /\ at_pc (unlockSlow (set_new (-1) g)) = Thrown unlock_of_unlocked
  /\ step r (unlockSlow (set_new (-1) g)) (step r g m).2
     = (Tau, unlockSlow (set_new (-1) g), mkMutex (-1) 0).
Proof. repeat split. Qed.

(** C9, amended: when the post-subtract word has the starving bit set and
    passes the test of line 218, the slow path releases the semaphore
    once, with hand-off, and returns; the state word is not touched. *)
Theorem unlockSlow_starving_mode (r : runtime) (g : goroutine) (m : Mutex) :
  starving_bit (new g) = true ->
  locked (new g) = false ->
  unlockSlow g = goto (unlockSlow_wake true) g
  /\ step r (unlockSlow g) m
     = (Semrelease true, goto Idle g, set_sema (sema m + 1) m)
  /\ state (step r (unlockSlow g) m).2 = state m.
Proof.
  intros Hs Hl.
  pose proof (unpack (new g)) as E. rewrite Hs, Hl in E.
  rewrite (unlockSlow_pack g _ _ _ _ E).
  repeat split.
Qed.

(** Releasing a starving mutex with one waiter: the word stays [12]. *)
Lemma unlockSlow_starving_mode_witness :
  step (mkRuntime (fun _ => false) 0) (unlockSlow (set_new 12 fresh))
    (mkMutex 12 0)
  = (Semrelease true, goto Idle (set_new 12 fresh), mkMutex 12 1).
Proof.
  exact (proj1 (proj2 (unlockSlow_starving_mode (mkRuntime (fun _ => false) 0)
                         (set_new 12 fresh) (mkMutex 12 0) eq_refl eq_refl))).
Defined.

(** ** The two versions of the mutex, used by one goroutine *)

(** The first step of [Unlock], go1.16. *)
Lemma Unlock_add_cases (r : runtime) (g : goroutine) (m : Mutex) :
  at_pc g = Unlock_add ->
  let g' := (step r g m).1.2 in
  if locked (state m)
  then at_pc g' = Idle \/ at_pc g' = unlockSlow_CAS
       \/ at_pc g' = unlockSlow_wake true
  else at_pc g' = Thrown unlock_of_unlocked.
Proof.
  intros Hpc. destruct g as [p t st0 aw it o nw q d]; cbn in Hpc; subst p.
  destruct m as [x sm]. cbn [step at_pc]. regs.
  unpack_word x l k s w. unfold Int32.add. consts. autorewrite with pack.
  destruct l; autorewrite with pack; cbn [negb orb andb].
  - destruct (negb k && negb s && _); [now left|].
    erewrite unlockSlow_pack by reflexivity.
    destruct s; [now (right; right)|].
    erewrite unlockSlow_top_pack by reflexivity.
    destruct (_ || _); cbn; auto.
  - erewrite unlockSlow_pack by reflexivity. reflexivity.
Qed.

(** The first step of [Unlock], earlier version. *)
Lemma legacy_Unlock_add_cases (g : MutexLegacy.goroutine) (m : Mutex) :
  MutexLegacy.at_pc g = MutexLegacy.Unlock_add ->
  let g' := (MutexLegacy.step g m).1.2 in
  if locked (state m)
  then MutexLegacy.at_pc g' = MutexLegacy.Idle
       \/ MutexLegacy.at_pc g' = MutexLegacy.Unlock_CAS
  else MutexLegacy.at_pc g'
       = MutexLegacy.Panicked MutexLegacy.unlock_of_unlocked.
Proof.
  intros Hpc. destruct g as [p aw o nw]; cbn in Hpc; subst p.
  destruct m as [x sm]. cbn [MutexLegacy.step MutexLegacy.at_pc]. regs.
  unfold MutexLegacy.Unlock_check.
  cbn [MutexLegacy.new MutexLegacy.set_new MutexLegacy.goto].
  change MutexLegacy.mutexLocked with mutexLocked.
  rewrite unlock_test.
  destruct (locked x); cbn [negb]; [|reflexivity].
  unfold MutexLegacy.Unlock_top. destruct (_ || _); cbn; auto.
Qed.

(** Once past its first step, [Unlock] does not throw. *)
Lemma exec_unlockSlow_not_thrown (fuel : nat) (r : runtime) :
  forall (g : goroutine) (m : Mutex) (msg : string),
    at_pc g = unlockSlow_CAS \/ at_pc g = unlockSlow_reread
    \/ (exists h, at_pc g = unlockSlow_wake h) ->
    at_pc (exec fuel r g m).1.2 <> Thrown msg.
Proof.
  induction fuel as [|fuel IH]; intros g m msg Hpc.
  - cbn. destruct Hpc as [->|[->|[h ->]]]; discriminate.
  - destruct g as [p t st0 aw it o nw q d]; cbn in Hpc.
    cbn [exec].
    destruct Hpc as [->|[->|[h ->]]]; cbn [step at_pc]; regs.
    + destruct (state m =? o); cbn [returned at_pc goto].
      * specialize (IH (mkG (unlockSlow_wake false) t st0 aw it o nw q d)
                      (set_state nw m) msg).
        destruct (exec fuel r _ _) as [[tr g2] m2]. cbn in *.
        apply IH. right. right. eauto.
      * specialize (IH (mkG unlockSlow_reread t st0 aw it o nw q d) m msg).
        destruct (exec fuel r _ _) as [[tr g2] m2]. cbn in *.
        apply IH. auto.
    + set (g1 := unlockSlow_top _).
      assert (at_pc g1 = Idle \/ at_pc g1 = unlockSlow_CAS) as [E|E].
      { subst g1. unfold unlockSlow_top. destruct (_ || _); cbn; auto. }
      * rewrite E. cbn. rewrite E. discriminate.
      * rewrite E. cbn [returned].
        specialize (IH g1 m msg (or_introl E)).
        destruct (exec fuel r g1 m) as [[tr g2] m2]. exact IH.
    + cbn. discriminate.
Qed.

Lemma legacy_exec_Unlock_not_panicked (fuel : nat) :
  forall (g : MutexLegacy.goroutine) (m : Mutex) (msg : string),
    MutexLegacy.at_pc g = MutexLegacy.Unlock_CAS
    \/ MutexLegacy.at_pc g = MutexLegacy.Unlock_reread
    \/ MutexLegacy.at_pc g = MutexLegacy.Unlock_wake ->
    MutexLegacy.at_pc (MutexLegacy.exec fuel g m).1.2
    <> MutexLegacy.Panicked msg.
Proof.
  induction fuel as [|fuel IH]; intros g m msg Hpc.
  - cbn. destruct Hpc as [->|[->| ->]]; discriminate.
  - destruct g as [p aw o nw]; cbn in Hpc.
    cbn [MutexLegacy.exec].
    destruct Hpc as [->|[->| ->]]; cbn [MutexLegacy.step MutexLegacy.at_pc].
    + cbn [MutexLegacy.old MutexLegacy.new MutexLegacy.goto MutexLegacy.at_pc
           MutexLegacy.awoke].
      destruct (state m =? o); cbn [MutexLegacy.returned MutexLegacy.at_pc].
      * specialize (IH (MutexLegacy.mkG MutexLegacy.Unlock_wake aw o nw)
                      (set_state nw m) msg).
        destruct (MutexLegacy.exec fuel _ _) as [[tr g2] m2]. cbn in *.
        apply IH. auto.
      * specialize (IH (MutexLegacy.mkG MutexLegacy.Unlock_reread aw o nw)
                      m msg).
        destruct (MutexLegacy.exec fuel _ _) as [[tr g2] m2]. cbn in *.
        apply IH. auto.
    + set (g1 := MutexLegacy.Unlock_top _).
      assert (MutexLegacy.at_pc g1 = MutexLegacy.Idle
              \/ MutexLegacy.at_pc g1 = MutexLegacy.Unlock_CAS) as [E|E].
      { subst g1. unfold MutexLegacy.Unlock_top.
        destruct (_ || _); cbn; auto. }
      * rewrite E. cbn. rewrite E. discriminate.
      * rewrite E. cbn [MutexLegacy.returned].
        specialize (IH g1 m msg (or_introl E)).
        destruct (MutexLegacy.exec fuel g1 m) as [[tr g2] m2]. exact IH.
    + cbn. discriminate.
Qed.

Lemma Lock_uncontended (fuel : nat) (r : runtime) (g : goroutine) (z : Z) :
  Lock (S fuel) r g (mkMutex 0 z)
  = ([1], goto Holding g, mkMutex 1 z).
Proof. destruct g. reflexivity. Qed.

Lemma Unlock_uncontended (fuel : nat) (r : runtime) (g : goroutine) (z : Z) :
  Unlock (S fuel) r g (mkMutex 1 z)
  = ([0], goto Idle (set_new 0 g), mkMutex 0 z).
Proof. destruct g. reflexivity. Qed.

Lemma legacy_Lock_uncontended (fuel : nat) (g : MutexLegacy.goroutine) (z : Z) :
  MutexLegacy.Lock (S fuel) g (mkMutex 0 z)
  = ([1], MutexLegacy.goto MutexLegacy.Holding g, mkMutex 1 z).
Proof. destruct g. reflexivity. Qed.

Lemma legacy_Unlock_uncontended (fuel : nat) (g : MutexLegacy.goroutine) (z : Z) :
  MutexLegacy.Unlock (S fuel) g (mkMutex 1 z)
  = ([0],
     MutexLegacy.goto MutexLegacy.Idle
       (MutexLegacy.set_old 0 (MutexLegacy.set_new 0 g)),
     mkMutex 0 z).
Proof. destruct g. reflexivity. Qed.

(** Alternating calls by one goroutine, from either state of the mutex. *)
Lemma calls_alternating (fuel : nat) (r : runtime) (n : nat) :
  forall (g : goroutine) (z : Z),
    (forall msg, at_pc g <> Thrown msg) ->
    (let res := calls (S fuel) r (alternating n CallLock) g (mkMutex 0 z) in
     res.1.1 = toggles n 0 /\ forall msg, at_pc res.1.2 <> Thrown msg)
    /\ (let res := calls (S fuel) r (alternating n CallUnlock) g (mkMutex 1 z) in
        res.1.1 = toggles n 1 /\ forall msg, at_pc res.1.2 <> Thrown msg).
Proof.
  induction n as [|n IH]; intros g z Hg; [cbn; auto|].
  cbn [alternating calls toggles]. cbv zeta.
  rewrite Lock_uncontended, Unlock_uncontended. cbn [at_pc goto].
  split.
  - destruct (IH (goto Holding g) z ltac:(cbn; discriminate)) as [_ [H1 H2]].
    cbv zeta in H1, H2.
    destruct (calls (S fuel) r _ _ _) as [[t2 g2] m2]. cbn in *.
    split; [now rewrite H1 | exact H2].
  - destruct (IH (goto Idle (set_new 0 g)) z ltac:(cbn; discriminate))
      as [[H1 H2] _].
    cbv zeta in H1, H2.
    destruct (calls (S fuel) r _ _ _) as [[t2 g2] m2]. cbn in *.
    split; [now rewrite H1 | exact H2].
Qed.

Lemma legacy_calls_alternating (fuel : nat) (n : nat) :
  forall (g : MutexLegacy.goroutine) (z : Z),
    (forall msg, MutexLegacy.at_pc g <> MutexLegacy.Panicked msg) ->
    (let res := MutexLegacy.calls (S fuel) (alternating n CallLock) g
                  (mkMutex 0 z) in
     res.1.1 = toggles n 0
     /\ forall msg, MutexLegacy.at_pc res.1.2 <> MutexLegacy.Panicked msg)
    /\ (let res := MutexLegacy.calls (S fuel) (alternating n CallUnlock) g
                     (mkMutex 1 z) in
        res.1.1 = toggles n 1
        /\ forall msg, MutexLegacy.at_pc res.1.2 <> MutexLegacy.Panicked msg).
Proof.
  induction n as [|n IH]; intros g z Hg; [cbn; auto|].
  cbn [alternating MutexLegacy.calls toggles]. cbv zeta.
  rewrite legacy_Lock_uncontended, legacy_Unlock_uncontended.
  cbn [MutexLegacy.at_pc MutexLegacy.goto].
  split.
  - destruct (IH (MutexLegacy.goto MutexLegacy.Holding g) z
                ltac:(cbn; discriminate)) as [_ [H1 H2]].
    cbv zeta in H1, H2.
    destruct (MutexLegacy.calls (S fuel) _ _ _) as [[t2 g2] m2]. cbn in *.
    split; [now rewrite H1 | exact H2].
  - destruct (IH (MutexLegacy.goto MutexLegacy.Idle
                    (MutexLegacy.set_old 0 (MutexLegacy.set_new 0 g))) z
                ltac:(cbn; discriminate)) as [[H1 H2] _].
    cbv zeta in H1, H2.
    destruct (MutexLegacy.calls (S fuel) _ _ _) as [[t2 g2] m2]. cbn in *.
    split; [now rewrite H1 | exact H2].
Qed.

(** C10: used by one goroutine that calls [Lock] and [Unlock] in turn on
    the zero value, the go1.16 mutex and the earlier one go through the
    same state words, [1] after every [Lock] and [0] after every [Unlock],
    and neither raises an error (if the first call is [Unlock] instead,
    both stop at once with the word [-1]); and on any state word, [Unlock]
    of either version raises "sync: unlock of unlocked mutex" exactly when
    the locked bit is clear. *)
Theorem legacy_agrees_uncontended (n fuel : nat) (r : runtime) :
  let run116 :=
    Mutex116.calls (S fuel) r (alternating n CallLock) Mutex116.fresh
      (mkMutex 0 0) in
  let runLegacy :=
    MutexLegacy.calls (S fuel) (alternating n CallLock) MutexLegacy.fresh
      (mkMutex 0 0) in
  run116.1.1 = runLegacy.1.1
  /\ run116.1.1 = toggles n 0
  /\ (forall msg, Mutex116.at_pc run116.1.2 <> Mutex116.Thrown msg)
  /\ (forall msg, MutexLegacy.at_pc runLegacy.1.2 <> MutexLegacy.Panicked msg)
  /\ (Mutex116.calls (S fuel) r (alternating (S n) CallUnlock) Mutex116.fresh
        (mkMutex 0 0)).1.1
     = [-1]
  /\ (MutexLegacy.calls (S fuel) (alternating (S n) CallUnlock)
        MutexLegacy.fresh (mkMutex 0 0)).1.1
     = [-1]
  /\ forall (s z : Z) (g : Mutex116.goroutine) (gl : MutexLegacy.goroutine),
       (Mutex116.at_pc (Mutex116.Unlock (S fuel) r g (mkMutex s z)).1.2
        = Mutex116.Thrown "sync: unlock of unlocked mutex"
        <-> Mutex116.locked s = false)
       /\ (MutexLegacy.at_pc (MutexLegacy.Unlock (S fuel) gl (mkMutex s z)).1.2
           = MutexLegacy.Panicked "sync: unlock of unlocked mutex"
           <-> MutexLegacy.locked s = false).
Proof.
  cbv zeta.
  destruct (calls_alternating fuel r n fresh 0 ltac:(cbn; discriminate))
    as [[H1 H2] _].
  destruct (legacy_calls_alternating fuel n MutexLegacy.fresh 0
              ltac:(cbn; discriminate)) as [[H3 H4] _].
  cbv zeta in H1, H2, H3, H4.
  split; [congruence|]. split; [exact H1|]. split; [exact H2|].
  split; [exact H4|]. split; [reflexivity|]. split; [reflexivity|].
  intros s z g gl. split.
  - unfold Unlock. cbn [exec].
    pose proof (Unlock_add_cases r (goto Unlock_add g) (mkMutex s z) eq_refl)
      as Hc.
    cbv zeta in Hc. cbn [state] in Hc.
    destruct (step r (goto Unlock_add g) (mkMutex s z)) as [[e g1] m1].
    cbn [fst snd] in Hc.
    destruct (locked s).
    + split; [|discriminate]. intros Habs. exfalso.
      destruct Hc as [Hc|[Hc|Hc]]; rewrite Hc in Habs; cbn [returned] in Habs.
      * cbn in Habs. congruence.
      * pose proof (exec_unlockSlow_not_thrown fuel r g1 m1
                      unlock_of_unlocked (or_introl Hc)) as Hn.
        destruct (exec fuel r g1 m1) as [[tr g2] m2]. cbn in *. auto.
      * pose proof (exec_unlockSlow_not_thrown fuel r g1 m1
                      unlock_of_unlocked
                      (or_intror (or_intror (ex_intro _ true Hc)))) as Hn.
        destruct (exec fuel r g1 m1) as [[tr g2] m2]. cbn in *. auto.
    + rewrite Hc. cbn. split; auto.
  - unfold MutexLegacy.Unlock. cbn [MutexLegacy.exec].
    pose proof (legacy_Unlock_add_cases
                  (MutexLegacy.goto MutexLegacy.Unlock_add gl) (mkMutex s z)
                  eq_refl) as Hc.
    cbv zeta in Hc. cbn [state] in Hc.
    destruct (MutexLegacy.step _ (mkMutex s z)) as [[e g1] m1].
    cbn [fst snd] in Hc.
    change (MutexLegacy.locked s) with (locked s).
    destruct (locked s).
    + split; [|discriminate]. intros Habs. exfalso.
      destruct Hc as [Hc|Hc]; rewrite Hc in Habs;
        cbn [MutexLegacy.returned] in Habs.
      * cbn in Habs. congruence.
      * pose proof (legacy_exec_Unlock_not_panicked fuel g1 m1
                      MutexLegacy.unlock_of_unlocked (or_introl Hc)) as Hn.
        destruct (MutexLegacy.exec fuel g1 m1) as [[tr g2] m2]. cbn in *. auto.
    + rewrite Hc. cbn. split; auto.
Qed.

(** ** Goroutines sharing the mutex: counting *)

Section Tally.
Import System.
Variable f : goroutine -> Z.

Lemma tally_insert (gs : list goroutine) (i : nat) (g g' : goroutine) :
  gs !! i = Some g ->
  tally f (<[i:=g']> gs) = tally f gs - f g + f g'.
Proof.
  revert i. induction gs as [|a gs IH]; intros [|i] H; try discriminate.
  - injection H as ->. cbn. lia.
  - cbn in H. cbn [tally]. change (<[S i:=g']> (a :: gs)) with (a :: <[i:=g']> gs).
    cbn [tally]. rewrite (IH i H). lia.
Qed.

Lemma tally_replicate (n : nat) (g : goroutine) :
  tally f (replicate n g) = Z.of_nat n * f g.
Proof. induction n as [|n IH]; cbn [replicate tally]; lia. Qed.

Hypothesis f_nonneg : forall g, 0 <= f g.

Lemma tally_nonneg (gs : list goroutine) : 0 <= tally f gs.
Proof.
  induction gs as [|a gs IH]; cbn [tally]; [lia|].
  pose proof (f_nonneg a). lia.
Qed.

Lemma tally_lookup (gs : list goroutine) (i : nat) (g : goroutine) :
  gs !! i = Some g -> f g <= tally f gs.
Proof.
  revert i. induction gs as [|a gs IH]; intros [|i] H; try discriminate.
  - injection H as ->. cbn. pose proof (tally_nonneg gs). lia.
  - cbn in H. cbn [tally]. pose proof (IH i H). pose proof (f_nonneg a). lia.
Qed.

(** If the parts sum to at most one, at most one goroutine plays it. *)
Lemma tally_unique (gs : list goroutine) (i j : nat) (gi gj : goroutine) :
  tally f gs <= 1 ->
  gs !! i = Some gi -> gs !! j = Some gj -> f gi = 1 -> f gj = 1 -> i = j.
Proof.
  revert i j. induction gs as [|a gs IH]; intros [|i] [|j] Hle Hi Hj Fi Fj;
    try discriminate; auto.
  - injection Hi as ->. cbn in Hj. cbn [tally] in Hle.
    pose proof (tally_lookup gs j gj Hj). lia.
  - injection Hj as ->. cbn in Hi. cbn [tally] in Hle.
    pose proof (tally_lookup gs i gi Hi). lia.
  - cbn in Hi, Hj. cbn [tally] in Hle. pose proof (f_nonneg a).
    f_equal. apply IH; auto. lia.
Qed.
End Tally.

Section Parts.
Import System.

Lemma holder_range g : 0 <= holder g <= 1.
Proof. unfold holder. destruct (at_pc g); lia. Qed.
Lemma queued_range g : 0 <= queued g <= 1.
Proof. unfold queued. destruct (at_pc g); lia. Qed.
Lemma waking_range g : 0 <= waking g <= 1.
Proof. unfold waking. destruct (at_pc g); lia. Qed.
Lemma adding_range g : 0 <= adding g <= 1.
Proof. unfold adding. destruct (at_pc g); lia. Qed.
Lemma signalling_range h g : 0 <= signalling h g <= 1.
Proof.
  unfold signalling. destruct (at_pc g); try lia.
  destruct (Bool.eqb _ _); lia.
Qed.
Lemma awake_range g : 0 <= awake g <= 1.
Proof. unfold awake. destruct (at_pc g), (awoke g); cbn; lia. Qed.

(** The goroutines waiting for the semaphore or handling a signal are
    among the goroutines. *)
Lemma waiters_le_length (gs : list goroutine) :
  tally queued gs + tally waking gs + tally adding gs
  <= Z.of_nat (length gs).
Proof.
  induction gs as [|a gs IH]; cbn [tally length]; [lia|].
  assert (queued a + waking a + adding a <= 1)
    by (unfold queued, waking, adding; destruct (at_pc a); lia).
  lia.
Qed.
End Parts.

(** ** Goroutines sharing the mutex: the invariant *)

Section Invariant.
Import System.

(** After the head of the loop of [lockSlow] a goroutine is at one of the
    accesses of the loop, knows what that access needs, and is awake iff
    it was woken. *)
Lemma lockSlow_top_ok (r : runtime) (g : goroutine) :
  (starving g = true -> awoke g = true) ->
  (awoke g = true -> woken (old g) = true) ->
  local_ok (lockSlow_top r g)
  /\ parts (lockSlow_top r g) = (0, 0, 0, 0, 0, 0, Z.b2z (awoke g)).
Proof.
  intros Hst Haw. unfold lockSlow_top.
  destruct g as [p t st aw it o nw q d]. regs.
  destruct (_ && runtime_canSpin r it) eqn:Hspin.
  - apply andb_prop in Hspin as [Hspin _].
    destruct (negb aw && _ && _) eqn:Hset.
    + apply andb_prop in Hset as [Hset _]. apply andb_prop in Hset as [Ha Hk].
      destruct aw; [discriminate|].
      unfold local_ok, parts; cbn. split; [|reflexivity].
      unpack_word o l k s w. consts. autorewrite with pack in *.
      destruct l, k, s, st; cbn in *; auto; try discriminate;
        exfalso; auto using eq_sym; try (specialize (Hst eq_refl); discriminate).
    + unfold local_ok, parts; cbn. auto.
  - destruct (candidate o st aw) as [n|msg] eqn:Hc.
    + unfold local_ok, parts; cbn. auto.
    + exfalso. unpack_word o l k s w. rewrite candidate_pack in Hc.
      autorewrite with pack in Haw.
      destruct aw; cbn in Hc; [|discriminate].
      rewrite (Haw eq_refl) in Hc. discriminate.
Qed.

Lemma unlockSlow_top_ok (g : goroutine) :
  local_ok (unlockSlow_top g)
  /\ parts (unlockSlow_top g) = (0, 0, 0, 0, 0, 0, 0).
Proof.
  unfold unlockSlow_top.
  destruct g as [p t st aw it o nw q d]. regs.
  destruct (_ || _) eqn:Hg; unfold local_ok, parts; cbn; [auto|].
  split; [|reflexivity].
  apply orb_false_elim in Hg as [Hw Hf].
  unpack_word o l k s w. consts. autorewrite with pack in *.
  destruct l, k, s; try discriminate.
  repeat split. intros ->. discriminate.
Qed.

End Invariant.

(** ** Goroutines sharing the mutex: every step keeps the invariant *)

Import System.

Lemma invariant_init (n : nat) : invariant n (init n).
Proof.
  unfold init. constructor; cbn [goroutines mutex state sema].
  - apply length_replicate.
  - apply Forall_replicate. exact I.
  - lia.
  - discriminate.
  - rewrite tally_replicate. change (locked 0) with false.
    change (holder fresh) with 0. cbn [Z.b2z]. lia.
  - cbv zeta. change (starving_bit 0) with false. cbv iota.
    rewrite !tally_replicate. change (woken 0) with false.
    change (waiterCount 0) with 0.
    change (adding fresh) with 0. change (signalling true fresh) with 0.
    change (signalling false fresh) with 0. change (awake fresh) with 0.
    change (waking fresh) with 0. change (queued fresh) with 0.
    cbn [Z.b2z]. lia.
Qed.

(** The tallies after goroutine [i] has moved from [g] to [g']. *)
Ltac retally gs i g g' Hi :=
  rewrite ?(tally_insert holder gs i g g' Hi),
    ?(tally_insert queued gs i g g' Hi),
    ?(tally_insert waking gs i g g' Hi),
    ?(tally_insert adding gs i g g' Hi),
    ?(tally_insert (signalling false) gs i g g' Hi),
    ?(tally_insert (signalling true) gs i g g' Hi),
    ?(tally_insert awake gs i g g' Hi).

Ltac retally_in gs i g g' Hi H :=
  rewrite ?(tally_insert queued gs i g g' Hi),
    ?(tally_insert waking gs i g g' Hi),
    ?(tally_insert adding gs i g g' Hi) in H.

Ltac part_values :=
  cbn [holder queued waking adding signalling awake at_pc awoke goto
       set_waitStartTime set_starving set_awoke set_iter set_old set_new
       set_queueLifo set_delta Bool.eqb Z.b2z] in *.

(** Split the invariant of the configuration after the step into its
    fields, with the tallies expressed over the configuration before. *)
Ltac after_step gs i Hi Hlen :=
  regs;
  match type of Hi with
  | _ = Some ?g =>
      match goal with
      | |- invariant _ (mkConfig (<[_:=?g']> _) _) =>
          let Blen := fresh "Blen" in
          pose proof (waiters_le_length (<[i:=g']> gs)) as Blen;
          rewrite length_insert, Hlen in Blen;
          retally_in gs i g g' Hi Blen;
          constructor; cbn [goroutines mutex state sema]; cbv zeta;
          [ now rewrite length_insert
          | apply Forall_insert; [assumption|]
          | idtac | idtac | idtac | idtac ];
          retally gs i g g' Hi
      end
  end.

Ltac split_hyps :=
  repeat match goal with
  | H : _ /\ _ |- _ => destruct H
  | H : exists _, _ |- _ => destruct H
  end.

Ltac arith :=
  unfold local_ok; regs; autorewrite with pack in *; part_values;
  split_hyps; subst;
  rewrite ?wrap29_small in * by lia;
  cbn [Z.b2z negb andb orb] in *; autorewrite with pack;
  repeat split; try lia; try exact I; auto.

(** Name the parts of a goroutine that left the head of a loop. *)
Ltac name_parts H g' :=
  unfold parts in H;
  injection H as ?Ph ?Pq ?Pw ?Pa ?Pn ?Pt ?Pk.

Lemma invariant_fire (n : nat) (c : config) (i : nat) (r : runtime) :
  Z.of_nat n < 2 ^ 28 -> invariant n c -> invariant n (fire i r c).
Proof.
  intros Hn [Hlen Hloc Hsem Hw Hl Hmode]. unfold fire.
  destruct c as [gs [x sm]]; cbn [goroutines mutex state sema] in *.
  destruct (gs !! i) as [g|] eqn:Hi; [|constructor; assumption].
  pose proof (Forall_lookup_1 _ _ _ _ Hloc Hi) as Hg.
  pose proof (tally_lookup holder (fun g => proj1 (holder_range g)) gs i g Hi) as Bh.
  pose proof (tally_lookup queued (fun g => proj1 (queued_range g)) gs i g Hi) as Bq.
  pose proof (tally_lookup waking (fun g => proj1 (waking_range g)) gs i g Hi) as Bw.
  pose proof (tally_lookup adding (fun g => proj1 (adding_range g)) gs i g Hi) as Ba.
  pose proof (tally_lookup (signalling false)
                (fun g => proj1 (signalling_range false g)) gs i g Hi) as Bn.
  pose proof (tally_lookup (signalling true)
                (fun g => proj1 (signalling_range true g)) gs i g Hi) as Bt.
  pose proof (tally_lookup awake (fun g => proj1 (awake_range g)) gs i g Hi) as Bk.
  pose proof (tally_nonneg holder (fun g => proj1 (holder_range g)) gs) as Nh.
  pose proof (tally_nonneg queued (fun g => proj1 (queued_range g)) gs) as Nq.
  pose proof (tally_nonneg waking (fun g => proj1 (waking_range g)) gs) as Nw.
  pose proof (tally_nonneg adding (fun g => proj1 (adding_range g)) gs) as Na.
  pose proof (tally_nonneg (signalling false)
                (fun g => proj1 (signalling_range false g)) gs) as Nn.
  pose proof (tally_nonneg (signalling true)
                (fun g => proj1 (signalling_range true g)) gs) as Nt.
  pose proof (tally_nonneg awake (fun g => proj1 (awake_range g)) gs) as Nk.
  pose proof (waiters_le_length gs) as Bold. rewrite Hlen in Bold.
  change (2 ^ 28) with 268435456 in Hn.
  cbv zeta in Hmode.
  unpack_word x l k s w. autorewrite with pack in Hw, Hl, Hmode.
  destruct g as [p t st aw it o nw q d].
  unfold local_ok in Hg.
  destruct p; cbn [step at_pc]; cbn [at_pc] in Hg.
  - (* Idle *)
    after_step gs i Hi Hlen; destruct l, k, s; arith.
  - (* Lock_fast *)
    regs. rewrite pack_eqb_0.
    destruct l, k, s; cbn [negb andb];
      try (after_step gs i Hi Hlen; arith; fail).
    destruct (Z.eqb_spec w 0) as [->|Hw0]; [|after_step gs i Hi Hlen; arith].
    change mutexLocked with (pack true false false 0).
    after_step gs i Hi Hlen; arith.
  - (* lockSlow_entry *)
    regs.
    match goal with |- context [lockSlow_top r ?G] =>
      destruct (lockSlow_top_ok r G) as [Hok Hp];
        [discriminate | discriminate |];
        set (g' := lockSlow_top r G) in *; clearbody g'
    end.
    name_parts Hp g'.
    after_step gs i Hi Hlen; destruct l, k, s; arith.
  - (* lockSlow_spinCAS *)
    regs. destruct Hg as (-> & -> & Hol & Hok & Hos).
    destruct (Z.eqb_spec (pack l k s w) o) as [<-|Hne].
    + autorewrite with pack in Hol, Hok, Hos. subst l k s.
      consts. autorewrite with pack.
      after_step gs i Hi Hlen; arith.
    + after_step gs i Hi Hlen; destruct l, k, s; arith.
  - (* lockSlow_spin *)
    regs.
    match goal with |- context [lockSlow_top r ?G] =>
      destruct (lockSlow_top_ok r G) as [Hok Hp];
        [ exact Hg
        | regs; autorewrite with pack; part_values;
          destruct aw, l, k, s; split_hyps; cbn [Z.b2z] in *;
          intros; auto; lia
        | set (g' := lockSlow_top r G) in *; clearbody g' ]
    end.
    name_parts Hp g'.
    after_step gs i Hi Hlen; destruct l, k, s, aw; arith.
  - (* lockSlow_CAS *)
    regs. destruct Hg as [Hc Hst].
    destruct (Z.eqb_spec (pack l k s w) o) as [<-|Hne].
    + rewrite candidate_pack in Hc. consts. rewrite land_pack_5.
      assert (Hk : aw = true -> k = true).
      { intros ->. destruct k; [reflexivity|discriminate]. }
      destruct (aw && negb k); [discriminate|]. injection Hc as <-.
      destruct l, s; cbn [negb andb orb];
        try match goal with
            | |- context [goto lockSlow_park ?X] => generalize X; intros gX
            end;
        after_step gs i Hi Hlen;
        destruct aw, k, st; try (specialize (Hk eq_refl));
        try (specialize (Hst eq_refl)); try discriminate; arith.
    + after_step gs i Hi Hlen; destruct l, k, s, aw; arith.
  - (* lockSlow_park *)
    unfold semacquire. regs.
    destruct (Z.ltb_spec 0 sm);
      after_step gs i Hi Hlen; destruct l, k, s; arith.
  - (* lockSlow_wakeup *)
    regs. unfold lockSlow_after_wakeup. regs. consts.
    rewrite land_pack_4, handoff_inconsistent_pack.
    destruct s; cbn [negb].
    + assert (l = false /\ k = false /\ (w =? 0) = false) as (-> & -> & ->).
      { part_values. split_hyps. destruct l, k; cbn [Z.b2z] in *;
          repeat split; lia. }
      cbn [orb]. rewrite handoff_delta_cases.
      after_step gs i Hi Hlen; arith.
      destruct (_ || _); auto.
    + match goal with |- context [lockSlow_top r ?G] =>
        destruct (lockSlow_top_ok r G) as [Hok Hp];
          [ reflexivity
          | regs; autorewrite with pack; part_values;
            destruct l, k; split_hyps; cbn [Z.b2z] in *; intros; auto; lia
          | set (g' := lockSlow_top r G) in *; clearbody g' ]
      end.
      name_parts Hp g'.
      after_step gs i Hi Hlen; destruct l, k; arith.
  - (* lockSlow_handoff *)
    regs.
    assert (l = false /\ k = false /\ s = true /\ 1 <= w) as (-> & -> & -> & Hw1).
    { part_values. destruct s; split_hyps; [|lia].
      destruct l, k; cbn [Z.b2z] in *; repeat split; try lia; discriminate. }
    unfold Int32.add.
    destruct Hg as [-> | ->]; autorewrite with pack;
      after_step gs i Hi Hlen; arith.
  - (* lockSlow_reread *)
    regs.
    match goal with |- context [lockSlow_top r ?G] =>
      destruct (lockSlow_top_ok r G) as [Hok Hp];
        [ exact Hg
        | regs; autorewrite with pack; part_values;
          destruct aw, l, k, s; split_hyps; cbn [Z.b2z] in *;
          intros; auto; lia
        | set (g' := lockSlow_top r G) in *; clearbody g' ]
    end.
    name_parts Hp g'.
    after_step gs i Hi Hlen; destruct l, k, s, aw; arith.
  - (* Holding *)
    after_step gs i Hi Hlen; destruct l, k, s; arith.
  - (* Unlock_add *)
    regs.
    assert (l = true) as ->
      by (part_values; destruct l; cbn [Z.b2z] in *; [reflexivity | lia]).
    assert (Hwn : w < 268435456) by (destruct s; split_hyps; lia).
    unfold Int32.add. consts. autorewrite with pack.
    rewrite (wrap29_small w) by lia.
    destruct (negb false && negb k && negb s && (w =? 0)) eqn:Hz.
    + after_step gs i Hi Hlen; destruct k, s; try discriminate; arith.
    + erewrite unlockSlow_pack by reflexivity. cbv iota.
      destruct s.
      * after_step gs i Hi Hlen; destruct k; arith.
      * match goal with |- context [unlockSlow_top ?G] =>
          destruct (unlockSlow_top_ok G) as [Hok Hp];
            set (g' := unlockSlow_top G) in *; clearbody g'
        end.
        name_parts Hp g'.
        after_step gs i Hi Hlen; destruct k; arith.
  - (* unlockSlow_CAS *)
    regs. destruct Hg as (Hol & Hok & Hos & How & ->).
    destruct (Z.eqb_spec (pack l k s w) o) as [<-|Hne].
    + autorewrite with pack in Hol, Hok, Hos, How. subst l k s.
      unfold Int32.sub. consts. autorewrite with pack.
      after_step gs i Hi Hlen; arith.
    + after_step gs i Hi Hlen; destruct l, k, s; arith.
  - (* unlockSlow_wake *)
    destruct handoff; after_step gs i Hi Hlen; destruct l, k, s; arith.
  - (* unlockSlow_reread *)
    regs.
    match goal with |- context [unlockSlow_top ?G] =>
      destruct (unlockSlow_top_ok G) as [Hok Hp];
        set (g' := unlockSlow_top G) in *; clearbody g'
    end.
    name_parts Hp g'.
    after_step gs i Hi Hlen; destruct l, k, s; arith.
  - (* Thrown *)
    destruct Hg.
Qed.

(** Handing the mutex over to an idle goroutine keeps the invariant. *)
Lemma invariant_hand_over (n : nat) (c : config) (i j : nat) :
  invariant n c -> invariant n (hand_over i j c).
Proof.
  intros Hinv. unfold hand_over.
  destruct (goroutines c !! i) as [gi|] eqn:Hi; [|exact Hinv].
  destruct (goroutines c !! j) as [gj|] eqn:Hj; [|exact Hinv].
  destruct (at_pc gi) eqn:Pi; try exact Hinv.
  destruct (at_pc gj) eqn:Pj; try exact Hinv.
  assert (Hne : i <> j) by (intros ->; congruence).
  assert (Hj' : <[i:=goto Idle gi]> (goroutines c) !! j = Some gj)
    by (rewrite list_lookup_insert_ne; assumption).
  destruct Hinv as [Hlen Hloc Hsem Hw Hl Hmode].
  destruct c as [gs m]; cbn [goroutines mutex] in *.
  assert (Hparts : forall f,
             f gi = f (goto Holding gj) -> f gj = f (goto Idle gi) ->
             tally f (<[j:=goto Holding gj]> (<[i:=goto Idle gi]> gs))
             = tally f gs).
  { intros f E1 E2.
    rewrite (tally_insert f _ j gj _ Hj'), (tally_insert f gs i gi _ Hi). lia. }
  constructor; cbn [goroutines mutex]; cbv zeta.
  - now rewrite !length_insert.
  - apply Forall_insert; [apply Forall_insert; [assumption|]|];
      unfold local_ok; cbn; exact I.
  - exact Hsem.
  - exact Hw.
  - rewrite Hparts; [exact Hl| |]; unfold holder; cbn; rewrite ?Pi, ?Pj;
      reflexivity.
  - cbv zeta in Hmode.
    rewrite !Hparts; [exact Hmode|..];
      unfold holder, queued, waking, adding, signalling, awake; cbn;
      rewrite ?Pi, ?Pj; reflexivity.
Qed.


(** ** Goroutines sharing the mutex: safety *)

Lemma reachable_invariant (n : nat) (c : config) :
  Z.of_nat n < 2 ^ 28 -> reachable n c -> invariant n c.
Proof.
  intros Hn Hr. induction Hr as [|c i r Hr IH|c i j Hr IH].
  - apply invariant_init.
  - apply invariant_fire; assumption.
  - apply invariant_hand_over; assumption.
Qed.

Lemma reachable_run (n : nat) (sched : list (nat * runtime)) :
  forall c, reachable n c -> reachable n (run sched c).
Proof.
  induction sched as [|[i r] sched IH]; intros c Hc; [exact Hc|].
  cbn [run]. apply IH. constructor. exact Hc.
Qed.

(** A goroutine inside [Lock] stays inside [Lock] until it holds the
    mutex, unless it throws. *)
Lemma step_acquiring (r : runtime) (g : goroutine) (m : Mutex) :
  acquiring (at_pc g) = true ->
  let g' := (step r g m).1.2 in
  acquiring (at_pc g') = true \/ at_pc g' = Holding
  \/ at_pc g' = Thrown inconsistent.
Proof.
  assert (Htop : forall g, acquiring (at_pc (lockSlow_top r g)) = true
                           \/ at_pc (lockSlow_top r g) = Thrown inconsistent).
  { intros g0. unfold lockSlow_top.
    destruct (_ && runtime_canSpin _ _).
    - destruct (_ && _); cbn; auto.
    - unfold candidate. destruct (awoke g0); [|cbn; auto].
      destruct (_ =? 0); cbn; auto. }
  destruct g as [p t st aw it o nw q d]. cbn [at_pc].
  destruct p; try discriminate; intros _; cbn [step at_pc]; regs.
  - destruct (state m =? 0); cbn; auto.
  - destruct (Htop (set_old (state m) (set_iter 0 (set_awoke false
       (set_starving false (set_waitStartTime 0
          (mkG lockSlow_entry t st aw it o nw q d))))))); auto.
  - destruct (state m =? o); cbn; auto.
  - destruct (Htop (set_old (state m) (set_iter (it + 1)
       (mkG lockSlow_spin t st aw it o nw q d)))); auto.
  - destruct (state m =? o); [|cbn; auto].
    destruct (_ =? 0); [cbn; auto|].
    destruct (t =? 0); cbn; auto.
  - destruct (semacquire m); cbn; auto.
  - unfold lockSlow_after_wakeup. regs.
    destruct (negb _); [destruct (handoff_inconsistent _); cbn; auto|].
    match goal with |- context [lockSlow_top r ?G] => destruct (Htop G) end;
      auto.
  - cbn; auto.
  - destruct (Htop (set_old (state m)
       (mkG lockSlow_reread t st aw it o nw q d))); auto.
Qed.

(** C1: among any number of goroutines (fewer than 2^28, so that the
    waiter count fits its field) that call [Lock] and then [Unlock], or
    leave it to another goroutine to unlock, in every configuration that
    the scheduler and the runtime can reach, at most one goroutine holds
    the mutex, and then the locked bit is set; no goroutine has thrown;
    and a goroutine inside [Lock] leaves it only by holding the mutex. *)
Theorem mutual_exclusion (n : nat) (c : config) :
  Z.of_nat n < 2 ^ 28 ->
  reachable n c ->
  (forall i j gi gj,
      goroutines c !! i = Some gi -> goroutines c !! j = Some gj ->
      at_pc gi = Holding -> at_pc gj = Holding -> i = j)
  /\ (forall i g, goroutines c !! i = Some g -> at_pc g = Holding ->
                  locked (state (mutex c)) = true)
  /\ (forall i g msg, goroutines c !! i = Some g -> at_pc g <> Thrown msg)
  /\ (forall i r g,
         goroutines c !! i = Some g -> acquiring (at_pc g) = true ->
         let g' := (step r g (mutex c)).1.2 in
         goroutines (fire i r c) !! i = Some g'
         /\ (acquiring (at_pc g') = true \/ at_pc g' = Holding)).
Proof.
  intros Hn Hr. pose proof (reachable_invariant n c Hn Hr) as Hinv.
  destruct Hinv as [Hlen Hloc Hsem Hw Hl Hmode].
  assert (Hh : tally holder (goroutines c) <= 1).
  { rewrite <- Hl. destruct (locked _); cbn; lia. }
  split; [|split; [|split]].
  - intros i j gi gj Hi Hj Pi Pj.
    apply (tally_unique holder (fun g => proj1 (holder_range g))
             (goroutines c) i j gi gj Hh Hi Hj);
      unfold holder; [rewrite Pi | rewrite Pj]; reflexivity.
  - intros i g Hi Pi.
    pose proof (tally_lookup holder (fun g => proj1 (holder_range g))
                  (goroutines c) i g Hi) as B.
    unfold holder at 1 in B. rewrite Pi in B.
    destruct (locked _); [reflexivity|]. cbn in Hl. lia.
  - intros i g msg Hi Pi.
    pose proof (Forall_lookup_1 _ _ _ _ Hloc Hi) as Hg.
    unfold local_ok in Hg. rewrite Pi in Hg. exact Hg.
  - intros i r g Hi Hacq. cbv zeta.
    pose proof (reachable_invariant n (fire i r c) Hn
                  (reachable_fire n c i r Hr)) as Hinv'.
    pose proof (inv_local _ _ Hinv') as Hloc'.
    unfold fire in Hloc' |- *. rewrite Hi in Hloc' |- *.
    pose proof (step_acquiring r g (mutex c) Hacq) as Hs. cbv zeta in Hs.
    destruct (step r g (mutex c)) as [[e g'] m']. cbn [fst snd] in *.
    cbn [goroutines] in *.
    assert (Hlt : (i < length (goroutines c))%nat)
      by (eapply lookup_lt_Some; eauto).
    split; [apply list_lookup_insert_eq; exact Hlt|].
    destruct Hs as [Hs|[Hs|Hs]]; auto.
    exfalso.
    pose proof (Forall_lookup_1 _ _ i g' Hloc'
                  (list_lookup_insert_eq _ _ _ Hlt)) as Hg'.
    unfold local_ok in Hg'. rewrite Hs in Hg'. exact Hg'.
Qed.

(** Two goroutines: the first holds the mutex, the second has queued
    behind it and is parked. *)
Lemma mutual_exclusion_witness :
  let r := mkRuntime (fun _ => false) 0 in
  let c := run [(0%nat, r); (0%nat, r); (1%nat, r); (1%nat, r); (1%nat, r);
                (1%nat, r)] (init 2) in
  state (mutex c) = 9
  /\ (forall i j gi gj,
         goroutines c !! i = Some gi -> goroutines c !! j = Some gj ->
         at_pc gi = Holding -> at_pc gj = Holding -> i = j)
  /\ (forall i g msg, goroutines c !! i = Some g -> at_pc g <> Thrown msg).
Proof.
  cbv zeta. split; [reflexivity|].
  pose proof (mutual_exclusion 2
                (run [(0%nat, mkRuntime (fun _ => false) 0);
                      (0%nat, mkRuntime (fun _ => false) 0);
                      (1%nat, mkRuntime (fun _ => false) 0);
                      (1%nat, mkRuntime (fun _ => false) 0);
                      (1%nat, mkRuntime (fun _ => false) 0);
                      (1%nat, mkRuntime (fun _ => false) 0)] (init 2))
                ltac:(reflexivity)
                (reachable_run 2 _ _ (reachable_init 2))) as H.
  split; [exact (proj1 H) | exact (proj1 (proj2 (proj2 H)))].
Defined.

(** How one step changes the waiter count. *)
Lemma fire_waiterCount (n : nat) (c : config) (i : nat) (r : runtime)
    (g : goroutine) :
  Z.of_nat n < 2 ^ 28 -> invariant n c ->
  goroutines c !! i = Some g ->
  let w := waiterCount (state (mutex c)) in
  let w' := waiterCount (state (mutex (fire i r c))) in
  match at_pc g with
  | unlockSlow_CAS =>
      if state (mutex c) =? old g then 1 <= w /\ w' = w - 1 else w' = w
  | lockSlow_handoff => 1 <= w /\ w' = w - 1
  | lockSlow_CAS => w' = w \/ w' = w + 1
  | _ => w' = w
  end.
Proof.
  intros Hn [Hlen Hloc Hsem Hw Hl Hmode] Hi. unfold fire. rewrite Hi.
  destruct c as [gs [x sm]]; cbn [goroutines mutex state sema] in *.
  pose proof (Forall_lookup_1 _ _ _ _ Hloc Hi) as Hg.
  pose proof (tally_lookup holder (fun g => proj1 (holder_range g)) gs i g Hi) as Bh.
  pose proof (tally_lookup adding (fun g => proj1 (adding_range g)) gs i g Hi) as Ba.
  pose proof (tally_nonneg holder (fun g => proj1 (holder_range g)) gs) as Nh.
  pose proof (tally_nonneg queued (fun g => proj1 (queued_range g)) gs) as Nq.
  pose proof (tally_nonneg waking (fun g => proj1 (waking_range g)) gs) as Nw.
  pose proof (tally_nonneg adding (fun g => proj1 (adding_range g)) gs) as Na.
  pose proof (tally_nonneg (signalling false)
                (fun g => proj1 (signalling_range false g)) gs) as Nn.
  pose proof (tally_nonneg (signalling true)
                (fun g => proj1 (signalling_range true g)) gs) as Nt.
  pose proof (waiters_le_length gs) as Bold. rewrite Hlen in Bold.
  change (2 ^ 28) with 268435456 in Hn.
  cbv zeta in Hmode |- *.
  unpack_word x l k s w. autorewrite with pack in Hw, Hl, Hmode.
  destruct g as [p t st aw it o nw q d].
  unfold local_ok in Hg.
  destruct p; cbn [step at_pc]; cbn [at_pc] in Hg; regs;
    try (cbn [mutex]; regs; autorewrite with pack; reflexivity).
  - (* Lock_fast *)
    rewrite pack_eqb_0.
    destruct (_ && (w =? 0)) eqn:Hz; cbn [mutex]; regs;
      autorewrite with pack; [|reflexivity].
    change mutexLocked with (pack true false false 0).
    autorewrite with pack. lia.
  - (* lockSlow_spinCAS *)
    destruct (Z.eqb_spec (pack l k s w) o) as [<-|Hne]; cbn [mutex]; regs;
      consts; autorewrite with pack; reflexivity.
  - (* lockSlow_CAS *)
    destruct Hg as [Hc Hst].
    destruct (Z.eqb_spec (pack l k s w) o) as [<-|Hne];
      [|cbn [mutex]; regs; autorewrite with pack; auto].
    rewrite candidate_pack in Hc.
    destruct (aw && negb k); [discriminate|]. injection Hc as <-.
    consts. rewrite land_pack_5.
    assert (Hq : tally queued gs + tally waking gs + tally adding gs
                 < Z.of_nat n).
    { pose proof (waiters_le_length
                    (<[i:=mkG lockSlow_park t st aw it (pack l k s w)
                            (pack l k s w) q d]> gs)) as B.
      rewrite length_insert, Hlen in B.
      rewrite !(tally_insert _ gs i _ _ Hi) in B.
      cbn [queued waking adding at_pc] in B. lia. }
    destruct l, s; split_hyps; cbn [negb andb orb mutex]; regs;
      autorewrite with pack; rewrite ?wrap29_small by lia; auto.
  - (* lockSlow_park *)
    unfold semacquire. regs. destruct (0 <? sm); cbn [mutex]; regs;
      autorewrite with pack; reflexivity.
  - (* lockSlow_handoff *)
    assert (l = false /\ k = false /\ s = true /\ 1 <= w) as (-> & -> & -> & Hw1).
    { part_values. destruct s; split_hyps; [|lia].
      destruct l, k; cbn [Z.b2z] in *; repeat split; try lia; discriminate. }
    unfold Int32.add. cbn [mutex]. regs.
    destruct Hg as [-> | ->]; autorewrite with pack;
      rewrite wrap29_small by lia; lia.
  - (* Unlock_add *)
    assert (l = true) as ->
      by (part_values; destruct l; cbn [Z.b2z] in *; [reflexivity | lia]).
    unfold Int32.add. consts. cbn [mutex]. regs. autorewrite with pack.
    apply wrap29_small. destruct s; split_hyps; lia.
  - (* unlockSlow_CAS *)
    destruct Hg as (Hol & Hok & Hos & How & ->).
    destruct (Z.eqb_spec (pack l k s w) o) as [<-|Hne]; cbn [mutex]; regs;
      autorewrite with pack; [|reflexivity].
    autorewrite with pack in Hol, Hok, Hos, How. subst l k s.
    unfold Int32.sub. consts. autorewrite with pack.
    rewrite wrap29_small by lia. lia.
Qed.

(** The state word of a reachable configuration is a non-negative
    [int32]: the arithmetic of [Lock] and [Unlock] never wraps around. *)
Lemma reachable_state_range (n : nat) (c : config) :
  Z.of_nat n < 2 ^ 28 -> reachable n c ->
  0 <= state (mutex c) < 2 ^ 31
  /\ waiterCount (state (mutex c)) <= Z.of_nat n.
Proof.
  intros Hn Hr.
  destruct (reachable_invariant n c Hn Hr) as [Hlen Hloc Hsem Hw Hl Hmode].
  pose proof (waiters_le_length (goroutines c)) as B. rewrite Hlen in B.
  pose proof (tally_nonneg queued (fun g => proj1 (queued_range g))
                (goroutines c)).
  pose proof (tally_nonneg waking (fun g => proj1 (waking_range g))
                (goroutines c)).
  pose proof (tally_nonneg adding (fun g => proj1 (adding_range g))
                (goroutines c)).
  pose proof (tally_nonneg (signalling false)
                (fun g => proj1 (signalling_range false g)) (goroutines c)).
  cbv zeta in Hmode. change (2 ^ 28) with 268435456 in Hn.
  change (2 ^ 31) with 2147483648.
  destruct c as [gs [x sm]]; cbn [goroutines mutex state sema] in *.
  unpack_word x l k s w. autorewrite with pack in *.
  assert (w <= Z.of_nat n) by (destruct s; split_hyps; lia).
  split; [|assumption].
  unfold pack. destruct l, k, s; cbn [Z.b2z]; lia.
Qed.

(** C8: in every reachable configuration of fewer than 2^28 goroutines
    the waiter count is not negative (and the state word is a
    non-negative [int32]); the compare-and-swap of [unlockSlow] that
    succeeds and the atomic add of the hand-off are taken with a waiter
    count of at least one, which they decrement by one; and no other step
    decrements the waiter count. *)
Theorem waiterCount_no_underflow
    (n : nat) (c : config) (i : nat) (r : runtime) :
  Z.of_nat n < 2 ^ 28 ->
  reachable n c ->
  let w := waiterCount (state (mutex c)) in
  let w' := waiterCount (state (mutex (fire i r c))) in
  0 <= w /\ 0 <= w'
  /\ 0 <= state (mutex c) < 2 ^ 31
  /\ (forall g, goroutines c !! i = Some g ->
                at_pc g = unlockSlow_CAS -> state (mutex c) = old g ->
                1 <= w /\ w' = w - 1)
  /\ (forall g, goroutines c !! i = Some g ->
                at_pc g = lockSlow_handoff -> 1 <= w /\ w' = w - 1)
  /\ (w' < w ->
      exists g, goroutines c !! i = Some g
                /\ (at_pc g = unlockSlow_CAS \/ at_pc g = lockSlow_handoff)).
Proof.
  intros Hn Hr. cbv zeta.
  pose proof (reachable_invariant n c Hn Hr) as Hinv.
  pose proof (reachable_invariant n (fire i r c) Hn
                (reachable_fire n c i r Hr)) as Hinv'.
  split; [apply (inv_waiters _ _ Hinv)|].
  split; [apply (inv_waiters _ _ Hinv')|].
  split; [apply (reachable_state_range n c Hn Hr)|].
  split; [|split].
  - intros g Hi Hpc Heq.
    pose proof (fire_waiterCount n c i r g Hn Hinv Hi) as H.
    cbv zeta in H. rewrite Hpc in H.
    destruct (Z.eqb_spec (state (mutex c)) (old g)); [exact H|contradiction].
  - intros g Hi Hpc.
    pose proof (fire_waiterCount n c i r g Hn Hinv Hi) as H.
    cbv zeta in H. rewrite Hpc in H. exact H.
  - intros Hlt.
    destruct (goroutines c !! i) as [g|] eqn:Hi.
    + exists g. split; [reflexivity|].
      pose proof (fire_waiterCount n c i r g Hn Hinv Hi) as H.
      cbv zeta in H.
      destruct (at_pc g); auto; try lia.
    + unfold fire in Hlt. rewrite Hi in Hlt. lia.
Qed.

(** A waiter is parked and the holder has subtracted the locked bit: the
    compare-and-swap of [unlockSlow] takes the waiter count from one to
    zero. *)
Lemma waiterCount_no_underflow_witness :
  let r := mkRuntime (fun _ => false) 0 in
  let c := run [(0%nat, r); (0%nat, r); (1%nat, r); (1%nat, r); (1%nat, r);
                (1%nat, r); (0%nat, r); (0%nat, r)] (init 2) in
  state (mutex c) = 8
  /\ waiterCount (state (mutex c)) = 1
  /\ waiterCount (state (mutex (fire 0 r c))) = 0.
Proof.
  cbv zeta. split; [reflexivity|].
  pose proof (waiterCount_no_underflow 2
                (run [(0%nat, mkRuntime (fun _ => false) 0);
                      (0%nat, mkRuntime (fun _ => false) 0);
                      (1%nat, mkRuntime (fun _ => false) 0);
                      (1%nat, mkRuntime (fun _ => false) 0);
                      (1%nat, mkRuntime (fun _ => false) 0);
                      (1%nat, mkRuntime (fun _ => false) 0);
                      (0%nat, mkRuntime (fun _ => false) 0);
                      (0%nat, mkRuntime (fun _ => false) 0)] (init 2))
                0%nat (mkRuntime (fun _ => false) 0)
                ltac:(reflexivity)
                (reachable_run 2 _ _ (reachable_init 2))) as H.
  cbv zeta in H. destruct H as (_ & _ & _ & H & _).
  specialize (H _ eq_refl eq_refl eq_refl). destruct H as [_ H].
  split; [reflexivity|]. rewrite H. reflexivity.
Defined.


(** ** The concurrent map *)

Section MapFacts.
Import SyncMap.
Context {K : Type} `{Countable K} {V : Type}.
Implicit Types (m : Map K V) (k : K) (v : V) (e : entry) (s : slot V).







Lemma amended_miss_or m : amended (miss m) = amended m \/ amended (miss m) = false.
Proof. unfold miss. destruct (_ <? _)%nat; cbn; auto. Qed.













End MapFacts.


(** ** sync.Map as implemented: the finite map it stands for *)

Section GoMapFacts.
Import GoMap.
Context {K : Type} `{Countable K} {V : Type}.
Implicit Types (s : Map K V) (h : host K) (k key : K) (e : entry)
  (p : pointer V) (d : gmap K entry).

Ltac mred :=
  cbn -[missLocked dirtyLocked mu_Lock mu_Unlock Nat.ltb store_new
        entry_load entry_delete entry_tryStore entry_tryLoadOrStore
        entry_unexpungeLocked entry_storeLocked range_loop for_range
        contents pointer_at].

Lemma mu_Lock_free h s :
  (0 < host_fuel h)%nat -> mu s = mkMutex 0 0 ->
  mu_Lock h s = Returns (tt, set_mu (mkMutex 1 0) s).
Proof.
  intros Hf Hmu. unfold mu_Lock. rewrite Hmu.
  destruct (host_fuel h) as [|f]; [lia|]. reflexivity.
Qed.

Lemma mu_Unlock_held h s :
  (0 < host_fuel h)%nat -> mu s = mkMutex 1 0 ->
  mu_Unlock h s = Returns (tt, set_mu (mkMutex 0 0) s).
Proof.
  intros Hf Hmu. unfold mu_Unlock. rewrite Hmu.
  destruct (host_fuel h) as [|f]; [lia|]. reflexivity.
Qed.

(** The methods of [entry], run. *)
Lemma entry_load_run s e :
  entry_load e s = Returns (value_of (pointer_at s e), s).
Proof.
  unfold entry_load, bind, LoadPointer, gets, ret. fold (pointer_at s e).
  destruct (pointer_at s e); reflexivity.
Qed.

Lemma entry_tryStore_run s e v :
  entry_tryStore e v s
  = if is_expunged (pointer_at s e) then Returns (false, s)
    else Returns (true, set_heap (<[e := value_ptr v]> (heap s)) s).
Proof.
  unfold entry_tryStore, bind, LoadPointer, gets, ret. fold (pointer_at s e).
  destruct (pointer_at s e); reflexivity.
Qed.

Lemma entry_unexpungeLocked_run s e :
  entry_unexpungeLocked e s
  = if is_expunged (pointer_at s e)
    then Returns (true, set_heap (<[e := nil_ptr]> (heap s)) s)
    else Returns (false, s).
Proof.
  unfold entry_unexpungeLocked, bind, LoadPointer, gets, ret.
  fold (pointer_at s e). destruct (pointer_at s e); reflexivity.
Qed.

Lemma entry_storeLocked_run s e v :
  entry_storeLocked e v s
  = Returns (tt, set_heap (<[e := value_ptr v]> (heap s)) s).
Proof. reflexivity. Qed.

Lemma entry_tryLoadOrStore_run s e v :
  entry_tryLoadOrStore e v s
  = match pointer_at s e with
    | expunged => Returns ((None, false, false), s)
    | value_ptr x => Returns ((Some x, true, true), s)
    | nil_ptr =>
        Returns ((Some v, false, true),
                 set_heap (<[e := value_ptr v]> (heap s)) s)
    end.
Proof.
  unfold entry_tryLoadOrStore, bind, LoadPointer, gets, ret.
  fold (pointer_at s e). destruct (pointer_at s e); reflexivity.
Qed.

Lemma entry_delete_run s e :
  entry_delete e s
  = Returns (value_of (pointer_at s e),
             if is_value (pointer_at s e)
             then set_heap (<[e := nil_ptr]> (heap s)) s else s).
Proof.
  unfold entry_delete, bind, LoadPointer, gets, ret. fold (pointer_at s e).
  destruct (pointer_at s e); reflexivity.
Qed.

(** The value of a key is that of its entry. *)
Lemma contents_lookup s k :
  contents s !! k = entry_of s k ≫= fun e => value_of (pointer_at s e).
Proof.
  unfold contents, entry_of. rewrite lookup_omap, lookup_union.
  destruct (m (read s) !! k) as [e|] eqn:Hr; cbn.
  - destruct ((if amended (read s) then default ∅ (dirty s) else ∅) !! k);
      reflexivity.
  - destruct (amended (read s)); cbn.
    + destruct (dirty s) as [d|]; cbn.
      * destruct (d !! k); reflexivity.
      * rewrite lookup_empty. reflexivity.
    + rewrite lookup_empty. reflexivity.
Qed.

Lemma entry_of_bound s k e : entry_of s k = Some e -> bound s k e.
Proof.
  unfold entry_of, bound. destruct (m (read s) !! k) as [e'|]; [intros [= ->]; auto|].
  destruct (amended (read s)); [|discriminate].
  destruct (dirty s) as [d|]; cbn; [|discriminate]. eauto.
Qed.

(** With coherent maps, the entry of a key is the one either map binds
    it to, unless that one is expunged. *)
Lemma bound_entry_of s k e :
  coherent s -> bound s k e -> is_expunged (pointer_at s e) = false ->
  entry_of s k = Some e.
Proof.
  intros Hc [Hr|(d & Hd & Hk)] Hp; unfold entry_of.
  - rewrite Hr. reflexivity.
  - destruct (m (read s) !! k) as [e'|] eqn:Hr.
    + f_equal. destruct (is_expunged (pointer_at s e')) eqn:Hp'.
      * destruct (co_expunged s Hc k e' Hr Hp') as (d' & Hd' & Hk').
        congruence.
      * pose proof (co_shared s Hc d k e' Hd Hr Hp'). congruence.
    + rewrite (co_amended s Hc), Hd. cbn. exact Hk.
Qed.

Lemma coherent_set_mu s v : coherent s -> coherent (set_mu v s).
Proof. intros [? ? ? ? ? ?]. split; assumption. Qed.

Lemma coherent_set_misses s v : coherent s -> coherent (set_misses v s).
Proof. intros [? ? ? ? ? ?]. split; assumption. Qed.

Lemma contents_set_mu s v : contents (set_mu v s) = contents s.
Proof. reflexivity. Qed.

Lemma contents_set_misses s v : contents (set_misses v s) = contents s.
Proof. reflexivity. Qed.

Lemma pointer_at_set_heap s e p e' :
  pointer_at (set_heap (<[e := p]> (heap s)) s) e'
  = if decide (e = e') then p else pointer_at s e'.
Proof.
  unfold pointer_at; cbn. rewrite lookup_insert.
  destruct (decide (e = e')); reflexivity.
Qed.

(** *** Writing the pointer of an entry *)

(** A pointer other than [expunged] written to an entry that is not
    expunged keeps the maps coherent. *)
Lemma coherent_write s e p :
  coherent s -> is_expunged (pointer_at s e) = false -> is_expunged p = false ->
  is_Some (heap s !! e) ->
  coherent (set_heap (<[e := p]> (heap s)) s).
Proof.
  intros Hc He Hp Ha. split; cbn [read dirty set_heap heap amended m].
  - apply (co_amended s Hc).
  - intros d k e' Hd Hk. rewrite pointer_at_set_heap.
    destruct (decide (e = e')); [exact Hp|]. eapply co_dirty; eauto.
  - intros k e' Hr. rewrite pointer_at_set_heap.
    destruct (decide (e = e')); [congruence|]. apply (co_expunged s Hc).
    exact Hr.
  - intros d k e' Hd Hr. rewrite pointer_at_set_heap.
    destruct (decide (e = e')) as [<-|]; intros Hx.
    + eapply co_shared; eauto.
    + eapply co_shared; eauto.
  - intros k e' Hb. rewrite lookup_insert.
    destruct (decide (e = e')); [eauto|]. apply (co_allocated s Hc k). exact Hb.
  - intros k1 k2 e' H1 H2. apply (co_injective s Hc k1 k2 e'); assumption.
Qed.

Lemma entry_of_set_heap s hp k :
  entry_of (set_heap hp s) k = entry_of s k.
Proof. reflexivity. Qed.

(** Writing the pointer of the entry of a key changes the value of that
    key and of no other. *)
Lemma contents_write s key e p :
  coherent s -> entry_of s key = Some e ->
  contents (set_heap (<[e := p]> (heap s)) s)
  = match value_of p with
    | Some v => <[key := v]> (contents s)
    | None => delete key (contents s)
    end.
Proof.
  intros Hc He. apply map_eq. intros k.
  rewrite contents_lookup, entry_of_set_heap.
  destruct (decide (key = k)) as [<-|Hne].
  - rewrite He. cbn. rewrite pointer_at_set_heap, decide_True by reflexivity.
    destruct (value_of p); [rewrite lookup_insert_eq|rewrite lookup_delete_eq];
      reflexivity.
  - transitivity (contents s !! k).
    + rewrite contents_lookup. destruct (entry_of s k) as [e'|] eqn:Hk; [|reflexivity].
      cbn. rewrite pointer_at_set_heap.
      destruct (decide (e = e')) as [<-|]; [|reflexivity].
      exfalso. apply Hne.
      apply (co_injective s Hc key k e); apply entry_of_bound; assumption.
    + destruct (value_of p);
        [rewrite lookup_insert_ne|rewrite lookup_delete_ne]; auto.
Qed.

(** Writing the pointer of an entry that no key is bound to changes
    nothing. *)
Lemma coherent_write_unbound s e p :
  coherent s -> (forall k, ~ bound s k e) ->
  coherent (set_heap (<[e := p]> (heap s)) s).
Proof.
  intros Hc Hu.
  assert (Hp : forall k e', bound s k e' ->
             pointer_at (set_heap (<[e := p]> (heap s)) s) e' = pointer_at s e').
  { intros k e' Hb. rewrite pointer_at_set_heap.
    destruct (decide (e = e')) as [<-|]; [|reflexivity]. destruct (Hu k Hb). }
  split; cbn [read dirty set_heap heap amended m].
  - apply (co_amended s Hc).
  - intros d k e' Hd Hk. rewrite (Hp k) by (right; eauto).
    eapply co_dirty; eauto.
  - intros k e' Hr. rewrite (Hp k) by (left; auto). apply (co_expunged s Hc).
    exact Hr.
  - intros d k e' Hd Hr. rewrite (Hp k) by (left; auto).
    eapply co_shared; eauto.
  - intros k e' Hb. rewrite lookup_insert.
    destruct (decide (e = e')); [eauto|]. apply (co_allocated s Hc k). exact Hb.
  - intros k1 k2 e' H1 H2. apply (co_injective s Hc k1 k2 e'); assumption.
Qed.

Lemma contents_write_unbound s e p :
  (forall k, ~ bound s k e) ->
  contents (set_heap (<[e := p]> (heap s)) s) = contents s.
Proof.
  intros Hu. apply map_eq. intros k.
  rewrite !contents_lookup, entry_of_set_heap.
  destruct (entry_of s k) as [e'|] eqn:Hk; [|reflexivity]. cbn.
  rewrite pointer_at_set_heap.
  destruct (decide (e = e')) as [<-|]; [|reflexivity].
  destruct (Hu k (entry_of_bound s k e Hk)).
Qed.

(** *** Binding a key in [dirty] *)

Lemma bound_set_heap s hp k e : bound (set_heap hp s) k e <-> bound s k e.
Proof. reflexivity. Qed.

Lemma bound_insert_dirty s d key e k e' :
  dirty s = Some d ->
  bound (set_dirty (Some (<[key := e]> d)) s) k e' ->
  bound s k e' \/ (k = key /\ e' = e).
Proof.
  intros Hd [Hr|(d' & Hd' & Hk)]; [left; left; exact Hr|].
  cbn in Hd'. injection Hd' as <-. rewrite lookup_insert in Hk.
  destruct (decide (key = k)) as [<-|].
  - right. split; congruence.
  - left. right. eauto.
Qed.

(** Lines 142-149 and 207-209: an expunged entry of [read.m] is cleared
    and put back into [dirty]. *)
Lemma unexpunge_spec s key e d :
  coherent s -> m (read s) !! key = Some e ->
  is_expunged (pointer_at s e) = true -> dirty s = Some d ->
  let s0 := set_dirty (Some (<[key := e]> d))
              (set_heap (<[e := nil_ptr]> (heap s)) s) in
  coherent s0 /\ contents s0 = contents s /\ entry_of s0 key = Some e
  /\ pointer_at s0 e = nil_ptr /\ is_Some (heap s0 !! e)
  /\ (len (dirty s) <= len (dirty s0))%nat.
Proof.
  intros Hc Hr Hp Hd s0.
  destruct (co_expunged s Hc key e Hr Hp) as (d' & Hd' & Hk).
  assert (d' = d) by congruence. subst d'. clear Hd'.
  assert (Hpt : forall e', pointer_at s0 e'
                           = if decide (e = e') then nil_ptr else pointer_at s e').
  { intros e'. apply (pointer_at_set_heap s e nil_ptr e'). }
  assert (Hb : forall k e', bound s0 k e' -> bound s k e').
  { intros k e' Hb. apply (bound_insert_dirty _ d) in Hb; [|exact Hd].
    destruct Hb as [Hb|[-> ->]]; [exact Hb|left; exact Hr]. }
  assert (Hne : forall k e', m (read s) !! k = Some e' -> k <> key -> e <> e').
  { intros k e' Hk' Hkk <-. apply Hkk.
    apply (co_injective s Hc k key e); left; assumption. }
  split; [split|].
  - cbn. rewrite (co_amended s Hc), Hd. reflexivity.
  - intros d0 k e' Hd0 Hk'. cbn in Hd0. injection Hd0 as <-.
    rewrite Hpt. destruct (decide (e = e')); [reflexivity|].
    rewrite lookup_insert in Hk'. destruct (decide (key = k)); [congruence|].
    apply (co_dirty s Hc d k e' Hd Hk').
  - intros k e' Hk' Hp'. change (m (read s0)) with (m (read s)) in Hk'.
    rewrite Hpt in Hp'. destruct (decide (e = e')); [discriminate|].
    destruct (co_expunged s Hc k e' Hk' Hp') as (d' & Hd' & Hkd).
    assert (d' = d) by congruence. subst d'.
    exists (<[key := e]> d). split; [reflexivity|].
    rewrite lookup_insert_ne; [exact Hkd|]. intros <-. congruence.
  - intros d0 k e' Hd0 Hk' Hp'. cbn in Hd0. injection Hd0 as <-.
    change (m (read s0)) with (m (read s)) in Hk'.
    destruct (decide (key = k)) as [<-|Hkk].
    + rewrite lookup_insert_eq. congruence.
    + rewrite lookup_insert_ne by exact Hkk.
      rewrite Hpt in Hp'. rewrite decide_False in Hp' by (apply (Hne k); auto).
      apply (co_shared s Hc d k e' Hd Hk' Hp').
  - intros k e' Hb'. apply Hb in Hb'. cbn. rewrite lookup_insert.
    destruct (decide (e = e')); [eauto|]. apply (co_allocated s Hc k e' Hb').
  - intros k1 k2 e' H1 H2. apply (co_injective s Hc k1 k2 e'); apply Hb; assumption.
  - split; [|split; [|split; [|split]]].
    + apply map_eq. intros k. rewrite !contents_lookup. unfold entry_of.
      change (m (read s0)) with (m (read s)).
      change (amended (read s0)) with (amended (read s)).
      destruct (m (read s) !! k) as [e'|] eqn:Hk'.
      * cbn. rewrite Hpt. destruct (decide (e = e')) as [<-|]; [|reflexivity].
        cbn. destruct (pointer_at s e); try discriminate. reflexivity.
      * destruct (amended (read s)); [|reflexivity]. cbn. rewrite Hd. cbn.
        assert (key <> k) by congruence.
        rewrite lookup_insert_ne by assumption.
        destruct (d !! k) as [e'|] eqn:Hkd; [|reflexivity]. cbn.
        rewrite Hpt. destruct (decide (e = e')) as [<-|]; [|reflexivity].
        exfalso. apply H0. apply (co_injective s Hc key k e).
        -- left; assumption.
        -- right; eauto.
    + unfold entry_of. change (m (read s0)) with (m (read s)). rewrite Hr.
      reflexivity.
    + rewrite Hpt, decide_True by reflexivity. reflexivity.
    + cbn. rewrite lookup_insert_eq. eauto.
    + cbn. rewrite Hd. cbn. rewrite map_size_insert_None by exact Hk. lia.
Qed.

(** Lines 162 and 219: a new entry for a key that neither map has. *)
Lemma new_key_spec s key v d :
  coherent s -> dirty s = Some d ->
  m (read s) !! key = None -> d !! key = None ->
  let e := stdpp.base.fresh (dom (heap s)) in
  let s1 := set_dirty (Some (<[key := e]> d))
              (set_heap (<[e := value_ptr v]> (heap s)) s) in
  coherent s1 /\ contents s1 = <[key := v]> (contents s)
  /\ (len (dirty s) < len (dirty s1))%nat.
Proof.
  intros Hc Hd Hr Hk e s1.
  assert (Hfresh : heap s !! e = None).
  { apply not_elem_of_dom. apply is_fresh. }
  assert (Hun : forall k e', bound s k e' -> e <> e').
  { intros k e' Hb <-. destruct (co_allocated s Hc k e Hb). congruence. }
  assert (Hpt : forall e', pointer_at s1 e'
                           = if decide (e = e') then value_ptr v else pointer_at s e').
  { intros e'. apply (pointer_at_set_heap s e (value_ptr v) e'). }
  assert (Hb : forall k e', bound s1 k e' -> bound s k e' \/ (k = key /\ e' = e)).
  { intros k e' Hb. apply (bound_insert_dirty _ d) in Hb; [exact Hb|exact Hd]. }
  assert (Ha : amended (read s) = true).
  { rewrite (co_amended s Hc), Hd. reflexivity. }
  split; [split|split].
  - cbn. exact Ha.
  - intros d0 k e' Hd0 Hk'. cbn in Hd0. injection Hd0 as <-.
    rewrite Hpt. destruct (decide (e = e')); [reflexivity|].
    rewrite lookup_insert in Hk'. destruct (decide (key = k)); [congruence|].
    apply (co_dirty s Hc d k e' Hd Hk').
  - intros k e' Hk' Hp'. change (m (read s1)) with (m (read s)) in Hk'.
    rewrite Hpt in Hp'. destruct (decide (e = e')); [discriminate|].
    destruct (co_expunged s Hc k e' Hk' Hp') as (d' & Hd' & Hkd).
    assert (d' = d) by congruence. subst d'.
    exists (<[key := e]> d). split; [reflexivity|].
    rewrite lookup_insert_ne; [exact Hkd|]. intros <-. congruence.
  - intros d0 k e' Hd0 Hk' Hp'. cbn in Hd0. injection Hd0 as <-.
    change (m (read s1)) with (m (read s)) in Hk'.
    assert (key <> k) by congruence.
    rewrite lookup_insert_ne by assumption.
    rewrite Hpt in Hp'.
    rewrite decide_False in Hp' by (apply (Hun k); left; exact Hk').
    apply (co_shared s Hc d k e' Hd Hk' Hp').
  - intros k e' Hb'. apply Hb in Hb'. cbn. rewrite lookup_insert.
    destruct (decide (e = e')); [eauto|].
    destruct Hb' as [Hb'|[_ ->]]; [|congruence].
    apply (co_allocated s Hc k e' Hb').
  - intros k1 k2 e' H1 H2. apply Hb in H1, H2.
    destruct H1 as [H1|[-> ->]], H2 as [H2|[-> He]]; try reflexivity.
    + apply (co_injective s Hc k1 k2 e'); assumption.
    + subst e'. destruct (Hun _ _ H1 eq_refl).
    + destruct (Hun _ _ H2 eq_refl).
  - apply map_eq. intros k. rewrite contents_lookup. unfold entry_of.
    change (m (read s1)) with (m (read s)).
    change (amended (read s1)) with (amended (read s)). rewrite Ha.
    cbn [dirty s1 set_dirty mbind option_bind].
    destruct (decide (key = k)) as [<-|Hkk].
    + rewrite Hr, lookup_insert_eq, lookup_insert_eq. cbn.
      rewrite Hpt, decide_True by reflexivity. reflexivity.
    + rewrite (lookup_insert_ne (contents s)) by exact Hkk.
      rewrite contents_lookup. unfold entry_of. rewrite Ha, Hd.
      rewrite lookup_insert_ne by exact Hkk. cbn.
      destruct (m (read s) !! k) as [e'|] eqn:Hk'.
      * cbn. rewrite Hpt, decide_False; [reflexivity|].
        apply (Hun k). left. exact Hk'.
      * destruct (d !! k) as [e'|] eqn:Hkd; [|reflexivity]. cbn.
        rewrite Hpt, decide_False; [reflexivity|].
        apply (Hun k). right. eauto.
  - cbn. rewrite Hd. cbn. rewrite map_size_insert_None by exact Hk. lia.
Qed.

(** *** Promotion and [missLocked] *)

(** Lines 332-334 and 304-307: [dirty] takes the place of [read.m]. *)
Lemma promote_spec s d :
  dirty s = Some d -> coherent s ->
  let s' := set_misses 0 (set_dirty None (set_read (mkReadOnly d false) s)) in
  coherent s' /\ contents s' = contents s
  /\ (forall k e, bound s' k e -> bound s k e).
Proof.
  intros Hd Hc s'.
  assert (Ha : amended (read s) = true).
  { rewrite (co_amended s Hc), Hd. reflexivity. }
  split; [|split].
  - split; cbn.
    + reflexivity.
    + discriminate.
    + intros k e Hk Hp. pose proof (co_dirty s Hc d k e Hd Hk) as Hp'.
      unfold pointer_at in *. cbn in Hp. congruence.
    + discriminate.
    + intros k e [Hk|(d' & ? & _)]; [|discriminate].
      apply (co_allocated s Hc k). right. eauto.
    + intros k1 k2 e [H1|(? & ? & _)] [H2|(? & ? & _)]; try discriminate.
      apply (co_injective s Hc k1 k2 e); right; eauto.
  - apply map_eq. intros k. rewrite !contents_lookup.
    unfold entry_of. cbn. rewrite Ha, Hd. cbn.
    change (pointer_at s') with (pointer_at s).
    destruct (m (read s) !! k) as [e|] eqn:Hr; [|destruct (d !! k); reflexivity].
    destruct (is_expunged (pointer_at s e)) eqn:Hp.
    + destruct (co_expunged s Hc k e Hr Hp) as (d' & Hd' & Hk).
      assert (d' = d) by congruence. subst d'. rewrite Hk. cbn.
      destruct (pointer_at s e); try discriminate. reflexivity.
    + rewrite (co_shared s Hc d k e Hd Hr Hp). reflexivity.
  - intros k e [Hk|(? & ? & _)]; [|discriminate]. right. eauto.
Qed.

(** Counting a miss, and the promotion of [dirty] that it may bring,
    change neither the entries nor the value of any key. *)
Lemma missLocked_spec s d :
  dirty s = Some d -> coherent s ->
  exists s', missLocked s = Returns (tt, s')
    /\ coherent s' /\ contents s' = contents s
    /\ mu s' = mu s /\ heap s' = heap s
    /\ (misses s' = 0%nat \/ (misses s' < len (dirty s'))%nat)
    /\ (forall k e, bound s' k e -> bound s k e).
Proof.
  intros Hd Hc. unfold missLocked, bind, modify, gets, ret.
  cbn -[Nat.ltb]. rewrite Hd. cbn -[Nat.ltb].
  destruct (S (misses s) <? size d)%nat eqn:Hlt.
  - eexists. split; [reflexivity|].
    split; [apply (coherent_set_misses s), Hc|].
    repeat (split; [reflexivity|]). split.
    + right. cbn. rewrite Hd. cbn. apply Nat.ltb_lt in Hlt. exact Hlt.
    + intros k e Hb. exact Hb.
  - eexists. split; [reflexivity|].
    destruct (promote_spec (set_misses (S (misses s)) s) d Hd
                (coherent_set_misses s _ Hc)) as (Hc' & Hv' & Hb').
    split; [exact Hc'|]. split; [exact Hv'|].
    repeat (split; [reflexivity|]). split; [left; reflexivity|exact Hb'].
Qed.

(** *** [dirtyLocked] *)

(** The loop of lines 346-350, started with any [dirty]: the entries of
    the range that hold [nil] become expunged, and the keys whose entry
    holds a value are bound in [dirty]. *)
Lemma copy_loop_spec (l : list (K * entry)) : forall s d,
  dirty s = Some d -> NoDup l.*1 ->
  exists s' d',
    for_range l
      (fun k e =>
         bind (entry_tryExpungeLocked e)
           (fun isExpunged : bool =>
              if isExpunged then ret tt else dirty_assign k e)) s
    = Returns (tt, s')
    /\ mu s' = mu s /\ read s' = read s /\ misses s' = misses s
    /\ dirty s' = Some d'
    /\ (forall e, heap s' !! e
                  = if is_nil (pointer_at s e) && bool_decide (e ∈ l.*2)
                    then Some expunged else heap s !! e)
    /\ (forall k, d' !! k
                  = match (list_to_map l : gmap K entry) !! k with
                    | Some e => if is_value (pointer_at s e) then Some e
                                else d !! k
                    | None => d !! k
                    end).
Proof.
  induction l as [|[k e] l IH]; intros s d Hd Hnd.
  - exists s, d. cbn [for_range ret]. do 4 (split; [reflexivity|]).
    split; [exact Hd|]. split.
    + intros e. cbn. rewrite andb_false_r. reflexivity.
    + intros k. cbn. rewrite lookup_empty. reflexivity.
  - cbn in Hnd. apply NoDup_cons in Hnd as [Hk Hnd].
    cbn [for_range]. unfold bind at 1 2.
    unfold entry_tryExpungeLocked, LoadPointer, bind, gets, ret, StorePointer,
      modify.
    fold (pointer_at s e).
    assert (Hlk : (list_to_map l : gmap K entry) !! k = None).
    { apply not_elem_of_list_to_map_1. exact Hk. }
    destruct (pointer_at s e) as [| |v] eqn:Hp.
    + destruct (IH (set_heap (<[e := expunged]> (heap s)) s) d Hd Hnd)
        as (s' & d' & Hrun & Hmu & Hrd & Hm & Hd' & Hh & Hdk).
      exists s', d'. split; [exact Hrun|]. repeat (split; [assumption|]). split.
      * intros e'. rewrite Hh, pointer_at_set_heap. cbn [heap set_heap fmap list_fmap snd].
        rewrite lookup_insert.
        destruct (decide (e = e')) as [<-|Hne].
        -- cbn. rewrite Hp. cbn.
           rewrite bool_decide_eq_true_2 by (apply elem_of_cons; auto). reflexivity.
        -- rewrite (bool_decide_ext (e' ∈ e :: l.*2) (e' ∈ l.*2)); [reflexivity|].
           rewrite elem_of_cons.
           split; [intros [E|E]; [destruct Hne; auto|exact E]|auto].
      * intros k'. rewrite Hdk. cbn [list_to_map foldr uncurry fst snd].
        assert (Hv : forall e', is_value (pointer_at
                        (set_heap (<[e := expunged]> (heap s)) s) e')
                                = is_value (pointer_at s e')).
        { intros e'. rewrite pointer_at_set_heap.
          destruct (decide (e = e')) as [<-|]; [rewrite Hp|]; reflexivity. }
        rewrite lookup_insert. destruct (decide (k = k')) as [<-|].
        -- rewrite Hlk, Hp. reflexivity.
        -- destruct (list_to_map l !! k'); [rewrite Hv|]; reflexivity.
    + destruct (IH s d Hd Hnd)
        as (s' & d' & Hrun & Hmu & Hrd & Hm & Hd' & Hh & Hdk).
      exists s', d'. split; [exact Hrun|]. repeat (split; [assumption|]). split.
      * intros e'. rewrite Hh. cbn [fmap list_fmap snd].
        destruct (decide (e = e')) as [<-|Hne].
        -- rewrite Hp. reflexivity.
        -- rewrite (bool_decide_ext (e' ∈ e :: l.*2) (e' ∈ l.*2)); [reflexivity|].
           rewrite elem_of_cons.
           split; [intros [E|E]; [destruct Hne; auto|exact E]|auto].
      * intros k'. rewrite Hdk. cbn [list_to_map foldr uncurry fst snd].
        rewrite lookup_insert. destruct (decide (k = k')) as [<-|].
        -- rewrite Hlk, Hp. reflexivity.
        -- reflexivity.
    + unfold dirty_assign. rewrite Hd.
      destruct (IH (set_dirty (Some (<[k := e]> d)) s) (<[k := e]> d)
                  eq_refl Hnd)
        as (s' & d' & Hrun & Hmu & Hrd & Hm & Hd' & Hh & Hdk).
      exists s', d'. split; [exact Hrun|]. repeat (split; [assumption|]). split.
      * intros e'. rewrite Hh. cbn [fmap list_fmap snd].
        change (pointer_at (set_dirty (Some (<[k := e]> d)) s)) with (pointer_at s).
        cbn [heap set_dirty].
        destruct (decide (e = e')) as [<-|Hne].
        -- rewrite Hp. reflexivity.
        -- rewrite (bool_decide_ext (e' ∈ e :: l.*2) (e' ∈ l.*2)); [reflexivity|].
           rewrite elem_of_cons.
           split; [intros [E|E]; [destruct Hne; auto|exact E]|auto].
      * intros k'. rewrite Hdk. cbn [list_to_map foldr uncurry fst snd].
        change (pointer_at (set_dirty (Some (<[k := e]> d)) s)) with (pointer_at s).
        rewrite !lookup_insert. destruct (decide (k = k')) as [<-|].
        -- rewrite Hlk, Hp. reflexivity.
        -- reflexivity.
Qed.

(** Lines 158-161 and 215-218: when [read] is not amended, [dirty] is
    built from [read.m] and [read] is marked; no key changes its value. *)
Lemma dirtyLocked_spec h s :
  order_ok h -> coherent s -> dirty s = None ->
  exists s1 d1,
    bind (dirtyLocked h)
      (fun _ => modify (set_read (mkReadOnly (m (read s)) true))) s
    = Returns (tt, s1)
    /\ coherent s1 /\ contents s1 = contents s
    /\ mu s1 = mu s /\ misses s1 = misses s /\ dirty s1 = Some d1
    /\ read s1 = mkReadOnly (m (read s)) true
    /\ (forall k, m (read s) !! k = None -> d1 !! k = None).
Proof.
  intros Ho Hc Hd.
  assert (Ha : amended (read s) = false).
  { rewrite (co_amended s Hc), Hd. reflexivity. }
  assert (Hne : forall k e, m (read s) !! k = Some e ->
                            is_expunged (pointer_at s e) = false).
  { intros k e Hk. destruct (is_expunged (pointer_at s e)) eqn:Hp; [|reflexivity].
    destruct (co_expunged s Hc k e Hk Hp) as (d & Hd' & _). congruence. }
  set (l := host_order h (m (read s))).
  assert (Hperm : l ≡ₚ map_to_list (m (read s))) by apply Ho.
  assert (Hnd : NoDup l.*1).
  { rewrite Hperm. apply NoDup_fst_map_to_list. }
  assert (Hmap : (list_to_map l : gmap K entry) = m (read s)).
  { rewrite (list_to_map_proper l (map_to_list (m (read s))) Hnd Hperm).
    apply list_to_map_to_list. }
  assert (Hin : forall e, e ∈ l.*2 <-> exists k, m (read s) !! k = Some e).
  { intros e. rewrite list_elem_of_fmap. split.
    - intros ([k e'] & -> & Hin). exists k. apply elem_of_map_to_list.
      rewrite <- Hperm. exact Hin.
    - intros (k & Hk). exists (k, e). split; [reflexivity|].
      rewrite Hperm. apply elem_of_map_to_list. exact Hk. }
  destruct (copy_loop_spec l (set_dirty (Some ∅) s) ∅ eq_refl Hnd)
    as (s' & d' & Hrun & Hmu & Hrd & Hm & Hd' & Hh & Hdk).
  exists (set_read (mkReadOnly (m (read s)) true) s'), d'.
  change (pointer_at (set_dirty (Some ∅) s)) with (pointer_at s) in Hh, Hdk.
  cbn [heap set_dirty] in Hh.
  rewrite Hmap in Hdk.
  assert (Hpt : forall k e, m (read s) !! k = Some e ->
            pointer_at (set_read (mkReadOnly (m (read s)) true) s') e
            = if is_nil (pointer_at s e) then expunged else pointer_at s e).
  { intros k e Hk. unfold pointer_at at 1. cbn [heap set_read]. rewrite Hh.
    rewrite (bool_decide_eq_true_2 (e ∈ l.*2)) by (apply Hin; eauto).
    rewrite andb_true_r. destruct (is_nil (pointer_at s e)); reflexivity. }
  assert (Hd1 : forall k, d' !! k
            = match m (read s) !! k with
              | Some e => if is_value (pointer_at s e) then Some e else None
              | None => None
              end).
  { intros k. rewrite Hdk, lookup_empty. reflexivity. }
  split.
  { unfold bind at 1. unfold dirtyLocked, bind at 1, gets. rewrite Hd.
    unfold bind at 1, gets. unfold bind at 1, modify at 1.
    fold l. rewrite Hrun. reflexivity. }
  split; [split|].
  - cbn. rewrite Hd'. reflexivity.
  - intros d0 k e Hd0 Hk. cbn [dirty set_read] in Hd0.
    assert (d0 = d') by congruence. subst d0. rewrite Hd1 in Hk.
    destruct (m (read s) !! k) as [e'|] eqn:Hk'; [|discriminate].
    destruct (is_value (pointer_at s e')) eqn:Hv; [|discriminate].
    injection Hk as <-. rewrite (Hpt k e' Hk').
    destruct (pointer_at s e'); try discriminate. reflexivity.
  - intros k e Hk Hp. cbn [read set_read m] in Hk.
    exists d'. split; [exact Hd'|]. rewrite Hd1, Hk.
    rewrite (Hpt k e Hk) in Hp. pose proof (Hne k e Hk).
    destruct (pointer_at s e); try discriminate; reflexivity.
  - intros d0 k e Hd0 Hk Hp. cbn [dirty set_read] in Hd0.
    assert (d0 = d') by congruence. subst d0. cbn [read set_read m] in Hk.
    rewrite Hd1, Hk. rewrite (Hpt k e Hk) in Hp.
    pose proof (Hne k e Hk).
    destruct (pointer_at s e); try discriminate; reflexivity.
  - intros k e Hb.
    assert (Hk : m (read s) !! k = Some e).
    { destruct Hb as [Hk|(d0 & Hd0 & Hk)]; [exact Hk|].
      cbn [dirty set_read] in Hd0.
      assert (d0 = d') by congruence. subst d0. rewrite Hd1 in Hk.
      destruct (m (read s) !! k) as [e'|]; [|discriminate].
      destruct (is_value (pointer_at s e')); congruence. }
    cbn [heap set_read]. rewrite Hh.
    destruct (is_nil (pointer_at s e) && bool_decide (e ∈ l.*2)); [eauto|].
    apply (co_allocated s Hc k). left. exact Hk.
  - assert (Hb : forall k e,
              bound (set_read (mkReadOnly (m (read s)) true) s') k e ->
              m (read s) !! k = Some e).
    { intros k e [Hk|(d0 & Hd0 & Hk)]; [exact Hk|].
      cbn [dirty set_read] in Hd0.
      assert (d0 = d') by congruence. subst d0. rewrite Hd1 in Hk.
      destruct (m (read s) !! k) as [e'|]; [|discriminate].
      destruct (is_value (pointer_at s e')); congruence. }
    intros k1 k2 e H1 H2. apply (co_injective s Hc k1 k2 e); left; apply Hb;
      assumption.
  - split; [|repeat (split; [assumption || reflexivity|])].
    + apply map_eq. intros k. rewrite !contents_lookup. unfold entry_of.
      cbn [read set_read m amended dirty]. rewrite Ha, Hd'.
      cbn [mbind option_bind]. rewrite Hd1.
      destruct (m (read s) !! k) as [e|] eqn:Hk; [|reflexivity].
      cbn. rewrite (Hpt k e Hk).
      destruct (pointer_at s e); reflexivity.
    + intros k Hk. rewrite Hd1, Hk. reflexivity.
Qed.

(** *** [Load] *)

Lemma Load_spec h key s :
  (0 < host_fuel h)%nat -> well_formed s ->
  exists s', Load h key s = Returns (contents s !! key, s')
    /\ well_formed s' /\ contents s' = contents s.
Proof.
  intros Hf (Hmu & Hc & Hm). rewrite contents_lookup.
  unfold Load, entry_of, bind, gets, ret.
  destruct (m (read s) !! key) as [e|] eqn:Hr; mred.
  - exists s. split; [|split; [split; auto|reflexivity]].
    unfold entry_load, LoadPointer, bind, gets, ret, pointer_at.
    destruct (default nil_ptr (heap s !! e)); reflexivity.
  - destruct (amended (read s)) eqn:Ha; mred.
    + rewrite (mu_Lock_free h s Hf Hmu). mred. rewrite Hr, Ha. mred.
      assert (exists d, dirty s = Some d) as [d Hd].
      { rewrite (co_amended s Hc) in Ha. destruct (dirty s); [eauto|discriminate]. }
      unfold dirty_lookup, gets. mred. rewrite Hd. mred.
      destruct (missLocked_spec (set_mu (mkMutex 1 0) s) d Hd
                  (coherent_set_mu s _ Hc))
        as (s1 & Hrun & Hc1 & Hv1 & Hmu1 & Hh1 & Hm1 & _).
      rewrite Hrun. rewrite (mu_Unlock_held h s1 Hf Hmu1).
      exists (set_mu (mkMutex 0 0) s1). split.
      * destruct (d !! key) as [e|]; [|reflexivity].
        unfold entry_load, LoadPointer, bind, gets, ret, pointer_at. cbn.
        rewrite Hh1. cbn. destruct (default nil_ptr (heap s !! e)); reflexivity.
      * split; [split; [reflexivity|split; [apply coherent_set_mu, Hc1|exact Hm1]]|].
        rewrite contents_set_mu, Hv1. reflexivity.
    + exists s. split; [reflexivity|]. split; [split; auto|reflexivity].
Qed.

(** *** [Store] *)

Lemma store_new_spec h key value s :
  order_ok h -> coherent s -> m (read s) !! key = None ->
  (forall d, dirty s = Some d -> d !! key = None) ->
  exists s', store_new h (read s) key value s = Returns (tt, s')
    /\ coherent s' /\ contents s' = <[key := value]> (contents s)
    /\ mu s' = mu s /\ misses s' = misses s
    /\ (len (dirty s) < len (dirty s'))%nat.
Proof.
  intros Ho Hc Hr Hk. unfold store_new.
  destruct (dirty s) as [d|] eqn:Hd.
  - assert (Ha : amended (read s) = true).
    { rewrite (co_amended s Hc), Hd. reflexivity. }
    rewrite Ha. unfold bind, ret, newEntry, dirty_assign. cbn [negb dirty set_heap].
    rewrite Hd.
    destruct (new_key_spec s key value d Hc Hd Hr (Hk d eq_refl))
      as (Hc1 & Hv1 & Hl1).
    eexists. split; [reflexivity|]. split; [exact Hc1|]. split; [exact Hv1|].
    split; [reflexivity|]. split; [reflexivity|]. rewrite Hd in Hl1. exact Hl1.
  - assert (Ha : amended (read s) = false).
    { rewrite (co_amended s Hc), Hd. reflexivity. }
    rewrite Ha. cbn [negb].
    destruct (dirtyLocked_spec h s Ho Hc Hd)
      as (s1 & d1 & Hrun & Hc1 & Hv1 & Hmu1 & Hm1 & Hd1 & Hr1 & Hk1).
    unfold bind at 1. rewrite Hrun.
    unfold bind, ret, newEntry, dirty_assign. cbn [dirty set_heap]. rewrite Hd1.
    assert (Hr1' : m (read s1) !! key = None) by (rewrite Hr1; exact Hr).
    destruct (new_key_spec s1 key value d1 Hc1 Hd1 Hr1' (Hk1 key Hr))
      as (Hc2 & Hv2 & Hl2).
    eexists. split; [reflexivity|]. split; [exact Hc2|].
    split; [rewrite Hv2, Hv1; reflexivity|].
    split; [exact Hmu1|]. split; [exact Hm1|].
    eapply Nat.le_lt_trans; [|exact Hl2]. cbn. lia.
Qed.

Lemma Store_spec h key value s :
  (0 < host_fuel h)%nat -> order_ok h -> well_formed s ->
  exists s', Store h key value s = Returns (tt, s')
    /\ well_formed s' /\ contents s' = <[key := value]> (contents s).
Proof.
  intros Hf Ho (Hmu & Hc & Hm).
  unfold Store, bind. mred.
  destruct (m (read s) !! key) as [e|] eqn:Hr.
  - rewrite entry_tryStore_run.
    assert (Hal : is_Some (heap s !! e)).
    { apply (co_allocated s Hc key). left. exact Hr. }
    destruct (is_expunged (pointer_at s e)) eqn:Hp.
    + rewrite (mu_Lock_free h s Hf Hmu). mred. rewrite Hr.
      destruct (co_expunged s Hc key e Hr Hp) as (d & Hd & Hk).
      rewrite entry_unexpungeLocked_run.
      change (pointer_at (set_mu (mkMutex 1 0) s)) with (pointer_at s).
      rewrite Hp. unfold dirty_assign. mred. rewrite Hd.
      rewrite entry_storeLocked_run. mred.
      rewrite mu_Unlock_held; [|exact Hf|reflexivity].
      destruct (unexpunge_spec s key e d Hc Hr Hp Hd)
        as (Hc0 & Hv0 & He0 & Hp0 & Ha0 & Hl0).
      eexists. split; [reflexivity|].
      set (s0 := set_dirty (Some (<[key := e]> d))
                   (set_heap (<[e := nil_ptr]> (heap s)) s)) in *.
      match goal with
      | |- well_formed ?t /\ _ =>
          change t with
            (set_mu (mkMutex 0 0)
               (set_heap (<[e := value_ptr value]> (heap s0)) s0))
      end.
      split.
      * split; [reflexivity|]. split.
        -- apply coherent_set_mu, coherent_write; auto.
           rewrite Hp0. reflexivity.
        -- cbn. cbn in Hl0. destruct Hm as [Hm|Hm]; [left; exact Hm|right; lia].
      * rewrite contents_set_mu, (contents_write s0 key e _ Hc0 He0).
        cbn [value_of]. rewrite Hv0. reflexivity.
    + eexists. split; [reflexivity|]. split.
      * split; [exact Hmu|]. split; [|exact Hm].
        apply coherent_write; auto.
      * rewrite (contents_write s key e); [reflexivity|exact Hc|].
        unfold entry_of. rewrite Hr. reflexivity.
  - mred. rewrite (mu_Lock_free h s Hf Hmu). mred. rewrite Hr.
    unfold dirty_lookup, gets. mred.
    destruct (dirty s ≫= fun d => d !! key) as [e|] eqn:Hdk.
    + destruct (dirty s) as [d|] eqn:Hd; [|discriminate]. cbn in Hdk.
      rewrite entry_storeLocked_run. mred.
      rewrite mu_Unlock_held; [|exact Hf|reflexivity].
      eexists. split; [reflexivity|].
      match goal with
      | |- well_formed ?t /\ _ =>
          change t with
            (set_mu (mkMutex 0 0)
               (set_heap (<[e := value_ptr value]> (heap s)) s))
      end.
      pose proof (co_dirty s Hc d key e Hd Hdk) as Hp.
      split.
      * split; [reflexivity|]. split.
        -- apply coherent_set_mu, coherent_write; auto.
           apply (co_allocated s Hc key). right. eauto.
        -- cbn. rewrite Hd. exact Hm.
      * rewrite contents_set_mu, (contents_write s key e); [reflexivity|exact Hc|].
        apply bound_entry_of; [exact Hc| |exact Hp]. right. eauto.
    + destruct (store_new_spec h key value (set_mu (mkMutex 1 0) s) Ho
                  (coherent_set_mu s _ Hc) Hr)
        as (s1 & Hrun & Hc1 & Hv1 & Hmu1 & Hm1 & Hl1).
      { intros d Hd. cbn in Hd. rewrite Hd in Hdk. exact Hdk. }
      change (read (set_mu (mkMutex 1 0) s)) with (read s) in Hrun.
      rewrite Hrun.
      rewrite (mu_Unlock_held h s1 Hf Hmu1).
      eexists. split; [reflexivity|]. split.
      * split; [reflexivity|]. split; [apply coherent_set_mu; exact Hc1|].
        cbn in Hm1, Hl1. cbn. right. lia.
      * rewrite contents_set_mu, Hv1, contents_set_mu. reflexivity.
Qed.

(** *** [LoadOrStore] *)

Lemma LoadOrStore_spec h key value s :
  (0 < host_fuel h)%nat -> order_ok h -> well_formed s ->
  exists s',
    LoadOrStore h key value s
    = Returns (match contents s !! key with
               | Some x => (Some x, true)
               | None => (Some value, false)
               end, s')
    /\ well_formed s'
    /\ contents s' = match contents s !! key with
                     | Some _ => contents s
                     | None => <[key := value]> (contents s)
                     end.
Proof.
  intros Hf Ho (Hmu & Hc & Hm). rewrite contents_lookup.
  unfold LoadOrStore, entry_of, bind. mred.
  destruct (m (read s) !! key) as [e|] eqn:Hr.
  - rewrite entry_tryLoadOrStore_run. cbn [mbind option_bind].
    assert (Hal : is_Some (heap s !! e)).
    { apply (co_allocated s Hc key). left. exact Hr. }
    assert (He : entry_of s key = Some e).
    { unfold entry_of. rewrite Hr. reflexivity. }
    destruct (pointer_at s e) as [| |x] eqn:Hp; mred.
    + eexists. split; [reflexivity|]. split.
      * split; [exact Hmu|]. split; [|exact Hm].
        apply coherent_write; auto. rewrite Hp. reflexivity.
      * rewrite (contents_write s key e _ Hc He). reflexivity.
    + rewrite (mu_Lock_free h s Hf Hmu). mred. rewrite Hr.
      assert (Hx : is_expunged (pointer_at s e) = true) by (rewrite Hp; reflexivity).
      destruct (co_expunged s Hc key e Hr Hx) as (d & Hd & Hk).
      rewrite entry_unexpungeLocked_run.
      change (pointer_at (set_mu (mkMutex 1 0) s)) with (pointer_at s).
      rewrite Hx. unfold dirty_assign. mred. rewrite Hd.
      rewrite entry_tryLoadOrStore_run.
      destruct (unexpunge_spec s key e d Hc Hr Hx Hd)
        as (Hc0 & Hv0 & He0 & Hp0 & Ha0 & Hl0).
      set (s0 := set_dirty (Some (<[key := e]> d))
                   (set_heap (<[e := nil_ptr]> (heap s)) s)) in *.
      match goal with
      | |- context [pointer_at ?t e] =>
          change (pointer_at t e) with (pointer_at s0 e)
      end.
      rewrite Hp0. mred.
      rewrite mu_Unlock_held; [|exact Hf|reflexivity].
      eexists. split; [reflexivity|].
      match goal with
      | |- well_formed ?t /\ _ =>
          change t with
            (set_mu (mkMutex 0 0)
               (set_heap (<[e := value_ptr value]> (heap s0)) s0))
      end.
      split.
      * split; [reflexivity|]. split.
        -- apply coherent_set_mu, coherent_write; auto.
           rewrite Hp0. reflexivity.
        -- cbn. cbn in Hl0. destruct Hm as [Hm|Hm]; [left; exact Hm|right; lia].
      * rewrite contents_set_mu, (contents_write s0 key e _ Hc0 He0).
        cbn [value_of]. rewrite Hv0. reflexivity.
    + exists s. split; [reflexivity|]. split; [split; auto|reflexivity].
  - mred. rewrite (mu_Lock_free h s Hf Hmu). mred. rewrite Hr.
    unfold dirty_lookup, gets. mred.
    destruct (dirty s) as [d|] eqn:Hd.
    + assert (Ha : amended (read s) = true).
      { rewrite (co_amended s Hc), Hd. reflexivity. }
      rewrite Ha. cbn [mbind option_bind].
      destruct (d !! key) as [e|] eqn:Hdk; cbn [mbind option_bind].
      * rewrite entry_tryLoadOrStore_run.
        change (pointer_at (set_mu (mkMutex 1 0) s)) with (pointer_at s).
        pose proof (co_dirty s Hc d key e Hd Hdk) as Hp.
        assert (Hal : is_Some (heap s !! e)).
        { apply (co_allocated s Hc key). right. eauto. }
        assert (He : entry_of s key = Some e).
        { apply bound_entry_of; [exact Hc| |exact Hp]. right. eauto. }
        destruct (pointer_at s e) as [| |x] eqn:Hpe; [|discriminate|]; mred.
        -- assert (Hc1 : coherent (set_heap (<[e := value_ptr value]> (heap s)) s)).
           { apply coherent_write; auto. rewrite Hpe. reflexivity. }
           destruct (missLocked_spec
                       (set_mu (mkMutex 1 0)
                          (set_heap (<[e := value_ptr value]> (heap s)) s))
                       d Hd (coherent_set_mu _ _ Hc1))
             as (s2 & Hrun & Hc2 & Hv2 & Hmu2 & _ & Hm2 & _).
           match goal with
           | |- context [missLocked ?t] =>
               change (missLocked t)
                 with (missLocked (set_mu (mkMutex 1 0)
                          (set_heap (<[e := value_ptr value]> (heap s)) s)))
           end.
           rewrite Hrun. mred. rewrite (mu_Unlock_held h s2 Hf Hmu2).
           eexists. split; [reflexivity|]. split.
           ++ split; [reflexivity|]. split; [apply coherent_set_mu, Hc2|exact Hm2].
           ++ rewrite contents_set_mu, Hv2, contents_set_mu.
              rewrite (contents_write s key e _ Hc He). reflexivity.
        -- destruct (missLocked_spec (set_mu (mkMutex 1 0) s) d Hd
                       (coherent_set_mu _ _ Hc))
             as (s2 & Hrun & Hc2 & Hv2 & Hmu2 & _ & Hm2 & _).
           rewrite Hrun. mred. rewrite (mu_Unlock_held h s2 Hf Hmu2).
           eexists. split; [reflexivity|]. split.
           ++ split; [reflexivity|]. split; [apply coherent_set_mu, Hc2|exact Hm2].
           ++ rewrite contents_set_mu, Hv2, contents_set_mu. reflexivity.
      * destruct (store_new_spec h key value (set_mu (mkMutex 1 0) s) Ho
                    (coherent_set_mu s _ Hc) Hr)
          as (s1 & Hrun & Hc1 & Hv1 & Hmu1 & Hm1 & Hl1).
        { intros d' Hd'. cbn in Hd'. congruence. }
        change (read (set_mu (mkMutex 1 0) s)) with (read s) in Hrun.
        rewrite Hrun. mred.
        rewrite (mu_Unlock_held h s1 Hf Hmu1).
        eexists. split; [reflexivity|]. split.
        -- split; [reflexivity|]. split; [apply coherent_set_mu; exact Hc1|].
           cbn in Hm1, Hl1. rewrite Hd in Hl1. cbn in Hl1, Hm |- *. right. lia.
        -- rewrite contents_set_mu, Hv1, contents_set_mu. reflexivity.
    + assert (Ha : amended (read s) = false).
      { rewrite (co_amended s Hc), Hd. reflexivity. }
      rewrite Ha. cbn [mbind option_bind].
      destruct (store_new_spec h key value (set_mu (mkMutex 1 0) s) Ho
                  (coherent_set_mu s _ Hc) Hr)
        as (s1 & Hrun & Hc1 & Hv1 & Hmu1 & Hm1 & Hl1).
      { intros d' Hd'. cbn in Hd'. congruence. }
      change (read (set_mu (mkMutex 1 0) s)) with (read s) in Hrun.
      rewrite Hrun. mred.
      rewrite (mu_Unlock_held h s1 Hf Hmu1).
      eexists. split; [reflexivity|]. split.
      * split; [reflexivity|]. split; [apply coherent_set_mu; exact Hc1|].
        cbn in Hm1, Hl1. rewrite Hd in Hl1. cbn in Hl1, Hm |- *. right. lia.
      * rewrite contents_set_mu, Hv1, contents_set_mu. reflexivity.
Qed.

(** *** [LoadAndDelete] and [Delete] *)

(** Line 266: a key that [read.m] lacks is taken out of [dirty]. *)
Lemma dirty_delete_spec s d key :
  coherent s -> dirty s = Some d -> m (read s) !! key = None ->
  let s1 := set_dirty (Some (delete key d)) s in
  coherent s1 /\ contents s1 = delete key (contents s)
  /\ (forall k e, bound s1 k e -> bound s k e /\ k <> key).
Proof.
  intros Hc Hd Hr s1.
  assert (Ha : amended (read s) = true).
  { rewrite (co_amended s Hc), Hd. reflexivity. }
  assert (Hb : forall k e, bound s1 k e -> bound s k e /\ k <> key).
  { intros k e [Hk|(d' & Hd' & Hk)].
    - split; [left; exact Hk|]. intros ->. cbn in Hk. congruence.
    - cbn in Hd'. injection Hd' as <-. rewrite lookup_delete in Hk.
      destruct (decide (key = k)); [discriminate|].
      split; [right; eauto|auto]. }
  split; [split|split].
  - cbn. exact Ha.
  - intros d0 k e Hd0 Hk. cbn in Hd0. injection Hd0 as <-.
    rewrite lookup_delete in Hk. destruct (decide (key = k)); [discriminate|].
    apply (co_dirty s Hc d k e Hd Hk).
  - intros k e Hk Hp.
    destruct (co_expunged s Hc k e Hk Hp) as (d' & Hd' & Hkd).
    assert (d' = d) by congruence. subst d'.
    exists (delete key d). split; [reflexivity|].
    rewrite lookup_delete. destruct (decide (key = k)); [reflexivity|exact Hkd].
  - intros d0 k e Hd0 Hk Hp. cbn in Hd0. injection Hd0 as <-.
    cbn in Hk. rewrite lookup_delete_ne by congruence.
    apply (co_shared s Hc d k e Hd Hk Hp).
  - intros k e Hb'. apply (co_allocated s Hc k). apply Hb. exact Hb'.
  - intros k1 k2 e H1 H2. apply (co_injective s Hc k1 k2 e); apply Hb; assumption.
  - apply map_eq. intros k. rewrite contents_lookup. unfold entry_of.
    cbn [read dirty s1 set_dirty]. rewrite Ha. cbn [mbind option_bind].
    change (pointer_at s1) with (pointer_at s).
    rewrite lookup_delete.
    destruct (decide (key = k)) as [<-|Hne].
    + rewrite Hr, lookup_delete_eq. reflexivity.
    + rewrite lookup_delete_ne by exact Hne.
      rewrite contents_lookup. unfold entry_of. rewrite Ha, Hd. reflexivity.
  - exact Hb.
Qed.

Lemma LoadAndDelete_spec h key s :
  (0 < host_fuel h)%nat -> well_formed s ->
  exists s', LoadAndDelete h key s = Returns (contents s !! key, s')
    /\ well_formed s' /\ contents s' = delete key (contents s).
Proof.
  intros Hf (Hmu & Hc & Hm).
  unfold LoadAndDelete, bind. mred.
  destruct (m (read s) !! key) as [e|] eqn:Hr; mred.
  - rewrite entry_delete_run.
    assert (He : entry_of s key = Some e).
    { unfold entry_of. rewrite Hr. reflexivity. }
    assert (Hv : contents s !! key = value_of (pointer_at s e)).
    { rewrite contents_lookup, He. reflexivity. }
    rewrite Hv. eexists. split; [reflexivity|].
    destruct (pointer_at s e) as [| |x] eqn:Hp; cbn [is_value].
    + split; [split; auto|]. symmetry. apply delete_id. rewrite Hv. reflexivity.
    + split; [split; auto|]. symmetry. apply delete_id. rewrite Hv. reflexivity.
    + split.
      * split; [exact Hmu|]. split; [|exact Hm].
        apply coherent_write; auto; [rewrite Hp; reflexivity|].
        apply (co_allocated s Hc key). left. exact Hr.
      * rewrite (contents_write s key e _ Hc He). reflexivity.
  - destruct (amended (read s)) eqn:Ha; mred.
    + rewrite (mu_Lock_free h s Hf Hmu). mred. rewrite Hr, Ha. mred.
      assert (exists d, dirty s = Some d) as [d Hd].
      { rewrite (co_amended s Hc) in Ha. destruct (dirty s); [eauto|discriminate]. }
      unfold dirty_lookup, dirty_delete, gets, modify. mred. rewrite Hd. mred.
      destruct (dirty_delete_spec (set_mu (mkMutex 1 0) s) d key
                  (coherent_set_mu _ _ Hc) Hd Hr) as (Hc1 & Hv1 & Hb1).
      set (s1 := set_dirty (Some (delete key d)) (set_mu (mkMutex 1 0) s)) in *.
      destruct (missLocked_spec s1 (delete key d) eq_refl Hc1)
        as (s2 & Hrun & Hc2 & Hv2 & Hmu2 & Hh2 & Hm2 & Hb2).
      rewrite Hrun. mred. rewrite (mu_Unlock_held h s2 Hf Hmu2). mred.
      assert (Hwf : well_formed (set_mu (mkMutex 0 0) s2)).
      { split; [reflexivity|]. split; [apply coherent_set_mu, Hc2|exact Hm2]. }
      assert (Hcv : contents (set_mu (mkMutex 0 0) s2) = delete key (contents s)).
      { rewrite contents_set_mu, Hv2, Hv1, contents_set_mu. reflexivity. }
      rewrite contents_lookup. unfold entry_of. rewrite Hr, Ha, Hd.
      cbn [mbind option_bind].
      destruct (d !! key) as [e|] eqn:Hdk; cbn [mbind option_bind].
      * rewrite entry_delete_run.
        assert (Hpe : pointer_at (set_mu (mkMutex 0 0) s2) e = pointer_at s e).
        { unfold pointer_at. cbn [heap set_mu]. rewrite Hh2. reflexivity. }
        rewrite Hpe. eexists. split; [reflexivity|].
        assert (Hun : forall k, ~ bound (set_mu (mkMutex 0 0) s2) k e).
        { intros k Hb. apply (Hb2 k e) in Hb. apply Hb1 in Hb as [Hb Hne].
          apply Hne. apply (co_injective s Hc k key e); [exact Hb|].
          right. eauto. }
        destruct (is_value (pointer_at s e)).
        -- split.
           ++ destruct Hwf as (Hw1 & Hw2 & Hw3).
              split; [exact Hw1|]. split; [|exact Hw3].
              apply coherent_write_unbound; assumption.
           ++ rewrite contents_write_unbound by exact Hun. exact Hcv.
        -- split; [exact Hwf|exact Hcv].
      * eexists. split; [reflexivity|]. split; [exact Hwf|exact Hcv].
    + exists s. rewrite contents_lookup. unfold entry_of. rewrite Hr, Ha.
      split; [reflexivity|]. split; [split; auto|].
      symmetry. apply delete_id. rewrite contents_lookup. unfold entry_of.
      rewrite Hr, Ha. reflexivity.
Qed.

Lemma Delete_spec h key s :
  (0 < host_fuel h)%nat -> well_formed s ->
  exists s', Delete h key s = Returns (tt, s')
    /\ well_formed s' /\ contents s' = delete key (contents s).
Proof.
  intros Hf Hw. destruct (LoadAndDelete_spec h key s Hf Hw) as (s' & Hrun & Hr).
  exists s'. unfold Delete, bind. rewrite Hrun. split; [reflexivity|exact Hr].
Qed.

(** *** [Range] *)

(** The pairs of a finite map of entries that hold a value are, in any
    order, the pairs of the map of the values. *)
Lemma map_to_list_omap {A B} (g : A -> option B) (mm : gmap K A) :
  map_to_list (omap g mm)
  ≡ₚ omap (fun ke => pair ke.1 <$> g ke.2) (map_to_list mm).
Proof.
  induction mm as [|i x mm Hi IH] using map_ind.
  - rewrite omap_empty, !map_to_list_empty. reflexivity.
  - rewrite (map_to_list_insert mm i x Hi). cbn. rewrite omap_insert.
    destruct (g x) as [y|]; cbn.
    + rewrite map_to_list_insert by (rewrite lookup_omap, Hi; reflexivity).
      rewrite IH. reflexivity.
    + rewrite delete_id by (rewrite lookup_omap, Hi; reflexivity). exact IH.
Qed.

Lemma live_contents h s :
  order_ok h -> amended (read s) = false ->
  live s (host_order h (m (read s))) ≡ₚ map_to_list (contents s).
Proof.
  intros Ho Ha. unfold live, contents. rewrite Ha, (right_id_L ∅ (∪)).
  rewrite map_to_list_omap. rewrite (Ho (m (read s))). reflexivity.
Qed.

(** Lines 312-320: the loop hands the live pairs to [f] in order, up to
    and including the first for which [f] returns [false]. *)
Lemma range_loop_spec (f : K -> V -> bool) (l : list (K * entry)) s :
  exists calls, range_loop f l s = Returns (calls, s)
    /\ ((calls = live s l /\ Forall (fun kv => f kv.1 kv.2 = true) calls)
        \/ (exists front k v rest,
              calls = front ++ [(k, v)]
              /\ live s l = front ++ (k, v) :: rest
              /\ Forall (fun kv => f kv.1 kv.2 = true) front
              /\ f k v = false)).
Proof.
  induction l as [|[k e] l IH].
  - exists []. split; [reflexivity|]. left. split; [reflexivity|constructor].
  - cbn [range_loop]. unfold bind at 1. rewrite entry_load_run.
    unfold live. cbn [omap list_omap fst snd].
    fold (live s l).
    destruct (value_of (pointer_at s e)) as [v|]; cbn [fmap option_fmap option_map].
    + destruct (f k v) eqn:Hf.
      * destruct IH as (calls & Hrun & Hcalls).
        unfold bind. rewrite Hrun. exists ((k, v) :: calls).
        split; [reflexivity|].
        destruct Hcalls as [[-> Hall]|(front & k' & v' & rest & -> & Hl & Hall & Hf')].
        -- left. split; [reflexivity|]. constructor; [exact Hf|exact Hall].
        -- right. exists ((k, v) :: front), k', v', rest.
           split; [reflexivity|]. split; [rewrite Hl; reflexivity|].
           split; [constructor; [exact Hf|exact Hall]|exact Hf'].
      * exists [(k, v)]. split; [reflexivity|]. right.
        exists [], k, v, (live s l).
        split; [reflexivity|]. split; [reflexivity|].
        split; [constructor|exact Hf].
    + exact IH.
Qed.

Lemma Range_spec h f s :
  (0 < host_fuel h)%nat -> order_ok h -> well_formed s ->
  exists s' calls l,
    Range h f s = Returns (calls, s')
    /\ well_formed s' /\ contents s' = contents s
    /\ l ≡ₚ map_to_list (contents s)
    /\ ((calls = l /\ Forall (fun kv => f kv.1 kv.2 = true) calls)
        \/ (exists front k v rest,
              calls = front ++ [(k, v)]
              /\ l = front ++ (k, v) :: rest
              /\ Forall (fun kv => f kv.1 kv.2 = true) front
              /\ f k v = false)).
Proof.
  intros Hf Ho (Hmu & Hc & Hm).
  unfold Range, bind. mred.
  destruct (amended (read s)) eqn:Ha; mred.
  - rewrite (mu_Lock_free h s Hf Hmu). mred. rewrite Ha. mred.
    assert (exists d, dirty s = Some d) as [d Hd].
    { rewrite (co_amended s Hc) in Ha. destruct (dirty s); [eauto|discriminate]. }
    rewrite Hd. unfold modify. mred.
    rewrite mu_Unlock_held; [|exact Hf|reflexivity]. mred.
    destruct (promote_spec (set_mu (mkMutex 1 0) s) d Hd (coherent_set_mu _ _ Hc))
      as (Hc' & Hv' & _).
    set (s1 := set_mu (mkMutex 0 0)
                 (set_misses 0 (set_dirty None
                    (set_read (mkReadOnly d false) (set_mu (mkMutex 1 0) s))))).
    destruct (range_loop_spec f (host_order h d) s1) as (calls & Hrun & Hcalls).
    exists s1, calls, (live s1 (host_order h d)).
    split; [exact Hrun|]. split; [|split; [|split; [|exact Hcalls]]].
    + split; [reflexivity|]. split; [apply coherent_set_mu, Hc'|left; reflexivity].
    + unfold s1. rewrite contents_set_mu, Hv', contents_set_mu. reflexivity.
    + rewrite <- (contents_set_mu s (mkMutex 1 0)), <- Hv'.
      rewrite <- (contents_set_mu _ (mkMutex 0 0)). fold s1.
      apply (live_contents h s1 Ho). reflexivity.
  - destruct (range_loop_spec f (host_order h (m (read s))) s)
      as (calls & Hrun & Hcalls).
    exists s, calls, (live s (host_order h (m (read s)))).
    split; [exact Hrun|]. split; [split; auto|]. split; [reflexivity|].
    split; [apply (live_contents h s Ho Ha)|exact Hcalls].
Qed.

(** *** What calls lead to *)

Lemma well_formed_zero : well_formed (zero : Map K V).
Proof.
  split; [reflexivity|]. split; [|left; reflexivity].
  split; unfold bound; cbn [zero read dirty m amended heap].
  - reflexivity.
  - discriminate.
  - intros k e Hk. rewrite lookup_empty in Hk. discriminate.
  - discriminate.
  - intros k e [Hk|(d & ? & _)]; [|discriminate].
    rewrite lookup_empty in Hk. discriminate.
  - intros k1 k2 e [Hk|(d & ? & _)]; [|discriminate].
    rewrite lookup_empty in Hk. discriminate.
Qed.

(** A call on a well-formed map returns, and leaves a well-formed map. *)
Lemma after_well_formed h o s :
  (0 < host_fuel h)%nat -> order_ok h -> well_formed s ->
  exists s', after h o s = Returns s' /\ well_formed s'.
Proof.
  intros Hf Ho Hw. destruct o as [key|key value|key value|key|key|f]; cbn [after].
  - destruct (Load_spec h key s Hf Hw) as (s' & -> & Hw' & _). eauto.
  - destruct (Store_spec h key value s Hf Ho Hw) as (s' & -> & Hw' & _). eauto.
  - destruct (LoadOrStore_spec h key value s Hf Ho Hw) as (s' & -> & Hw' & _).
    eauto.
  - destruct (LoadAndDelete_spec h key s Hf Hw) as (s' & -> & Hw' & _). eauto.
  - destruct (Delete_spec h key s Hf Hw) as (s' & -> & Hw' & _). eauto.
  - destruct (Range_spec h f s Hf Ho Hw) as (s' & calls & l & -> & Hw' & _).
    eauto.
Qed.

Lemma GoMap_reachable_well_formed s : reachable s -> well_formed s.
Proof.
  induction 1 as [|h o s s' Ho Hf _ IH Hrun]; [apply well_formed_zero|].
  destruct (after_well_formed h o s Hf Ho IH) as (s'' & Hrun' & Hw).
  congruence.
Qed.

(** X1 [Load] (lines 97-118) returns the value that the map holds for
    the key, or [(nil, false)] when it holds none, and changes the value
    of no key; the map is any that calls lead to from the zero value. *)
Theorem Load_returns_contents h key s :
  reachable s -> order_ok h -> (0 < host_fuel h)%nat ->
  exists s', Load h key s = Returns (contents s !! key, s')
    /\ contents s' = contents s.
Proof.
  intros Hr Ho Hf.
  destruct (Load_spec h key s Hf (GoMap_reachable_well_formed s Hr))
    as (s' & Hrun & _ & Hv).
  eauto.
Qed.



(** X4 [LoadAndDelete] (lines 257-275) returns the value the map held
    for the key, or [(nil, false)], and afterwards the map holds nothing
    for the key and is unchanged elsewhere; [Delete] (lines 279-281)
    leaves the same map. *)
Theorem LoadAndDelete_removes h key s :
  reachable s -> (0 < host_fuel h)%nat ->
  exists s', LoadAndDelete h key s = Returns (contents s !! key, s')
    /\ contents s' = delete key (contents s)
    /\ Delete h key s = Returns (tt, s').
Proof.
  intros Hr Hf.
  destruct (LoadAndDelete_spec h key s Hf (GoMap_reachable_well_formed s Hr))
    as (s' & Hrun & _ & Hv).
  exists s'. split; [exact Hrun|]. split; [exact Hv|].
  unfold Delete, bind. rewrite Hrun. reflexivity.
Qed.

(** X5 [Range] (lines 298-321) changes the value of no key.  It calls
    [f] on the pairs of the map one after the other, in some order [l]
    without repetition: on all of them when [f] returns [true] every time,
    and otherwise up to and including the first pair for which [f] returns
    [false]. *)
Theorem Range_calls h f s :
  reachable s -> order_ok h -> (0 < host_fuel h)%nat ->
  exists s' calls l,
    Range h f s = Returns (calls, s')
    /\ contents s' = contents s
    /\ l ≡ₚ map_to_list (contents s)
    /\ ((calls = l /\ Forall (fun kv => f kv.1 kv.2 = true) calls)
        \/ (exists front k v rest,
              calls = front ++ [(k, v)]
              /\ l = front ++ (k, v) :: rest
              /\ Forall (fun kv => f kv.1 kv.2 = true) front
              /\ f k v = false)).
Proof.
  intros Hr Ho Hf.
  destruct (Range_spec h f s Hf Ho (GoMap_reachable_well_formed s Hr))
    as (s' & calls & l & Hrun & _ & Hv & Hl & Hcalls).
  exists s', calls, l. auto.
Qed.

(** X6 A [Range] whose [f] always returns [true] visits every key that
    the map holds, with its value, exactly once. *)
Theorem Range_visits_all h f s :
  reachable s -> order_ok h -> (0 < host_fuel h)%nat ->
  (forall k v, f k v = true) ->
  exists s' calls,
    Range h f s = Returns (calls, s')
    /\ calls ≡ₚ map_to_list (contents s).
Proof.
  intros Hr Ho Hf Hall.
  destruct (Range_spec h f s Hf Ho (GoMap_reachable_well_formed s Hr))
    as (s' & calls & l & Hrun & _ & _ & Hl & Hcalls).
  exists s', calls. split; [exact Hrun|].
  destruct Hcalls as [[-> _]|(front & k & v & rest & _ & _ & _ & Hfalse)].
  - exact Hl.
  - rewrite Hall in Hfalse. discriminate.
Qed.

(** X7 What keeps the two maps of a [Map] together holds of every map
    that calls lead to from the zero value: the mutex is free between
    calls; [dirty] is nil exactly when [read] is not amended; no entry of
    [dirty] is expunged; the key of an expunged entry of [read.m] is not in
    [dirty]; every other entry of [read.m] is shared with [dirty]; no entry
    serves two keys; and [misses] stays below the length of [dirty]. *)
Theorem reachable_is_well_formed s : reachable s -> well_formed s.
Proof. apply GoMap_reachable_well_formed. Qed.



(** X10 A [Load] of a key that [read.m] has takes no lock and writes
    nothing: whatever the memory and the mutex, it returns what the entry
    holds and leaves the memory as it was. *)
Theorem Load_read_only h key s e :
  m (read s) !! key = Some e ->
  Load h key s = Returns (value_of (pointer_at s e), s).
Proof.
  intros Hr. unfold Load, bind. mred. rewrite Hr. mred.
  apply entry_load_run.
Qed.



End GoMapFacts.

Lemma example_host_order_ok : GoMap.order_ok GoMap.example_host.
Proof. intros d. reflexivity. Qed.

Lemma example_map_reachable : GoMap.reachable GoMap.example_map.
Proof.
  apply (GoMap.reachable_after GoMap.example_host (GoMap.OpStore 7%nat 42)
           GoMap.zero).
  - exact example_host_order_ok.
  - cbn. lia.
  - apply GoMap.reachable_zero.
  - vm_compute. reflexivity.
Qed.

Lemma Load_returns_contents_witness :
  exists s',
    GoMap.Load GoMap.example_host 7%nat GoMap.example_map
    = Returns (GoMap.contents GoMap.example_map !! 7%nat, s')
    /\ GoMap.contents s' = GoMap.contents GoMap.example_map.
Proof.
  apply (Load_returns_contents GoMap.example_host 7%nat GoMap.example_map).
  - exact example_map_reachable.
  - intros d. reflexivity.
  - cbn. lia.
Defined.



Lemma LoadAndDelete_removes_witness :
  exists s',
    GoMap.LoadAndDelete GoMap.example_host 7%nat GoMap.example_map
    = Returns (GoMap.contents GoMap.example_map !! 7%nat, s')
    /\ GoMap.contents s' = delete 7%nat (GoMap.contents GoMap.example_map)
    /\ GoMap.Delete GoMap.example_host 7%nat GoMap.example_map
       = Returns (tt, s').
Proof.
  apply (LoadAndDelete_removes GoMap.example_host 7%nat GoMap.example_map).
  - exact example_map_reachable.
  - cbn. lia.
Defined.

Lemma Range_calls_witness :
  exists s' calls l,
    GoMap.Range GoMap.example_host (fun _ v => v <? 10) GoMap.example_map
    = Returns (calls, s')
    /\ GoMap.contents s' = GoMap.contents GoMap.example_map
    /\ l ≡ₚ map_to_list (GoMap.contents GoMap.example_map)
    /\ ((calls = l /\ Forall (fun kv => (kv.2 <? 10) = true) calls)
        \/ (exists front k v rest,
              calls = front ++ [(k, v)]
              /\ l = front ++ (k, v) :: rest
              /\ Forall (fun kv => (kv.2 <? 10) = true) front
              /\ (v <? 10) = false)).
Proof.
  apply (Range_calls GoMap.example_host (fun _ v => v <? 10) GoMap.example_map).
  - exact example_map_reachable.
  - intros d. reflexivity.
  - cbn. lia.
Defined.

Lemma Range_visits_all_witness :
  exists s' calls,
    GoMap.Range GoMap.example_host (fun _ _ => true) GoMap.example_map
    = Returns (calls, s')
    /\ calls ≡ₚ map_to_list (GoMap.contents GoMap.example_map).
Proof.
  apply (Range_visits_all GoMap.example_host (fun _ _ => true)
           GoMap.example_map).
  - exact example_map_reachable.
  - intros d. reflexivity.
  - cbn. lia.
  - reflexivity.
Defined.

Lemma reachable_is_well_formed_witness :
  GoMap.well_formed GoMap.example_map.
Proof.
  apply (reachable_is_well_formed GoMap.example_map).
  exact example_map_reachable.
Defined.



Lemma Load_read_only_witness :
  GoMap.Load (GoMap.mkHost (mkRuntime (fun _ => false) 0) 0 map_to_list) 7%nat
    (GoMap.mkMap {[1%positive := GoMap.value_ptr 42]} (mkMutex 1 0)
       (GoMap.mkReadOnly {[7%nat := 1%positive]} true) None 0)
  = Returns
      (GoMap.value_of
         (GoMap.pointer_at
            (GoMap.mkMap {[1%positive := GoMap.value_ptr 42]} (mkMutex 1 0)
               (GoMap.mkReadOnly {[7%nat := 1%positive]} true) None 0)
            1%positive),
       GoMap.mkMap {[1%positive := GoMap.value_ptr 42]} (mkMutex 1 0)
         (GoMap.mkReadOnly {[7%nat := 1%positive]} true) None 0).
Proof.
  apply (Load_read_only
           (GoMap.mkHost (mkRuntime (fun _ => false) 0) 0 map_to_list) 7%nat
           (GoMap.mkMap {[1%positive := GoMap.value_ptr 42]} (mkMutex 1 0)
              (GoMap.mkReadOnly {[7%nat := 1%positive]} true) None 0)
           1%positive).
  vm_compute. reflexivity.
Defined.


(** ** Goroutines sharing the mutex: who wakes the waiters *)

Section WakeupFacts.
Import Wakeups.

Lemma unlocking_range g : 0 <= unlocking g <= 1.
Proof. unfold unlocking. destruct (at_pc g); lia. Qed.

Lemma keeping_range g : 0 <= keeping g <= 1.
Proof. unfold keeping. destruct (at_pc g); try lia. destruct (_ =? _); lia. Qed.

Lemma keeping_le_adding (gs : list goroutine) :
  tally keeping gs <= tally adding gs.
Proof.
  induction gs as [|a gs IH]; cbn [tally]; [lia|].
  assert (keeping a <= adding a).
  { unfold keeping, adding. destruct (at_pc a); try lia. destruct (_ =? _); lia. }
  lia.
Qed.

Lemma lockSlow_top_roles (r : runtime) (g : goroutine) :
  unlocking (lockSlow_top r g) = 0 /\ keeping (lockSlow_top r g) = 0.
Proof.
  unfold lockSlow_top.
  destruct (_ && runtime_canSpin _ _).
  - destruct (_ && _); split; reflexivity.
  - destruct (candidate _ _ _); split; reflexivity.
Qed.

Lemma wakeups_init (n : nat) : wakeups (init n).
Proof.
  constructor; cbn [init goroutines mutex state].
  - intros E. vm_compute in E. discriminate.
  - rewrite tally_replicate. change (keeping fresh) with 0.
    change (waiterCount 0) with 0. lia.
  - intros _ _ _ E. vm_compute in E. destruct (E eq_refl).
Qed.

Ltac retally2 gs i g g' Hi :=
  rewrite ?(tally_insert keeping gs i g g' Hi),
    ?(tally_insert unlocking gs i g g' Hi).

Ltac roles :=
  cbn [keeping unlocking holder queued waking adding signalling awake at_pc
       awoke delta goto set_waitStartTime set_starving set_awoke set_iter
       set_old set_new set_queueLifo set_delta Bool.eqb Z.b2z] in *.

(** Split [wakeups] of the configuration after the step into its fields,
    with the tallies expressed over the configuration before. *)
Ltac after_step2 gs i Hi :=
  regs;
  match type of Hi with
  | _ = Some ?g =>
      match goal with
      | |- wakeups (mkConfig (<[_:=?g']> _) _) =>
          constructor; cbn [goroutines mutex state sema];
          retally2 gs i g g' Hi
      end
  end.

Ltac arith2 :=
  unfold local_ok in *; regs; autorewrite with pack in *; roles;
  change (-11 =? -7) with false in *; change (-7 =? -7) with true in *;
  cbv iota in *;
  split_hyps; subst;
  rewrite ?wrap29_small in * by lia;
  cbn [Z.b2z negb andb orb] in *; autorewrite with pack;
  intros; try discriminate;
  repeat match goal with
         | H : ?a = ?a -> _ |- _ => specialize (H eq_refl)
         end;
  try lia.

Lemma wakeups_fire (n : nat) (c : config) (i : nat) (r : runtime) :
  Z.of_nat n < 2 ^ 28 -> invariant n c -> wakeups c -> wakeups (fire i r c).
Proof.
  intros Hn [Hlen Hloc Hsem Hw Hl Hmode] [Js Jk Ju]. unfold fire.
  destruct c as [gs [x sm]]; cbn [goroutines mutex state sema] in *.
  destruct (gs !! i) as [g|] eqn:Hi; [|constructor; assumption].
  pose proof (Forall_lookup_1 _ _ _ _ Hloc Hi) as Hg.
  pose proof (tally_lookup holder (fun g => proj1 (holder_range g)) gs i g Hi) as Bh.
  pose proof (tally_lookup queued (fun g => proj1 (queued_range g)) gs i g Hi) as Bq.
  pose proof (tally_lookup waking (fun g => proj1 (waking_range g)) gs i g Hi) as Bw.
  pose proof (tally_lookup adding (fun g => proj1 (adding_range g)) gs i g Hi) as Ba.
  pose proof (tally_lookup (signalling false)
                (fun g => proj1 (signalling_range false g)) gs i g Hi) as Bn.
  pose proof (tally_lookup (signalling true)
                (fun g => proj1 (signalling_range true g)) gs i g Hi) as Bt.
  pose proof (tally_lookup awake (fun g => proj1 (awake_range g)) gs i g Hi) as Bk.
  pose proof (tally_lookup unlocking (fun g => proj1 (unlocking_range g)) gs i g Hi)
    as Bu.
  pose proof (tally_lookup keeping (fun g => proj1 (keeping_range g)) gs i g Hi)
    as Bp.
  pose proof (tally_nonneg holder (fun g => proj1 (holder_range g)) gs) as Nh.
  pose proof (tally_nonneg queued (fun g => proj1 (queued_range g)) gs) as Nq.
  pose proof (tally_nonneg waking (fun g => proj1 (waking_range g)) gs) as Nw.
  pose proof (tally_nonneg adding (fun g => proj1 (adding_range g)) gs) as Na.
  pose proof (tally_nonneg (signalling false)
                (fun g => proj1 (signalling_range false g)) gs) as Nn.
  pose proof (tally_nonneg (signalling true)
                (fun g => proj1 (signalling_range true g)) gs) as Nt.
  pose proof (tally_nonneg awake (fun g => proj1 (awake_range g)) gs) as Nk.
  pose proof (tally_nonneg unlocking (fun g => proj1 (unlocking_range g)) gs) as Nu.
  pose proof (tally_nonneg keeping (fun g => proj1 (keeping_range g)) gs) as Np.
  pose proof (keeping_le_adding gs) as Bka.
  pose proof (keeping_le_adding (<[i:=fresh]> gs)) as Bka'.
  rewrite !(tally_insert _ gs i _ _ Hi) in Bka'.
  change (keeping fresh) with 0 in Bka'. change (adding fresh) with 0 in Bka'.
  pose proof (waiters_le_length gs) as Bold. rewrite Hlen in Bold.
  change (2 ^ 28) with 268435456 in Hn.
  cbv zeta in Hmode.
  unpack_word x l k s w. autorewrite with pack in Hw, Hl, Hmode, Js, Jk, Ju.
  destruct g as [p t st aw it o nw q d].
  unfold local_ok in Hg.
  destruct p; cbn [step at_pc]; cbn [at_pc] in Hg.
  - (* Idle *)
    after_step2 gs i Hi; destruct l, k, s; arith2.
  - (* Lock_fast *)
    regs. rewrite pack_eqb_0.
    destruct l, k, s; cbn [negb andb];
      try (after_step2 gs i Hi; arith2; fail).
    destruct (Z.eqb_spec w 0) as [->|Hw0]; [|after_step2 gs i Hi; arith2].
    change mutexLocked with (pack true false false 0).
    after_step2 gs i Hi; arith2.
  - (* lockSlow_entry *)
    regs.
    match goal with |- context [lockSlow_top r ?G] =>
      destruct (lockSlow_top_roles r G) as [Ru Rk];
        set (g' := lockSlow_top r G) in *; clearbody g'
    end.
    after_step2 gs i Hi; rewrite ?Ru, ?Rk; destruct l, k, s; arith2.
  - (* lockSlow_spinCAS *)
    regs. destruct Hg as (-> & -> & Hol & Hok & Hos).
    destruct (Z.eqb_spec (pack l k s w) o) as [<-|Hne].
    + autorewrite with pack in Hol, Hok, Hos. subst l k s.
      consts. autorewrite with pack.
      after_step2 gs i Hi; arith2.
    + after_step2 gs i Hi; destruct l, k, s; arith2.
  - (* lockSlow_spin *)
    regs.
    match goal with |- context [lockSlow_top r ?G] =>
      destruct (lockSlow_top_roles r G) as [Ru Rk];
        set (g' := lockSlow_top r G) in *; clearbody g'
    end.
    after_step2 gs i Hi; rewrite ?Ru, ?Rk; destruct l, k, s; arith2.
  - (* lockSlow_CAS *)
    regs. destruct Hg as [Hc Hst].
    destruct (Z.eqb_spec (pack l k s w) o) as [<-|Hne].
    + rewrite candidate_pack in Hc. consts. rewrite land_pack_5.
      destruct (aw && negb k); [discriminate|]. injection Hc as <-.
      assert (Hq : tally queued gs + tally waking gs + tally adding gs
                   < Z.of_nat n).
      { pose proof (waiters_le_length
                      (<[i:=mkG lockSlow_park t st aw it (pack l k s w)
                              (pack l k s w) q d]> gs)) as B.
        rewrite length_insert, Hlen in B.
        rewrite !(tally_insert _ gs i _ _ Hi) in B.
        cbn [queued waking adding at_pc] in B. lia. }
      destruct l, s; cbn [negb andb orb];
        try match goal with
            | |- context [goto lockSlow_park ?X] => generalize X; intros gX
            end;
        after_step2 gs i Hi;
        destruct aw, k, st; arith2.
    + after_step2 gs i Hi; destruct l, k, s; arith2.
  - (* lockSlow_park *)
    unfold semacquire. regs.
    destruct (Z.ltb_spec 0 sm);
      after_step2 gs i Hi; destruct l, k, s; arith2.
  - (* lockSlow_wakeup *)
    regs. unfold lockSlow_after_wakeup. regs. consts.
    rewrite land_pack_4, handoff_inconsistent_pack.
    destruct s; cbn [negb].
    + assert (l = false /\ k = false /\ (w =? 0) = false) as (-> & -> & Hw0).
      { roles. split_hyps. destruct l, k; cbn [Z.b2z] in *;
          repeat split; lia. }
      rewrite Hw0. cbn [orb]. rewrite handoff_delta_cases.
      autorewrite with pack.
      apply Z.eqb_neq in Hw0.
      match goal with
      | |- context [set_starving ?b _] => generalize b; intros st'
      end.
      destruct (Z.eqb_spec w 1) as [->|Hw1];
        destruct st'; cbn [negb orb]; after_step2 gs i Hi; arith2.
    + match goal with |- context [lockSlow_top r ?G] =>
        destruct (lockSlow_top_roles r G) as [Ru Rk];
          set (g' := lockSlow_top r G) in *; clearbody g'
      end.
      after_step2 gs i Hi; rewrite ?Ru, ?Rk; destruct l, k; arith2.
  - (* lockSlow_handoff *)
    regs.
    assert (l = false /\ k = false /\ s = true /\ 1 <= w) as (-> & -> & -> & Hw1).
    { roles. destruct s; split_hyps; [|lia].
      destruct l, k; cbn [Z.b2z] in *; repeat split; try lia; discriminate. }
    unfold Int32.add.
    destruct Hg as [-> | ->]; autorewrite with pack;
      after_step2 gs i Hi; arith2.
  - (* lockSlow_reread *)
    regs.
    match goal with |- context [lockSlow_top r ?G] =>
      destruct (lockSlow_top_roles r G) as [Ru Rk];
        set (g' := lockSlow_top r G) in *; clearbody g'
    end.
    after_step2 gs i Hi; rewrite ?Ru, ?Rk; destruct l, k, s; arith2.
  - (* Holding *)
    after_step2 gs i Hi; destruct l, k, s; arith2.
  - (* Unlock_add *)
    regs.
    assert (l = true) as ->
      by (roles; destruct l; cbn [Z.b2z] in *; [reflexivity | lia]).
    assert (Hwn : w < 268435456) by (destruct s; split_hyps; lia).
    unfold Int32.add. consts. autorewrite with pack.
    rewrite (wrap29_small w) by lia.
    destruct (negb false && negb k && negb s && (w =? 0)) eqn:Hz.
    + after_step2 gs i Hi; destruct k, s; try discriminate; arith2.
    + erewrite unlockSlow_pack by reflexivity. cbv iota.
      destruct s.
      * after_step2 gs i Hi; destruct k; arith2.
      * erewrite unlockSlow_top_pack by reflexivity.
        destruct (Z.eqb_spec w 0) as [->|Hw0], k; cbn [orb negb andb] in *;
          try discriminate;
          after_step2 gs i Hi; arith2.
  - (* unlockSlow_CAS *)
    regs. destruct Hg as (Hol & Hok & Hos & How & ->).
    destruct (Z.eqb_spec (pack l k s w) o) as [<-|Hne].
    + autorewrite with pack in Hol, Hok, Hos, How. subst l k s.
      unfold Int32.sub. consts. autorewrite with pack.
      after_step2 gs i Hi; arith2.
    + after_step2 gs i Hi; destruct l, k, s; arith2.
  - (* unlockSlow_wake *)
    destruct handoff; after_step2 gs i Hi; destruct l, k, s; arith2.
  - (* unlockSlow_reread *)
    regs.
    erewrite unlockSlow_top_pack by reflexivity.
    destruct (Z.eqb_spec w 0) as [->|Hw0], l, k, s; cbn [orb negb andb] in *;
      after_step2 gs i Hi; arith2.
  - (* Thrown *)
    destruct Hg.
Qed.

Lemma wakeups_hand_over (c : config) (i j : nat) :
  wakeups c -> wakeups (hand_over i j c).
Proof.
  intros Hw. unfold hand_over.
  destruct (goroutines c !! i) as [gi|] eqn:Hi; [|exact Hw].
  destruct (goroutines c !! j) as [gj|] eqn:Hj; [|exact Hw].
  destruct (at_pc gi) eqn:Pi; try exact Hw.
  destruct (at_pc gj) eqn:Pj; try exact Hw.
  assert (Hne : i <> j) by (intros ->; congruence).
  assert (Hj' : <[i:=goto Idle gi]> (goroutines c) !! j = Some gj)
    by (rewrite list_lookup_insert_ne; assumption).
  destruct Hw as [Js Jk Ju].
  destruct c as [gs m]; cbn [goroutines mutex] in *.
  assert (Hparts : forall f,
             f gi = 0 -> f (goto Holding gj) = 0 -> f gj = 0 ->
             f (goto Idle gi) = 0 ->
             tally f (<[j:=goto Holding gj]> (<[i:=goto Idle gi]> gs))
             = tally f gs).
  { intros f E1 E2 E3 E4.
    rewrite (tally_insert f _ j gj _ Hj'), (tally_insert f gs i gi _ Hi). lia. }
  constructor; cbn [goroutines mutex].
  - exact Js.
  - rewrite Hparts; [exact Jk|..]; unfold keeping; cbn; rewrite ?Pi, ?Pj;
      reflexivity.
  - rewrite Hparts; [exact Ju|..]; unfold unlocking; cbn; rewrite ?Pi, ?Pj;
      reflexivity.
Qed.

Lemma reachable_wakeups (n : nat) (c : config) :
  Z.of_nat n < 2 ^ 28 -> reachable n c -> wakeups c.
Proof.
  intros Hn Hr. induction Hr as [|c i r Hr IH|c i j Hr IH].
  - apply wakeups_init.
  - apply (wakeups_fire n); [exact Hn|apply reachable_invariant; assumption|exact IH].
  - apply wakeups_hand_over. exact IH.
Qed.

(** A part that is played is played by some goroutine. *)
Lemma tally_positive (f : goroutine -> Z) (gs : list goroutine) :
  (forall g, 0 <= f g) -> 1 <= tally f gs ->
  exists i g, gs !! i = Some g /\ 1 <= f g.
Proof.
  intros Hf. induction gs as [|a gs IH]; cbn [tally]; [lia|].
  intros Ht. destruct (Z_le_gt_dec 1 (f a)) as [Ha|Ha].
  - exists 0%nat, a. split; [reflexivity|exact Ha].
  - pose proof (Hf a). destruct IH as (i & g & Hi & Hg); [lia|].
    exists (S i), g. split; [exact Hi|exact Hg].
Qed.

(** X12 Wake-up signals are not wasted.  Among fewer than 2^28
    goroutines, in every reachable configuration: at most one signal is
    pending on the semaphore; and whenever a signal is pending, or a
    goroutine is about to release the semaphore (lines 237 and 248), some
    goroutine is parked in [runtime_SemacquireMutex] (line 151) to take
    it. *)
Theorem signals_have_takers (n : nat) (c : config) :
  Z.of_nat n < 2 ^ 28 ->
  reachable n c ->
  (sema (mutex c) = 0 \/ sema (mutex c) = 1)
  /\ (0 < sema (mutex c)
      \/ (exists i g h, goroutines c !! i = Some g
                        /\ at_pc g = unlockSlow_wake h) ->
      exists j gj, goroutines c !! j = Some gj /\ at_pc gj = lockSlow_park).
Proof.
  intros Hn Hr.
  destruct (reachable_invariant n c Hn Hr) as [Hlen Hloc Hsem Hw Hl Hmode].
  destruct (reachable_wakeups n c Hn Hr) as [Js Jk Ju].
  pose proof (tally_nonneg holder (fun g => proj1 (holder_range g))
                (goroutines c)) as Nh.
  pose proof (tally_nonneg queued (fun g => proj1 (queued_range g))
                (goroutines c)) as Nq.
  pose proof (tally_nonneg waking (fun g => proj1 (waking_range g))
                (goroutines c)) as Nw.
  pose proof (tally_nonneg adding (fun g => proj1 (adding_range g))
                (goroutines c)) as Na.
  pose proof (tally_nonneg (signalling false)
                (fun g => proj1 (signalling_range false g)) (goroutines c)) as Nn.
  pose proof (tally_nonneg (signalling true)
                (fun g => proj1 (signalling_range true g)) (goroutines c)) as Nt.
  pose proof (tally_nonneg awake (fun g => proj1 (awake_range g))
                (goroutines c)) as Nk.
  cbv zeta in Hmode.
  assert (Hq : sema (mutex c) + tally (signalling false) (goroutines c)
               + tally (signalling true) (goroutines c)
               <= tally queued (goroutines c) /\ sema (mutex c) <= 1).
  { destruct (starving_bit (state (mutex c))).
    - specialize (Js eq_refl). split_hyps. lia.
    - split_hyps. destruct (woken (state (mutex c))); cbn [Z.b2z] in *; lia. }
  destruct Hq as [Hq Hs1]. split; [lia|].
  intros Hsig.
  assert (1 <= tally queued (goroutines c)) as Hq1.
  { destruct Hsig as [Hs|(i & g & h & Hi & Hp)]; [lia|].
    pose proof (tally_lookup (signalling h)
                  (fun g => proj1 (signalling_range h g)) (goroutines c) i g Hi)
      as B.
    unfold signalling at 1 in B. rewrite Hp, Bool.eqb_reflx in B.
    destruct h; lia. }
  destruct (tally_positive queued (goroutines c)
              (fun g => proj1 (queued_range g)) Hq1) as (j & gj & Hj & Hg).
  exists j, gj. split; [exact Hj|].
  unfold queued in Hg. destruct (at_pc gj); try lia. reflexivity.
Qed.

(** X13 A starving mutex has waiters (the comment of lines 122-125), and
    its woken bit is clear: among fewer than 2^28 goroutines, in every
    reachable configuration whose state word has [mutexStarving] set, the
    waiter count is at least one and [mutexWoken] is not set. *)
Theorem starving_has_waiters (n : nat) (c : config) :
  Z.of_nat n < 2 ^ 28 ->
  reachable n c ->
  starving_bit (state (mutex c)) = true ->
  1 <= waiterCount (state (mutex c)) /\ woken (state (mutex c)) = false.
Proof.
  intros Hn Hr Hs.
  destruct (reachable_invariant n c Hn Hr) as [_ _ _ _ _ Hmode].
  destruct (reachable_wakeups n c Hn Hr) as [Js _ _].
  split; [exact (Js Hs)|].
  cbv zeta in Hmode. rewrite Hs in Hmode. exact (proj1 Hmode).
Qed.

(** X14 No wake-up is lost.  Among fewer than 2^28 goroutines, in every
    reachable configuration in which a goroutine is parked in
    [runtime_SemacquireMutex] (line 151), a signal is pending on the
    semaphore, or some goroutine holds the mutex, is in [unlockSlow], has
    taken a signal, or is in the loop of [lockSlow] flagged as woken. *)
Theorem no_lost_wakeup (n : nat) (c : config) (i : nat) (g : goroutine) :
  Z.of_nat n < 2 ^ 28 ->
  reachable n c ->
  goroutines c !! i = Some g ->
  at_pc g = lockSlow_park ->
  0 < sema (mutex c)
  \/ exists j gj, goroutines c !! j = Some gj /\ on_the_way gj = true.
Proof.
  intros Hn Hr Hi Hp.
  destruct (reachable_invariant n c Hn Hr) as [Hlen Hloc Hsem Hw Hl Hmode].
  destruct (reachable_wakeups n c Hn Hr) as [Js Jk Ju].
  pose proof (tally_lookup queued (fun g => proj1 (queued_range g))
                (goroutines c) i g Hi) as Bq.
  unfold queued at 1 in Bq. rewrite Hp in Bq.
  pose proof (tally_nonneg holder (fun g => proj1 (holder_range g))
                (goroutines c)) as Nh.
  pose proof (tally_nonneg waking (fun g => proj1 (waking_range g))
                (goroutines c)) as Nw.
  pose proof (tally_nonneg adding (fun g => proj1 (adding_range g))
                (goroutines c)) as Na.
  pose proof (tally_nonneg (signalling false)
                (fun g => proj1 (signalling_range false g)) (goroutines c)) as Nn.
  pose proof (tally_nonneg (signalling true)
                (fun g => proj1 (signalling_range true g)) (goroutines c)) as Nt.
  pose proof (tally_nonneg awake (fun g => proj1 (awake_range g))
                (goroutines c)) as Nk.
  pose proof (tally_nonneg unlocking (fun g => proj1 (unlocking_range g))
                (goroutines c)) as Nu.
  cbv zeta in Hmode.
  assert (Hsum : 1 <= sema (mutex c)
                 \/ 1 <= tally holder (goroutines c)
                 \/ 1 <= tally awake (goroutines c)
                 \/ 1 <= tally waking (goroutines c)
                 \/ 1 <= tally adding (goroutines c)
                 \/ 1 <= tally (signalling false) (goroutines c)
                 \/ 1 <= tally (signalling true) (goroutines c)
                 \/ 1 <= tally unlocking (goroutines c)).
  { destruct (starving_bit (state (mutex c))) eqn:Es.
    - split_hyps. lia.
    - specialize (fun H1 H2 => Ju H1 H2 eq_refl).
      destruct (locked (state (mutex c))); cbn [Z.b2z] in Hl; [lia|].
      destruct (woken (state (mutex c))); cbn [Z.b2z] in Hmode;
        [split_hyps; lia|].
      specialize (Ju eq_refl eq_refl). split_hyps. lia. }
  assert (Hrole : forall f, (forall g, 0 <= f g) ->
            (forall g, 1 <= f g -> on_the_way g = true) ->
            1 <= tally f (goroutines c) ->
            exists j gj, goroutines c !! j = Some gj /\ on_the_way gj = true).
  { intros f Hf Hon Ht.
    destruct (tally_positive f (goroutines c) Hf Ht) as (j & gj & Hj & Hg).
    exists j, gj. split; [exact Hj|apply Hon; exact Hg]. }
  destruct Hsum as [Hs|[Hs|[Hs|[Hs|[Hs|[Hs|[Hs|Hs]]]]]]]; [left; lia|right..].
  - apply (Hrole holder); [apply holder_range| |exact Hs].
    intros g0. unfold holder, on_the_way. destruct (at_pc g0); auto; lia.
  - apply (Hrole awake); [apply awake_range| |exact Hs].
    intros g0. unfold awake, on_the_way.
    destruct (at_pc g0), (awoke g0); cbn [Z.b2z]; auto; lia.
  - apply (Hrole waking); [apply waking_range| |exact Hs].
    intros g0. unfold waking, on_the_way. destruct (at_pc g0); auto; lia.
  - apply (Hrole adding); [apply adding_range| |exact Hs].
    intros g0. unfold adding, on_the_way. destruct (at_pc g0); auto; lia.
  - apply (Hrole (signalling false)); [apply signalling_range| |exact Hs].
    intros g0. unfold signalling, on_the_way. destruct (at_pc g0); auto; lia.
  - apply (Hrole (signalling true)); [apply signalling_range| |exact Hs].
    intros g0. unfold signalling, on_the_way. destruct (at_pc g0); auto; lia.
  - apply (Hrole unlocking); [apply unlocking_range| |exact Hs].
    intros g0. unfold unlocking, on_the_way. destruct (at_pc g0); auto; lia.
Qed.

End WakeupFacts.

(** After the hand-off schedule a signal is pending and goroutine 1 is
    parked. *)
Lemma signals_have_takers_witness :
  sema (mutex (run Wakeups.handoff_schedule (init 3))) = 1
  /\ exists j gj,
       goroutines (run Wakeups.handoff_schedule (init 3)) !! j = Some gj
       /\ at_pc gj = lockSlow_park.
Proof.
  split; [reflexivity|].
  apply (signals_have_takers 3 (run Wakeups.handoff_schedule (init 3))).
  - reflexivity.
  - apply reachable_run. apply reachable_init.
  - left. vm_compute. reflexivity.
Defined.

Lemma starving_has_waiters_witness :
  state (mutex (run Wakeups.starving_schedule (init 3))) = 13
  /\ 1 <= waiterCount (state (mutex (run Wakeups.starving_schedule (init 3))))
  /\ woken (state (mutex (run Wakeups.starving_schedule (init 3)))) = false.
Proof.
  split; [reflexivity|].
  apply (starving_has_waiters 3 (run Wakeups.starving_schedule (init 3))).
  - reflexivity.
  - apply reachable_run. apply reachable_init.
  - vm_compute. reflexivity.
Defined.

Lemma no_lost_wakeup_witness :
  0 < sema (mutex (run Wakeups.parked_schedule (init 2)))
  \/ exists j gj,
       goroutines (run Wakeups.parked_schedule (init 2)) !! j = Some gj
       /\ Wakeups.on_the_way gj = true.
Proof.
  apply (no_lost_wakeup 2 (run Wakeups.parked_schedule (init 2)) 1%nat
           (mkG lockSlow_park 0 false false 0 1 9 false 0)).
  - reflexivity.
  - apply reachable_run. apply reachable_init.
  - vm_compute. reflexivity.
  - reflexivity.
Defined.

(** ** The earlier mutex shared by goroutines *)

Section LegacyFacts.
Import MutexLegacy LegacySystem.

(** *** The state word, field by field *)

Lemma land_low2 (x m : Z) : 0 <= m < 4 -> Z.land x m = Z.land (x mod 4) m.
Proof.
  intros Hm.
  change 4 with (2 ^ 2). rewrite <- Z.land_ones by lia.
  rewrite <- Z.land_assoc. f_equal.
  change (Z.ones 2) with 3.
  assert (m = 0 \/ m = 1 \/ m = 2 \/ m = 3) as H by lia.
  destruct H as [->|[->|[->| ->]]]; reflexivity.
Qed.

Lemma low2_mod (w r : Z) : 0 <= r < 4 -> (4 * w + r) mod 4 = r.
Proof. intros. Z.div_mod_to_equations. lia. Qed.

Lemma low2_div (w r : Z) : 0 <= r < 4 -> (4 * w + r) / 4 = w.
Proof. intros. Z.div_mod_to_equations. lia. Qed.

Lemma wrap_low2 (w r : Z) :
  0 <= r < 4 -> Int32.wrap (4 * w + r) = 4 * wrap30 w + r.
Proof.
  intros. unfold Int32.wrap, wrap30.
  change (2 ^ 31) with 2147483648. change (2 ^ 32) with 4294967296.
  change (2 ^ 29) with 536870912. change (2 ^ 30) with 1073741824.
  Z.div_mod_to_equations. lia.
Qed.

Lemma wrap30_small (w : Z) : - 2 ^ 29 <= w < 2 ^ 29 -> wrap30 w = w.
Proof.
  intros. unfold wrap30.
  change (2 ^ 29) with 536870912 in *. change (2 ^ 30) with 1073741824.
  Z.div_mod_to_equations. lia.
Qed.

(** Every word is the packing of its three fields. *)
Lemma unpack2 (x : Z) : x = pack (locked x) (woken x) (waiterCount x).
Proof.
  unfold pack, locked, woken, waiterCount, mutexLocked, mutexWoken,
    mutexWaiterShift.
  rewrite Z.shiftr_div_pow2 by lia. change (2 ^ 2) with 4.
  rewrite (land_low2 x 1), (land_low2 x 2) by lia.
  pose proof (Z.div_mod x 4 ltac:(lia)) as E.
  assert (x mod 4 = 0 \/ x mod 4 = 1 \/ x mod 4 = 2 \/ x mod 4 = 3) as H
    by (pose proof (Z.mod_pos_bound x 4); lia).
  destruct H as [H|[H|[H|H]]]; rewrite H in *; lands;
    cbn [Z.eqb negb Z.b2z]; lia.
Qed.

Section Pack2.
Variables (l k : bool) (w : Z).

Let low : 0 <= Z.b2z l + 2 * Z.b2z k < 4.
Proof. destruct l, k; cbn; lia. Qed.

Ltac fields2 :=
  unfold pack, locked, woken, waiterCount, mutexLocked, mutexWoken,
    mutexWaiterShift;
  rewrite ?lor_as_add, ?ldiff_as_sub;
  repeat rewrite (land_low2 (4 * _ + _)) by lia;
  rewrite ?low2_mod by apply low;
  destruct l, k; cbn [Z.b2z]; lands; cbn [Z.eqb negb andb orb Z.b2z];
  try reflexivity; try lia.

Lemma pack2_locked : locked (pack l k w) = l.
Proof. fields2. Qed.
Lemma pack2_woken : woken (pack l k w) = k.
Proof. fields2. Qed.
Lemma pack2_waiterCount : waiterCount (pack l k w) = w.
Proof.
  unfold waiterCount, pack, mutexWaiterShift.
  rewrite Z.shiftr_div_pow2 by lia. apply low2_div, low.
Qed.
Lemma pack2_shiftr : Z.shiftr (pack l k w) 2 = w.
Proof. apply pack2_waiterCount. Qed.
Lemma pack2_land_1 : (Z.land (pack l k w) 1 =? 0) = negb l.
Proof. fields2. Qed.
Lemma pack2_land_3 : (Z.land (pack l k w) 3 =? 0) = negb l && negb k.
Proof. fields2. Qed.
Lemma pack2_lor_1 : Z.lor (pack l k w) 1 = pack true k w.
Proof. fields2. Qed.
Lemma pack2_lor_2 : Z.lor (pack l k w) 2 = pack l true w.
Proof. fields2. Qed.
Lemma pack2_ldiff_2 : Z.ldiff (pack l k w) 2 = pack l false w.
Proof. fields2. Qed.
Lemma pack2_wrap : Int32.wrap (pack l k w) = pack l k (wrap30 w).
Proof. unfold pack. apply wrap_low2, low. Qed.
Lemma pack2_add_4 : pack l k w + 4 = pack l k (w + 1).
Proof. unfold pack. lia. Qed.
Lemma pack2_sub_4 : pack l k w - 4 = pack l k (w - 1).
Proof. unfold pack. lia. Qed.
Lemma pack2_eqb_0 : (pack l k w =? 0) = negb l && negb k && (w =? 0).
Proof.
  destruct (Z.eqb_spec w 0) as [->|Hw];
    destruct l, k; unfold pack; cbn [Z.b2z negb andb]; lia.
Qed.
End Pack2.

Lemma pack2_unlocked_add_1 k w : pack false k w + 1 = pack true k w.
Proof. unfold pack. cbn [Z.b2z]. lia. Qed.
Lemma pack2_locked_add_m1 k w : pack true k w + -1 = pack false k w.
Proof. unfold pack. cbn [Z.b2z]. lia. Qed.
Lemma pack2_locked_add_1 k w :
  pack true k w + 1 = pack false (negb k) (if k then w + 1 else w).
Proof. destruct k; unfold pack; cbn [Z.b2z negb]; lia. Qed.

Create Rewrite HintDb pack2.
#[local] Hint Rewrite pack2_locked pack2_woken pack2_waiterCount pack2_shiftr
  pack2_land_1 pack2_land_3 pack2_lor_1 pack2_lor_2 pack2_ldiff_2 pack2_wrap
  pack2_add_4 pack2_sub_4 pack2_eqb_0 pack2_unlocked_add_1
  pack2_locked_add_m1 pack2_locked_add_1 : pack2.

Ltac consts2 :=
  cbv [mutexLocked mutexWoken mutexWaiterShift Int32.add Int32.sub] in *;
  change (Z.lor 1 2) with 3 in *;
  change (Z.shiftl 1 2) with 4 in *; change (- (1)) with (-1) in *.

Ltac unpack_word2 x l k w :=
  rewrite (unpack2 x) in *;
  set (l := locked x) in *; set (k := woken x) in *;
  set (w := waiterCount x) in *;
  clearbody l k w.

Ltac regs2 :=
  cbn [at_pc awoke old new goto set_awoke set_old set_new
       state sema set_state set_sema semrelease fst snd] in *.

Lemma legacy_candidate_pack (l k : bool) (w : Z) (aw : bool) :
  candidate (pack l k w) aw
  = pack true (k && negb aw) (if l then wrap30 (w + 1) else w).
Proof.
  unfold candidate. consts2. autorewrite with pack2.
  destruct l, aw; cbn [negb andb]; autorewrite with pack2;
    rewrite ?andb_true_r, ?andb_false_r; reflexivity.
Qed.

Lemma legacy_Unlock_top_pack (g : goroutine) (l k : bool) (w : Z) :
  old g = pack l k w ->
  Unlock_top g =
  if (w =? 0) || l || k then goto Idle g
  else goto Unlock_CAS (set_new (pack false true (wrap30 (w - 1))) g).
Proof.
  intros E. unfold Unlock_top. rewrite E. consts2. autorewrite with pack2.
  destruct (w =? 0), l, k; cbn [negb orb andb]; autorewrite with pack2;
    reflexivity.
Qed.

Lemma legacy_Unlock_check_pack (g : goroutine) (l k : bool) (w : Z) :
  new g = pack l k w ->
  Unlock_check g =
  if l then goto (Panicked unlock_of_unlocked) g
  else Unlock_top (set_old (pack l k w) g).
Proof.
  intros E. unfold Unlock_check. rewrite E. consts2.
  destruct l; autorewrite with pack2; cbn [negb]; reflexivity.
Qed.

(** *** Counting *)

Section LegacyTally.
Variable f : goroutine -> Z.

Lemma legacy_tally_insert (gs : list goroutine) (i : nat) (g g' : goroutine) :
  gs !! i = Some g ->
  tally f (<[i:=g']> gs) = tally f gs - f g + f g'.
Proof.
  revert i. induction gs as [|a gs IH]; intros [|i] H; try discriminate.
  - injection H as ->. cbn. lia.
  - cbn in H. cbn [tally]. change (<[S i:=g']> (a :: gs)) with (a :: <[i:=g']> gs).
    cbn [tally]. rewrite (IH i H). lia.
Qed.

Lemma legacy_tally_replicate (n : nat) (g : goroutine) :
  tally f (replicate n g) = Z.of_nat n * f g.
Proof. induction n as [|n IH]; cbn [replicate tally]; lia. Qed.

Hypothesis f_nonneg : forall g, 0 <= f g.

Lemma legacy_tally_nonneg (gs : list goroutine) : 0 <= tally f gs.
Proof.
  induction gs as [|a gs IH]; cbn [tally]; [lia|].
  pose proof (f_nonneg a). lia.
Qed.

Lemma legacy_tally_lookup (gs : list goroutine) (i : nat) (g : goroutine) :
  gs !! i = Some g -> f g <= tally f gs.
Proof.
  revert i. induction gs as [|a gs IH]; intros [|i] H; try discriminate.
  - injection H as ->. cbn. pose proof (legacy_tally_nonneg gs). lia.
  - cbn in H. cbn [tally]. pose proof (IH i H). pose proof (f_nonneg a). lia.
Qed.

Lemma legacy_tally_unique (gs : list goroutine) (i j : nat) (gi gj : goroutine) :
  tally f gs <= 1 ->
  gs !! i = Some gi -> gs !! j = Some gj -> f gi = 1 -> f gj = 1 -> i = j.
Proof.
  revert i j. induction gs as [|a gs IH]; intros [|i] [|j] Hle Hi Hj Fi Fj;
    try discriminate; auto.
  - injection Hi as ->. cbn in Hj. cbn [tally] in Hle.
    pose proof (legacy_tally_lookup gs j gj Hj). lia.
  - injection Hj as ->. cbn in Hi. cbn [tally] in Hle.
    pose proof (legacy_tally_lookup gs i gi Hi). lia.
  - cbn in Hi, Hj. cbn [tally] in Hle. pose proof (f_nonneg a).
    f_equal. apply IH; auto. lia.
Qed.
End LegacyTally.

Lemma legacy_holder_range g : 0 <= holder g <= 1.
Proof. unfold holder. destruct (at_pc g); lia. Qed.
Lemma legacy_queued_range g : 0 <= queued g <= 1.
Proof. unfold queued. destruct (at_pc g); lia. Qed.
Lemma legacy_signalling_range g : 0 <= signalling g <= 1.
Proof. unfold signalling. destruct (at_pc g); lia. Qed.
Lemma legacy_awake_range g : 0 <= awake g <= 1.
Proof. unfold awake. destruct (at_pc g), (awoke g); cbn; lia. Qed.

Lemma legacy_queued_le_length (gs : list goroutine) :
  tally queued gs <= Z.of_nat (length gs).
Proof.
  induction gs as [|a gs IH]; cbn [tally length]; [lia|].
  pose proof (legacy_queued_range a). lia.
Qed.

(** *** Every step keeps the invariant *)

Lemma legacy_invariant_init (n : nat) : invariant n (init n).
Proof.
  unfold init. constructor; cbn [goroutines mutex state sema].
  - apply length_replicate.
  - apply Forall_replicate. exact I.
  - lia.
  - discriminate.
  - rewrite legacy_tally_replicate. change (locked 0) with false.
    change (holder fresh) with 0. cbn [Z.b2z]. lia.
  - rewrite !legacy_tally_replicate. change (woken 0) with false.
    change (awake fresh) with 0. change (signalling fresh) with 0.
    cbn [Z.b2z]. lia.
  - rewrite !legacy_tally_replicate. change (waiterCount 0) with 0.
    change (queued fresh) with 0. change (signalling fresh) with 0. lia.
Qed.

Ltac retally3 gs i g g' Hi :=
  rewrite ?(legacy_tally_insert holder gs i g g' Hi),
    ?(legacy_tally_insert queued gs i g g' Hi),
    ?(legacy_tally_insert signalling gs i g g' Hi),
    ?(legacy_tally_insert awake gs i g g' Hi).

Ltac roles3 :=
  cbn [holder queued signalling awake at_pc awoke goto set_awoke set_old
       set_new Z.b2z] in *.

Ltac after_step3 gs i Hi Hlen :=
  regs2;
  match type of Hi with
  | _ = Some ?g =>
      match goal with
      | |- invariant _ (mkConfig (<[_:=?g']> _) _) =>
          let Blen := fresh "Blen" in
          pose proof (legacy_queued_le_length (<[i:=g']> gs)) as Blen;
          rewrite length_insert, Hlen in Blen;
          rewrite ?(legacy_tally_insert queued gs i g g' Hi) in Blen;
          constructor; cbn [goroutines mutex state sema];
          [ now rewrite length_insert
          | apply Forall_insert; [assumption|]
          | idtac | idtac | idtac | idtac | idtac ];
          retally3 gs i g g' Hi
      end
  end.

Ltac split_hyps3 :=
  repeat match goal with
  | H : _ /\ _ |- _ => destruct H
  end.

Ltac arith3 :=
  unfold local_ok; consts2; regs2; autorewrite with pack2 in *; roles3;
  split_hyps3; subst;
  rewrite ?wrap30_small in * by lia;
  cbn [Z.b2z negb andb orb] in *; autorewrite with pack2;
  repeat split; try lia; try exact I; auto.

Lemma legacy_invariant_fire (n : nat) (c : config) (i : nat) :
  Z.of_nat n < 2 ^ 29 -> invariant n c -> invariant n (fire i c).
Proof.
  intros Hn [Hlen Hloc Hsem Hw Hl Hk Hc]. unfold fire.
  destruct c as [gs [x sm]]; cbn [goroutines mutex state sema] in *.
  destruct (gs !! i) as [g|] eqn:Hi; [|constructor; assumption].
  pose proof (Forall_lookup_1 _ _ _ _ Hloc Hi) as Hg.
  pose proof (legacy_tally_lookup holder (fun g => proj1 (legacy_holder_range g))
                gs i g Hi) as Bh.
  pose proof (legacy_tally_lookup queued (fun g => proj1 (legacy_queued_range g))
                gs i g Hi) as Bq.
  pose proof (legacy_tally_lookup signalling
                (fun g => proj1 (legacy_signalling_range g)) gs i g Hi) as Bn.
  pose proof (legacy_tally_lookup awake (fun g => proj1 (legacy_awake_range g))
                gs i g Hi) as Bk.
  pose proof (legacy_tally_nonneg holder (fun g => proj1 (legacy_holder_range g))
                gs) as Nh.
  pose proof (legacy_tally_nonneg queued (fun g => proj1 (legacy_queued_range g))
                gs) as Nq.
  pose proof (legacy_tally_nonneg signalling
                (fun g => proj1 (legacy_signalling_range g)) gs) as Nn.
  pose proof (legacy_tally_nonneg awake (fun g => proj1 (legacy_awake_range g))
                gs) as Nk.
  pose proof (legacy_queued_le_length gs) as Bold. rewrite Hlen in Bold.
  change (2 ^ 29) with 536870912 in Hn.
  unpack_word2 x l k w. autorewrite with pack2 in Hw, Hl, Hk, Hc.
  destruct g as [p aw o nw].
  unfold local_ok in Hg.
  destruct p; cbn [step at_pc]; cbn [at_pc] in Hg.
  - (* Idle *)
    after_step3 gs i Hi Hlen; destruct l, k; arith3.
  - (* Lock_fast *)
    regs2. rewrite pack2_eqb_0.
    destruct l, k; cbn [negb andb];
      try (after_step3 gs i Hi Hlen; arith3; fail).
    destruct (Z.eqb_spec w 0) as [->|Hw0]; [|after_step3 gs i Hi Hlen; arith3].
    change mutexLocked with (pack true false 0).
    after_step3 gs i Hi Hlen; arith3.
  - (* Lock_load *)
    regs2. after_step3 gs i Hi Hlen; destruct l, k, aw; arith3.
  - (* Lock_CAS *)
    regs2.
    destruct (Z.eqb_spec (pack l k w) o) as [<-|Hne].
    + rewrite legacy_candidate_pack in Hg. subst nw.
      consts2. rewrite pack2_land_1.
      destruct l; cbn [negb];
        after_step3 gs i Hi Hlen; destruct aw, k; arith3.
    + after_step3 gs i Hi Hlen; destruct l, k, aw; arith3.
  - (* Lock_park *)
    unfold semacquire. regs2.
    destruct (Z.ltb_spec 0 sm);
      after_step3 gs i Hi Hlen; destruct l, k; arith3.
  - (* Holding *)
    after_step3 gs i Hi Hlen; destruct l, k; arith3.
  - (* Unlock_add *)
    regs2.
    assert (l = true) as ->
      by (roles3; destruct l; cbn [Z.b2z] in *; [reflexivity | lia]).
    assert (Hwn : w < 536870912) by lia.
    unfold Int32.add. consts2. autorewrite with pack2.
    rewrite (wrap30_small w) by lia.
    erewrite legacy_Unlock_check_pack by reflexivity. cbv iota.
    erewrite legacy_Unlock_top_pack by reflexivity.
    destruct (Z.eqb_spec w 0) as [->|Hw0], k; cbn [orb negb andb] in *;
      after_step3 gs i Hi Hlen; arith3.
  - (* Unlock_CAS *)
    regs2. destruct Hg as (Hol & Hok & How & ->).
    destruct (Z.eqb_spec (pack l k w) o) as [<-|Hne].
    + autorewrite with pack2 in Hol, Hok, How. subst l k.
      unfold Int32.sub. consts2. autorewrite with pack2.
      after_step3 gs i Hi Hlen; arith3.
    + after_step3 gs i Hi Hlen; destruct l, k; arith3.
  - (* Unlock_wake *)
    after_step3 gs i Hi Hlen; destruct l, k; arith3.
  - (* Unlock_reread *)
    regs2.
    erewrite legacy_Unlock_top_pack by reflexivity.
    destruct (Z.eqb_spec w 0) as [->|Hw0], l, k; cbn [orb negb andb] in *;
      after_step3 gs i Hi Hlen; arith3.
  - (* Panicked *)
    destruct Hg.
Qed.

Lemma legacy_invariant_hand_over (n : nat) (c : config) (i j : nat) :
  invariant n c -> invariant n (hand_over i j c).
Proof.
  intros Hinv. unfold hand_over.
  destruct (goroutines c !! i) as [gi|] eqn:Hi; [|exact Hinv].
  destruct (goroutines c !! j) as [gj|] eqn:Hj; [|exact Hinv].
  destruct (at_pc gi) eqn:Pi; try exact Hinv.
  destruct (at_pc gj) eqn:Pj; try exact Hinv.
  assert (Hne : i <> j) by (intros ->; congruence).
  assert (Hj' : <[i:=goto Idle gi]> (goroutines c) !! j = Some gj)
    by (rewrite list_lookup_insert_ne; assumption).
  destruct Hinv as [Hlen Hloc Hsem Hw Hl Hk Hc].
  destruct c as [gs m]; cbn [goroutines mutex] in *.
  assert (Hparts : forall f,
             f gi = f (goto Holding gj) -> f gj = f (goto Idle gi) ->
             tally f (<[j:=goto Holding gj]> (<[i:=goto Idle gi]> gs))
             = tally f gs).
  { intros f E1 E2.
    rewrite (legacy_tally_insert f _ j gj _ Hj'),
      (legacy_tally_insert f gs i gi _ Hi). lia. }
  constructor; cbn [goroutines mutex].
  - now rewrite !length_insert.
  - apply Forall_insert; [apply Forall_insert; [assumption|]|];
      unfold local_ok; cbn; exact I.
  - exact Hsem.
  - exact Hw.
  - rewrite Hparts; [exact Hl| |]; unfold holder; cbn; rewrite ?Pi, ?Pj;
      reflexivity.
  - rewrite !Hparts; [exact Hk|..];
      unfold signalling, awake; cbn; rewrite ?Pi, ?Pj; reflexivity.
  - rewrite !Hparts; [exact Hc|..];
      unfold queued, signalling; cbn; rewrite ?Pi, ?Pj; reflexivity.
Qed.

Lemma legacy_reachable_invariant (n : nat) (c : config) :
  Z.of_nat n < 2 ^ 29 -> reachable n c -> invariant n c.
Proof.
  intros Hn Hr. induction Hr as [|c i Hr IH|c i j Hr IH].
  - apply legacy_invariant_init.
  - apply legacy_invariant_fire; assumption.
  - apply legacy_invariant_hand_over; assumption.
Qed.

Lemma legacy_reachable_run (n : nat) (sched : list nat) :
  forall c, reachable n c -> reachable n (run sched c).
Proof.
  induction sched as [|i sched IH]; intros c Hc; [exact Hc|].
  cbn [run]. apply IH. constructor. exact Hc.
Qed.

Lemma legacy_step_acquiring (g : goroutine) (m : Mutex) :
  acquiring (at_pc g) = true ->
  let g' := (step g m).1.2 in
  acquiring (at_pc g') = true \/ at_pc g' = Holding.
Proof.
  destruct g as [p aw o nw]. cbn [at_pc].
  destruct p; try discriminate; intros _; cbn [step at_pc]; regs2.
  - destruct (state m =? 0); cbn; auto.
  - cbn; auto.
  - destruct (state m =? o); [|cbn; auto].
    destruct (_ =? 0); cbn; auto.
  - destruct (semacquire m); cbn; auto.
Qed.

(** *** An unlocker stays until a wake-up is under way *)

Lemma legacy_unlocking_range g : 0 <= unlocking g <= 1.
Proof. unfold unlocking. destruct (at_pc g); lia. Qed.

Lemma unlocker_present_init (n : nat) : unlocker_present (init n).
Proof.
  unfold unlocker_present. cbn [init mutex state].
  intros _ _ E. vm_compute in E. destruct (E eq_refl).
Qed.

Ltac roles4 :=
  cbn [unlocking holder queued signalling awake at_pc awoke goto set_awoke
       set_old set_new Z.b2z] in *.

Ltac after_step4 gs i Hi :=
  regs2; unfold unlocker_present; cbn [goroutines mutex state sema];
  match type of Hi with
  | _ = Some ?g =>
      match goal with
      | |- context [tally unlocking (<[_:=?g']> _)] =>
          rewrite (legacy_tally_insert unlocking gs i g g' Hi)
      end
  end.

Ltac arith4 :=
  unfold local_ok in *; consts2; regs2; autorewrite with pack2 in *; roles4;
  split_hyps3; subst;
  rewrite ?wrap30_small in * by lia;
  cbn [Z.b2z negb andb orb] in *; autorewrite with pack2;
  intros; try discriminate;
  repeat match goal with
         | H : ?a = ?a -> _ |- _ => specialize (H eq_refl)
         end;
  try lia.

Lemma unlocker_present_fire (n : nat) (c : config) (i : nat) :
  Z.of_nat n < 2 ^ 29 -> invariant n c ->
  unlocker_present c -> unlocker_present (fire i c).
Proof.
  intros Hn [Hlen Hloc Hsem Hw Hl Hk Hc] Ju. unfold fire.
  unfold unlocker_present in Ju.
  destruct c as [gs [x sm]]; cbn [goroutines mutex state sema] in *.
  destruct (gs !! i) as [g|] eqn:Hi; [|exact Ju].
  pose proof (Forall_lookup_1 _ _ _ _ Hloc Hi) as Hg.
  pose proof (legacy_tally_lookup holder (fun g => proj1 (legacy_holder_range g))
                gs i g Hi) as Bh.
  pose proof (legacy_tally_lookup queued (fun g => proj1 (legacy_queued_range g))
                gs i g Hi) as Bq.
  pose proof (legacy_tally_lookup signalling
                (fun g => proj1 (legacy_signalling_range g)) gs i g Hi) as Bn.
  pose proof (legacy_tally_lookup awake (fun g => proj1 (legacy_awake_range g))
                gs i g Hi) as Bk.
  pose proof (legacy_tally_lookup unlocking
                (fun g => proj1 (legacy_unlocking_range g)) gs i g Hi) as Bu.
  pose proof (legacy_tally_nonneg holder (fun g => proj1 (legacy_holder_range g))
                gs) as Nh.
  pose proof (legacy_tally_nonneg queued (fun g => proj1 (legacy_queued_range g))
                gs) as Nq.
  pose proof (legacy_tally_nonneg signalling
                (fun g => proj1 (legacy_signalling_range g)) gs) as Nn.
  pose proof (legacy_tally_nonneg awake (fun g => proj1 (legacy_awake_range g))
                gs) as Nk.
  pose proof (legacy_tally_nonneg unlocking
                (fun g => proj1 (legacy_unlocking_range g)) gs) as Nu.
  pose proof (legacy_queued_le_length gs) as Bold. rewrite Hlen in Bold.
  change (2 ^ 29) with 536870912 in Hn.
  unpack_word2 x l k w. autorewrite with pack2 in Hw, Hl, Hk, Hc, Ju.
  destruct g as [p aw o nw].
  unfold local_ok in Hg.
  destruct p; cbn [step at_pc]; cbn [at_pc] in Hg.
  - (* Idle *)
    after_step4 gs i Hi; destruct l, k; arith4.
  - (* Lock_fast *)
    regs2. rewrite pack2_eqb_0.
    destruct l, k; cbn [negb andb];
      try (after_step4 gs i Hi; arith4; fail).
    destruct (Z.eqb_spec w 0) as [->|Hw0]; [|after_step4 gs i Hi; arith4].
    change mutexLocked with (pack true false 0).
    after_step4 gs i Hi; arith4.
  - (* Lock_load *)
    regs2. after_step4 gs i Hi; destruct l, k, aw; arith4.
  - (* Lock_CAS *)
    regs2.
    destruct (Z.eqb_spec (pack l k w) o) as [<-|Hne].
    + rewrite legacy_candidate_pack in Hg. subst nw.
      consts2. rewrite pack2_land_1.
      destruct l; cbn [negb];
        after_step4 gs i Hi; destruct aw, k; arith4.
    + after_step4 gs i Hi; destruct l, k, aw; arith4.
  - (* Lock_park *)
    unfold semacquire. regs2.
    destruct (Z.ltb_spec 0 sm);
      after_step4 gs i Hi; destruct l, k; arith4.
  - (* Holding *)
    after_step4 gs i Hi; destruct l, k; arith4.
  - (* Unlock_add *)
    regs2.
    assert (l = true) as ->
      by (roles4; destruct l; cbn [Z.b2z] in *; [reflexivity | lia]).
    assert (Hwn : w < 536870912) by lia.
    unfold Int32.add. consts2. autorewrite with pack2.
    rewrite (wrap30_small w) by lia.
    erewrite legacy_Unlock_check_pack by reflexivity. cbv iota.
    erewrite legacy_Unlock_top_pack by reflexivity.
    destruct (Z.eqb_spec w 0) as [->|Hw0], k; cbn [orb negb andb] in *;
      after_step4 gs i Hi; arith4.
  - (* Unlock_CAS *)
    regs2. destruct Hg as (Hol & Hok & How & ->).
    destruct (Z.eqb_spec (pack l k w) o) as [<-|Hne].
    + autorewrite with pack2 in Hol, Hok, How. subst l k.
      unfold Int32.sub. consts2. autorewrite with pack2.
      after_step4 gs i Hi; arith4.
    + after_step4 gs i Hi; destruct l, k; arith4.
  - (* Unlock_wake *)
    after_step4 gs i Hi; destruct l, k; arith4.
  - (* Unlock_reread *)
    regs2.
    erewrite legacy_Unlock_top_pack by reflexivity.
    destruct (Z.eqb_spec w 0) as [->|Hw0], l, k; cbn [orb negb andb] in *;
      after_step4 gs i Hi; arith4.
  - (* Panicked *)
    destruct Hg.
Qed.

Lemma unlocker_present_hand_over (c : config) (i j : nat) :
  unlocker_present c -> unlocker_present (hand_over i j c).
Proof.
  intros Hu. unfold hand_over.
  destruct (goroutines c !! i) as [gi|] eqn:Hi; [|exact Hu].
  destruct (goroutines c !! j) as [gj|] eqn:Hj; [|exact Hu].
  destruct (at_pc gi) eqn:Pi; try exact Hu.
  destruct (at_pc gj) eqn:Pj; try exact Hu.
  assert (Hne : i <> j) by (intros ->; congruence).
  assert (Hj' : <[i:=goto Idle gi]> (goroutines c) !! j = Some gj)
    by (rewrite list_lookup_insert_ne; assumption).
  unfold unlocker_present in *.
  destruct c as [gs m]; cbn [goroutines mutex] in *.
  rewrite (legacy_tally_insert unlocking _ j gj _ Hj'),
    (legacy_tally_insert unlocking gs i gi _ Hi).
  unfold unlocking at 2 3 4 5. cbn [goto at_pc]. rewrite Pi, Pj.
  intros H1 H2 H3. specialize (Hu H1 H2 H3). lia.
Qed.

Lemma legacy_reachable_unlocker (n : nat) (c : config) :
  Z.of_nat n < 2 ^ 29 -> reachable n c -> unlocker_present c.
Proof.
  intros Hn Hr. induction Hr as [|c i Hr IH|c i j Hr IH].
  - apply unlocker_present_init.
  - apply (unlocker_present_fire n);
      [exact Hn|apply legacy_reachable_invariant; assumption|exact IH].
  - apply unlocker_present_hand_over. exact IH.
Qed.

Lemma legacy_tally_positive (f : goroutine -> Z) (gs : list goroutine) :
  (forall g, 0 <= f g) -> 1 <= tally f gs ->
  exists i g, gs !! i = Some g /\ 1 <= f g.
Proof.
  intros Hf. induction gs as [|a gs IH]; cbn [tally]; [lia|].
  intros Ht. destruct (Z_le_gt_dec 1 (f a)) as [Ha|Ha].
  - exists 0%nat, a. split; [reflexivity|exact Ha].
  - pose proof (Hf a). destruct IH as (i & g & Hi & Hg); [lia|].
    exists (S i), g. split; [exact Hi|exact Hg].
Qed.

(** X15 Mutual exclusion for the earlier mutex (lines 38-103 of
    src/unnamed/part_000).  Among fewer than 2^29 goroutines that call
    [Lock] and then [Unlock], or leave it to another goroutine to unlock,
    in every reachable configuration at most one goroutine holds the
    mutex, and then the locked bit is set; no goroutine has panicked; and a
    goroutine inside [Lock] leaves it only by holding the mutex. *)
Theorem legacy_mutual_exclusion (n : nat) (c : config) :
  Z.of_nat n < 2 ^ 29 ->
  reachable n c ->
  (forall i j gi gj,
      goroutines c !! i = Some gi -> goroutines c !! j = Some gj ->
      at_pc gi = Holding -> at_pc gj = Holding -> i = j)
  /\ (forall i g, goroutines c !! i = Some g -> at_pc g = Holding ->
                  locked (state (mutex c)) = true)
  /\ (forall i g msg, goroutines c !! i = Some g -> at_pc g <> Panicked msg)
  /\ (forall i g,
         goroutines c !! i = Some g -> acquiring (at_pc g) = true ->
         let g' := (step g (mutex c)).1.2 in
         goroutines (fire i c) !! i = Some g'
         /\ (acquiring (at_pc g') = true \/ at_pc g' = Holding)).
Proof.
  intros Hn Hr. pose proof (legacy_reachable_invariant n c Hn Hr) as Hinv.
  destruct Hinv as [Hlen Hloc Hsem Hw Hl Hk Hc].
  assert (Hh : tally holder (goroutines c) <= 1).
  { rewrite <- Hl. destruct (locked _); cbn; lia. }
  split; [|split; [|split]].
  - intros i j gi gj Hi Hj Pi Pj.
    apply (legacy_tally_unique holder (fun g => proj1 (legacy_holder_range g))
             (goroutines c) i j gi gj Hh Hi Hj);
      unfold holder; [rewrite Pi | rewrite Pj]; reflexivity.
  - intros i g Hi Pi.
    pose proof (legacy_tally_lookup holder
                  (fun g => proj1 (legacy_holder_range g))
                  (goroutines c) i g Hi) as B.
    unfold holder at 1 in B. rewrite Pi in B.
    destruct (locked _); [reflexivity|]. cbn in Hl. lia.
  - intros i g msg Hi Pi.
    pose proof (Forall_lookup_1 _ _ _ _ Hloc Hi) as Hg.
    unfold local_ok in Hg. rewrite Pi in Hg. exact Hg.
  - intros i g Hi Hacq. cbv zeta.
    unfold fire. rewrite Hi.
    pose proof (legacy_step_acquiring g (mutex c) Hacq) as Hs. cbv zeta in Hs.
    destruct (step g (mutex c)) as [[e g'] m']. cbn [fst snd] in *.
    cbn [goroutines] in *.
    assert (Hlt : (i < length (goroutines c))%nat)
      by (eapply lookup_lt_Some; eauto).
    split; [apply list_lookup_insert_eq; exact Hlt|exact Hs].
Qed.

(** X16 The wake-ups of the earlier mutex.  Among fewer than 2^29
    goroutines, in every reachable configuration: the waiter count is not
    negative and at most one signal is pending on the semaphore; the woken
    bit is set exactly while a goroutine is about to release the
    semaphore, a signal is pending, or a woken goroutine has not yet taken
    its turn at the compare-and-swap of line 57; and whenever a goroutine
    is parked (line 61), a signal is pending or some goroutine holds the
    mutex, is in the slow path of [Unlock], or has been woken. *)
Theorem legacy_no_lost_wakeup (n : nat) (c : config) :
  Z.of_nat n < 2 ^ 29 ->
  reachable n c ->
  0 <= waiterCount (state (mutex c))
  /\ (sema (mutex c) = 0 \/ sema (mutex c) = 1)
  /\ (woken (state (mutex c)) = true <->
      0 < sema (mutex c)
      \/ exists i g, goroutines c !! i = Some g
                     /\ (at_pc g = Unlock_wake
                         \/ (awoke g = true
                             /\ (at_pc g = Lock_load \/ at_pc g = Lock_CAS))))
  /\ (forall i g, goroutines c !! i = Some g -> at_pc g = Lock_park ->
        0 < sema (mutex c)
        \/ exists j gj, goroutines c !! j = Some gj /\ on_the_way gj = true).
Proof.
  intros Hn Hr.
  destruct (legacy_reachable_invariant n c Hn Hr) as [Hlen Hloc Hsem Hw Hl Hk Hc].
  pose proof (legacy_reachable_unlocker n c Hn Hr) as Ju.
  unfold unlocker_present in Ju.
  pose proof (legacy_tally_nonneg holder (fun g => proj1 (legacy_holder_range g))
                (goroutines c)) as Nh.
  pose proof (legacy_tally_nonneg queued (fun g => proj1 (legacy_queued_range g))
                (goroutines c)) as Nq.
  pose proof (legacy_tally_nonneg signalling
                (fun g => proj1 (legacy_signalling_range g)) (goroutines c)) as Nn.
  pose proof (legacy_tally_nonneg awake (fun g => proj1 (legacy_awake_range g))
                (goroutines c)) as Nk.
  pose proof (legacy_tally_nonneg unlocking
                (fun g => proj1 (legacy_unlocking_range g)) (goroutines c)) as Nu.
  split; [exact Hw|].
  split; [destruct (woken (state (mutex c))); cbn [Z.b2z] in Hk; lia|].
  split.
  - split.
    + intros E. rewrite E in Hk. cbn [Z.b2z] in Hk.
      destruct (Z_lt_le_dec 0 (sema (mutex c))) as [Hs|Hs]; [left; exact Hs|].
      right.
      destruct (Z_le_gt_dec 1 (tally signalling (goroutines c))) as [Hn1|Hn1].
      * destruct (legacy_tally_positive signalling (goroutines c)
                    (fun g => proj1 (legacy_signalling_range g)) Hn1)
          as (i & g & Hi & Hg).
        exists i, g. split; [exact Hi|]. left.
        unfold signalling in Hg. destruct (at_pc g); try lia. reflexivity.
      * destruct (legacy_tally_positive awake (goroutines c)
                    (fun g => proj1 (legacy_awake_range g)))
          as (i & g & Hi & Hg); [lia|].
        exists i, g. split; [exact Hi|]. right.
        unfold awake in Hg.
        destruct (at_pc g), (awoke g); cbn [Z.b2z] in Hg; try lia; auto.
    + intros [Hs|(i & g & Hi & Hg)].
      * destruct (woken (state (mutex c))); [reflexivity|].
        cbn [Z.b2z] in Hk. lia.
      * destruct (woken (state (mutex c))); [reflexivity|].
        cbn [Z.b2z] in Hk. exfalso.
        destruct Hg as [Hp|[Ha Hp]].
        -- pose proof (legacy_tally_lookup signalling
                         (fun g => proj1 (legacy_signalling_range g))
                         (goroutines c) i g Hi) as B.
           unfold signalling at 1 in B. rewrite Hp in B. lia.
        -- pose proof (legacy_tally_lookup awake
                         (fun g => proj1 (legacy_awake_range g))
                         (goroutines c) i g Hi) as B.
           unfold awake at 1 in B. rewrite Ha in B.
           destruct Hp as [Hp|Hp]; rewrite Hp in B; cbn [Z.b2z] in B; lia.
  - intros i g Hi Hp.
    pose proof (legacy_tally_lookup queued
                  (fun g => proj1 (legacy_queued_range g))
                  (goroutines c) i g Hi) as Bq.
    unfold queued at 1 in Bq. rewrite Hp in Bq.
    assert (Hsum : 1 <= sema (mutex c)
                   \/ 1 <= tally holder (goroutines c)
                   \/ 1 <= tally awake (goroutines c)
                   \/ 1 <= tally signalling (goroutines c)
                   \/ 1 <= tally unlocking (goroutines c)).
    { destruct (locked (state (mutex c))); cbn [Z.b2z] in Hl; [lia|].
      destruct (woken (state (mutex c))); cbn [Z.b2z] in Hk; [lia|].
      specialize (Ju eq_refl eq_refl). lia. }
    assert (Hrole : forall f, (forall g, 0 <= f g) ->
              (forall g, 1 <= f g -> on_the_way g = true) ->
              1 <= tally f (goroutines c) ->
              exists j gj, goroutines c !! j = Some gj /\ on_the_way gj = true).
    { intros f Hf Hon Ht.
      destruct (legacy_tally_positive f (goroutines c) Hf Ht)
        as (j & gj & Hj & Hg).
      exists j, gj. split; [exact Hj|apply Hon; exact Hg]. }
    destruct Hsum as [Hs|[Hs|[Hs|[Hs|Hs]]]]; [left; lia|right..].
    + apply (Hrole holder); [apply legacy_holder_range| |exact Hs].
      intros g0. unfold holder, on_the_way. destruct (at_pc g0); auto; lia.
    + apply (Hrole awake); [apply legacy_awake_range| |exact Hs].
      intros g0. unfold awake, on_the_way.
      destruct (at_pc g0), (awoke g0); cbn [Z.b2z]; auto; lia.
    + apply (Hrole signalling); [apply legacy_signalling_range| |exact Hs].
      intros g0. unfold signalling, on_the_way. destruct (at_pc g0); auto; lia.
    + apply (Hrole unlocking); [apply legacy_unlocking_range| |exact Hs].
      intros g0. unfold unlocking, on_the_way. destruct (at_pc g0); auto; lia.
Qed.

End LegacyFacts.

Lemma legacy_mutual_exclusion_witness :
  let c := LegacySystem.run LegacySystem.parked_schedule (LegacySystem.init 2) in
  state (LegacySystem.mutex c) = 5
  /\ (forall i j gi gj,
         LegacySystem.goroutines c !! i = Some gi ->
         LegacySystem.goroutines c !! j = Some gj ->
         MutexLegacy.at_pc gi = MutexLegacy.Holding ->
         MutexLegacy.at_pc gj = MutexLegacy.Holding -> i = j)
  /\ (forall i g msg, LegacySystem.goroutines c !! i = Some g ->
                      MutexLegacy.at_pc g <> MutexLegacy.Panicked msg).
Proof.
  cbv zeta. split; [reflexivity|].
  pose proof (legacy_mutual_exclusion 2
                (LegacySystem.run LegacySystem.parked_schedule
                   (LegacySystem.init 2))
                ltac:(reflexivity)
                (legacy_reachable_run 2 _ _
                   (LegacySystem.reachable_init 2))) as H.
  split; [exact (proj1 H) | exact (proj1 (proj2 (proj2 H)))].
Defined.

Lemma legacy_no_lost_wakeup_witness :
  let c := LegacySystem.run LegacySystem.parked_schedule (LegacySystem.init 2) in
  0 < sema (LegacySystem.mutex c)
  \/ exists j gj, LegacySystem.goroutines c !! j = Some gj
                  /\ LegacySystem.on_the_way gj = true.
Proof.
  cbv zeta.
  pose proof (legacy_no_lost_wakeup 2
                (LegacySystem.run LegacySystem.parked_schedule
                   (LegacySystem.init 2))
                ltac:(reflexivity)
                (legacy_reachable_run 2 _ _
                   (LegacySystem.reachable_init 2))) as H.
  destruct H as (_ & _ & _ & H).
  apply (H 1%nat (MutexLegacy.mkG MutexLegacy.Lock_park false 1 5));
    reflexivity.
Defined.

(** ** The mutex in starvation mode, and a goroutine that locks twice *)

Section OwnershipFacts.
Import Wakeups.

Lemma owning_range g : 0 <= owning g <= 1.
Proof. unfold owning. destruct (at_pc g) as [| | | | | | | | | | | | |[]| |]; lia. Qed.

Lemma tally_owning (gs : list goroutine) :
  tally owning gs
  = tally holder gs + tally waking gs + tally (signalling true) gs
    + tally adding gs.
Proof.
  induction gs as [|a gs IH]; cbn [tally]; [reflexivity|].
  rewrite IH.
  assert (owning a = holder a + waking a + signalling true a + adding a).
  { unfold owning, holder, waking, signalling, adding.
    destruct (at_pc a) as [| | | | | | | | | | | | |[]| |]; reflexivity. }
  lia.
Qed.

(** X17 In starvation mode the mutex is handed from the unlocker to the
    waiter without a gap and without a duplicate: among fewer than 2^28
    goroutines, in every reachable configuration whose state word has
    [mutexStarving] set, either the hand-off signal is pending on the
    semaphore and no goroutine owns the mutex, or no signal is pending and
    exactly one goroutine owns it (it holds the mutex, is about to release
    the semaphore for the hand-off, or has taken the signal and is about to
    fix the state word). *)
Theorem starving_ownership (n : nat) (c : config) :
  Z.of_nat n < 2 ^ 28 ->
  reachable n c ->
  starving_bit (state (mutex c)) = true ->
  (sema (mutex c) = 1
   /\ forall i g, goroutines c !! i = Some g -> owning g = 0)
  \/ (sema (mutex c) = 0
      /\ (exists i g, goroutines c !! i = Some g /\ owning g = 1)
      /\ forall i j gi gj,
           goroutines c !! i = Some gi -> goroutines c !! j = Some gj ->
           owning gi = 1 -> owning gj = 1 -> i = j).
Proof.
  intros Hn Hr Hs.
  destruct (reachable_invariant n c Hn Hr) as [Hlen Hloc Hsem Hw Hl Hmode].
  cbv zeta in Hmode. rewrite Hs in Hmode.
  destruct Hmode as (_ & _ & _ & Hone & _).
  pose proof (tally_owning (goroutines c)) as Eo.
  pose proof (tally_nonneg owning (fun g => proj1 (owning_range g))
                (goroutines c)) as No.
  assert (Hsum : tally owning (goroutines c) + sema (mutex c) = 1) by lia.
  destruct (Z.eq_dec (sema (mutex c)) 1) as [H1|H1].
  - left. split; [exact H1|]. intros i g Hi.
    pose proof (tally_lookup owning (fun g => proj1 (owning_range g))
                  (goroutines c) i g Hi).
    pose proof (owning_range g). lia.
  - right. split; [lia|]. split.
    + destruct (tally_positive owning (goroutines c)
                  (fun g => proj1 (owning_range g))) as (i & g & Hi & Hg);
        [lia|].
      exists i, g. split; [exact Hi|]. pose proof (owning_range g). lia.
    + intros i j gi gj Hi Hj Oi Oj.
      apply (tally_unique owning (fun g => proj1 (owning_range g))
               (goroutines c) i j gi gj); auto. lia.
Qed.

(** One step of a goroutine that is alone with a locked mutex. *)
Lemma waits_for_itself_step (r : runtime) (g : goroutine) (m : Mutex) :
  waits_for_itself g m ->
  waits_for_itself (step r g m).1.2 (step r g m).2.
Proof.
  assert (Htop : forall g0 : goroutine,
            (awoke g0 = true -> woken (old g0) = true) ->
            old g0 = state m ->
            sema m = 0 -> locked (state m) = true ->
            waits_for_itself (lockSlow_top r g0) m).
  { intros g0 Haw Ho Hs Hl. unfold waits_for_itself.
    split; [exact Hs|]. split; [exact Hl|].
    unfold lockSlow_top.
    destruct (_ && runtime_canSpin _ _).
    - destruct (negb (awoke g0) && _ && _) eqn:Hset.
      + apply andb_prop in Hset as [Hset _]. apply andb_prop in Hset as [Ha _].
        cbn. destruct (awoke g0); [discriminate|reflexivity].
      + cbn. intros E. rewrite <- Ho. auto.
    - destruct (candidate (old g0) (starving g0) (awoke g0)) as [nw|msg] eqn:Hc.
      + cbn. split; [exact Hc|]. intros E. rewrite <- Ho. auto.
      + exfalso. revert Hc. rewrite (unpack (old g0)), candidate_pack.
        destruct (awoke g0); [|discriminate].
        autorewrite with pack in Haw.
        rewrite (Haw eq_refl). discriminate. }
  intros (Hs & Hl & Hpc).
  destruct g as [p t st aw it o nw q d]. destruct m as [x sm].
  cbn [sema state] in Hs, Hl. subst sm.
  destruct p; cbn [at_pc] in Hpc; try contradiction; cbn [step at_pc]; regs.
  - (* Lock_fast *)
    destruct (Z.eqb_spec x 0) as [->|Hx]; [discriminate|].
    cbn [fst snd]. repeat split; auto.
  - (* lockSlow_entry *)
    cbn [fst snd]. apply Htop; regs; auto; discriminate.
  - (* lockSlow_spinCAS *)
    subst aw.
    destruct (Z.eqb_spec x o) as [<-|Hne]; cbn [fst snd]; unfold waits_for_itself;
      regs.
    + clear Htop. unpack_word x l k s w. autorewrite with pack in Hl.
      subst l. consts. autorewrite with pack. auto.
    + repeat split; auto. discriminate.
  - (* lockSlow_spin *)
    cbn [fst snd]. apply Htop; regs; auto.
  - (* lockSlow_CAS *)
    destruct Hpc as [Hc Haw].
    destruct (Z.eqb_spec x o) as [<-|Hne].
    + clear Htop. unpack_word x l k s w. autorewrite with pack in Hl, Haw.
      subst l. rewrite candidate_pack in Hc. consts. rewrite land_pack_5.
      destruct (aw && negb k); [discriminate|]. injection Hc as <-.
      cbn [negb andb orb fst snd]. unfold waits_for_itself.
      destruct (t =? 0); regs; autorewrite with pack; auto.
    + cbn [fst snd]. unfold waits_for_itself. regs. auto.
  - (* lockSlow_park *)
    unfold semacquire. regs. change (0 <? 0) with false. cbn [fst snd].
    unfold waits_for_itself. regs. auto.
  - (* lockSlow_reread *)
    cbn [fst snd]. apply Htop; regs; auto.
Qed.

Lemma waits_for_itself_exec (fuel : nat) (r : runtime) :
  forall g m, waits_for_itself g m ->
    waits_for_itself (exec fuel r g m).1.2 (exec fuel r g m).2.
Proof.
  induction fuel as [|fuel IH]; intros g m Hw; [exact Hw|].
  cbn [exec].
  pose proof (waits_for_itself_step r g m Hw) as Hs.
  destruct (step r g m) as [[e g1] m1]. cbn [fst snd] in Hs.
  destruct (returned (at_pc g1)) eqn:Hret; [exact Hs|].
  specialize (IH g1 m1 Hs).
  destruct (exec fuel r g1 m1) as [[tr g2] m2]. exact IH.
Qed.

(** X18 The mutex is not reentrant.  A goroutine that calls [Lock] on a
    mutex that is locked, with no signal on the semaphore and no other
    goroutine running, never returns from the call, however long it runs
    and whatever the runtime answers: it spins, queues itself and parks; it
    neither takes the mutex nor throws, and the mutex stays locked. *)
Theorem Lock_not_reentrant (fuel : nat) (r : runtime) (g : goroutine)
    (m : Mutex) :
  locked (state m) = true -> sema m = 0 ->
  let '(_, g', m') := Lock fuel r g m in
  returned (at_pc g') = false
  /\ acquiring (at_pc g') = true
  /\ locked (state m') = true.
Proof.
  intros Hl Hs. unfold Lock.
  assert (Hw : waits_for_itself (goto Lock_fast g) m).
  { unfold waits_for_itself. cbn. auto. }
  pose proof (waits_for_itself_exec fuel r _ _ Hw) as H.
  destruct (exec fuel r (goto Lock_fast g) m) as [[tr g'] m'].
  cbn [fst snd] in H. destruct H as (_ & Hl' & Hpc).
  destruct (at_pc g'); try contradiction; cbn; auto.
Qed.

End OwnershipFacts.

Lemma starving_ownership_witness :
  sema (mutex (run Wakeups.handoff_schedule (init 3))) = 1
  /\ forall i g,
       goroutines (run Wakeups.handoff_schedule (init 3)) !! i = Some g ->
       Wakeups.owning g = 0.
Proof.
  pose proof (starving_ownership 3 (run Wakeups.handoff_schedule (init 3))
                ltac:(reflexivity)
                (reachable_run 3 _ _ (reachable_init 3))
                ltac:(vm_compute; reflexivity)) as H.
  destruct H as [H|[H _]]; [exact H|].
  vm_compute in H. discriminate.
Defined.

Lemma Lock_not_reentrant_witness :
  let '(_, g', m') :=
    Lock 20 (mkRuntime (fun i => i <? 4) 0) fresh (mkMutex 1 0) in
  returned (at_pc g') = false
  /\ acquiring (at_pc g') = true
  /\ locked (state m') = true.
Proof.
  apply (Lock_not_reentrant 20 (mkRuntime (fun i => i <? 4) 0) fresh
           (mkMutex 1 0)); reflexivity.
Defined.

(** ** hash/crc32 on amd64 *)

Section Crc32Facts.
Import Crc32.
Variable hw : hardware.

Lemma exec_S (f : frame) (n : nat) (s : machine) :
  exec (S n) hw f s = exec n hw f (step hw f s).
Proof. reflexivity. Qed.

Lemma exec_plus (f : frame) (a b : nat) (s : machine) :
  exec (a + b) hw f s = exec b hw f (exec a hw f s).
Proof.
  revert s. induction a as [|a IHa]; intros s; [reflexivity|].
  cbn [Nat.add]. rewrite !exec_S. apply IHa.
Qed.

(** One instruction, on a machine given by its registers. *)
Lemma step_eq (f : frame) (p : pc) (ax bx cx si : Z) (zf lt : bool) (rt : Z) :
  step hw f (mkMachine p ax bx cx si zf lt rt)
  = match p with
    | L7 => mkMachine L8 (wrap32 (arg_crc f)) bx cx si zf lt rt
    | L8 => mkMachine L9 ax bx cx (wrap64 (arg_ptr f)) zf lt rt
    | L9 => mkMachine L11 ax bx (wrap32 (arg_len f)) si zf lt rt
    | L11 => mkMachine L14 (not32 ax) bx cx si zf lt rt
    | L14 => mkMachine L15 ax bx cx si (wrap32 cx =? wrap32 8)
               (signed32 cx <? signed32 8) rt
    | L15 => mkMachine (if lt then L40 else L19) ax bx cx si zf lt rt
    | L19 => mkMachine L20 ax si cx si zf lt rt
    | L20 => mkMachine L21 ax (Z.land bx 7) cx si (Z.land bx 7 =? 0)
               (signed64 (Z.land bx 7) <? 0) rt
    | L21 => mkMachine (if zf then L30 else L23) ax bx cx si zf lt rt
    | L23 => mkMachine L24 (wrap32 (crc32b hw ax (mem f si))) bx cx si zf lt rt
    | L24 => mkMachine L25 ax bx (wrap32 (cx - 1)) si (wrap32 (cx - 1) =? 0)
               (signed32 cx <? signed32 1) rt
    | L25 => mkMachine L26 ax bx cx (wrap64 (si + 1)) (wrap64 (si + 1) =? 0)
               (signed64 si + signed64 1 <? 0) rt
    | L26 => mkMachine L19 ax bx cx si zf lt rt
    | L30 => mkMachine L31 ax bx cx si (wrap32 cx =? wrap32 8)
               (signed32 cx <? signed32 8) rt
    | L31 => mkMachine (if lt then L40 else L33) ax bx cx si zf lt rt
    | L33 => mkMachine L34 (wrap32 (crc32q hw ax (quad f si))) bx cx si zf lt rt
    | L34 => mkMachine L35 ax bx cx (wrap64 (si + 8)) (wrap64 (si + 8) =? 0)
               (signed64 si + signed64 8 <? 0) rt
    | L35 => mkMachine L36 ax bx (wrap64 (cx - 8)) si (wrap64 (cx - 8) =? 0)
               (signed64 cx <? signed64 8) rt
    | L36 => mkMachine L30 ax bx cx si zf lt rt
    | L40 => mkMachine L41 ax bx cx si (wrap32 cx =? wrap32 0)
               (signed32 cx <? signed32 0) rt
    | L41 => mkMachine (if zf then L49 else L43) ax bx cx si zf lt rt
    | L43 => mkMachine L44 (wrap32 (crc32b hw ax (mem f si))) bx cx si zf lt rt
    | L44 => mkMachine L45 ax bx cx (wrap64 (si + 1)) (wrap64 (si + 1) =? 0)
               (signed64 si + signed64 1 <? 0) rt
    | L45 => mkMachine L46 ax bx (wrap64 (cx - 1)) si (wrap64 (cx - 1) =? 0)
               (signed64 cx <? signed64 1) rt
    | L46 => mkMachine L40 ax bx cx si zf lt rt
    | L49 => mkMachine L50 (not32 ax) bx cx si zf lt rt
    | L50 => mkMachine L51 ax bx cx si zf lt (wrap32 ax)
    | L51 => mkMachine Returned ax bx cx si zf lt rt
    | Returned => mkMachine Returned ax bx cx si zf lt rt
    end.
Proof. destruct p, zf, lt; reflexivity. Qed.

Lemma exec_0 (f : frame) (s : machine) : exec 0 hw f s = s.
Proof. reflexivity. Qed.

Ltac one_step := rewrite exec_S, step_eq; cbv beta iota.

(** After [RET] nothing moves. *)
Lemma returned_stays (f : frame) (n : nat) ax bx cx si zf lt rt :
  exec n hw f (mkMachine Returned ax bx cx si zf lt rt)
  = mkMachine Returned ax bx cx si zf lt rt.
Proof.
  induction n as [|n IH]; [reflexivity|]. rewrite exec_S, step_eq. exact IH.
Qed.

Lemma wrap32_small (z : Z) : 0 <= z < 2 ^ 32 -> wrap32 z = z.
Proof. intros. unfold wrap32. apply Z.mod_small. lia. Qed.

Lemma wrap64_small (z : Z) : 0 <= z < 2 ^ 64 -> wrap64 z = z.
Proof. intros. unfold wrap64. apply Z.mod_small. lia. Qed.

Lemma wrap32_range (z : Z) : 0 <= wrap32 z < 2 ^ 32.
Proof. unfold wrap32. apply Z.mod_pos_bound. lia. Qed.

Lemma not32_range (z : Z) : 0 <= not32 z < 2 ^ 32.
Proof. unfold not32. pose proof (wrap32_range z). lia. Qed.

Lemma not32_not32 (z : Z) : 0 <= z < 2 ^ 32 -> not32 (not32 z) = z.
Proof.
  intros Hz. unfold not32. rewrite (wrap32_small z) by lia.
  rewrite wrap32_small by lia. lia.
Qed.

Lemma signed32_small (z : Z) : 0 <= z < 2 ^ 31 -> signed32 z = z.
Proof.
  intros. unfold signed32. apply wrap_small.
  unfold Int32.in_range, Int32.min_int, Int32.max_int. lia.
Qed.

Lemma signed32_high (z : Z) :
  2 ^ 31 <= z < 2 ^ 32 -> signed32 z = z - 2 ^ 32.
Proof.
  intros. unfold signed32, Int32.wrap.
  change (2 ^ 31) with 2147483648 in *. change (2 ^ 32) with 4294967296 in *.
  Z.div_mod_to_equations. lia.
Qed.

Lemma accumulate_range (bs : list Z) : forall a,
  0 <= a < 2 ^ 32 -> 0 <= accumulate hw a bs < 2 ^ 32.
Proof.
  induction bs as [|b bs IH]; intros a Ha; [exact Ha|].
  apply IH, wrap32_range.
Qed.

Lemma accumulate_app (a : Z) (l1 l2 : list Z) :
  accumulate hw a (l1 ++ l2) = accumulate hw (accumulate hw a l1) l2.
Proof. apply fold_left_app. Qed.

Lemma segment_S (f : frame) (a : Z) (n : nat) :
  segment f a (S n) = mem f a :: segment f (a + 1) n.
Proof.
  unfold segment. cbn [seq map]. rewrite Z.add_0_r. f_equal.
  rewrite <- seq_shift, map_map. apply map_ext. intros i. f_equal. lia.
Qed.

Lemma segment_app (f : frame) (a : Z) (n k : nat) :
  segment f a (n + k) = segment f a n ++ segment f (a + Z.of_nat n) k.
Proof.
  revert a. induction n as [|n IH]; intros a.
  - cbn [Nat.add]. unfold segment at 2. cbn [seq map app]. f_equal. lia.
  - change (S n + k)%nat with (S (n + k)). rewrite !segment_S, IH.
    cbn [app]. do 3 f_equal. lia.
Qed.

Lemma segment_length (f : frame) (a : Z) (n : nat) :
  length (segment f a n) = n.
Proof. unfold segment. rewrite length_map. apply length_seq. Qed.

Lemma quad_segment (f : frame) (a : Z) :
  0 <= a -> a + 8 <= 2 ^ 64 -> quad f a = segment f a 8.
Proof.
  intros Ha Hb. unfold quad, segment. cbn [seq map].
  rewrite !wrap64_small by lia. reflexivity.
Qed.

(** *** The three loops *)

(** Lines 19-26, once round: one byte in front of an aligned address. *)
Lemma startup_iter f ax bx cx si zf lt rt :
  0 < cx < 2 ^ 32 -> 0 <= si -> si + 1 < 2 ^ 64 -> si mod 8 <> 0 ->
  exists bx' zf' lt',
    exec 7 hw f (mkMachine L19 ax bx cx si zf lt rt)
    = mkMachine L19 (accumulate hw ax [mem f si]) bx' (cx - 1) (si + 1)
        zf' lt' rt.
Proof.
  intros Hc Hs Hs' Hm. do 2 one_step.
  replace (Z.land si 7) with (si mod 8)
    by (change 7 with (Z.ones 3); rewrite Z.land_ones by lia; reflexivity).
  destruct (Z.eqb_spec (si mod 8) 0) as [E|_]; [contradiction|].
  do 5 one_step.
  rewrite (wrap64_small (si + 1)), (wrap32_small (cx - 1)) by lia.
  eexists _, _, _. reflexivity.
Qed.

(** Lines 19-26: the bytes in front of the first aligned address. *)
Lemma startup_loop f (k : nat) : forall ax bx cx si zf lt rt,
  Z.of_nat k = (- si) mod 8 -> Z.of_nat k <= cx < 2 ^ 32 ->
  0 <= si -> si + Z.of_nat k < 2 ^ 64 ->
  exists bx' zf' lt',
    exec (7 * k + 3) hw f (mkMachine L19 ax bx cx si zf lt rt)
    = mkMachine L30 (accumulate hw ax (segment f si k)) bx'
        (cx - Z.of_nat k) (si + Z.of_nat k) zf' lt' rt.
Proof.
  induction k as [|k IH]; intros ax bx cx si zf lt rt Hk Hc Hs Hs'.
  - change (7 * 0 + 3)%nat with 3%nat. do 2 one_step.
    replace (Z.land si 7) with (si mod 8)
      by (change 7 with (Z.ones 3); rewrite Z.land_ones by lia; reflexivity).
    assert (E : si mod 8 = 0)
      by (change (Z.of_nat 0) with 0 in Hk; Z.div_mod_to_equations; lia).
    rewrite E. change (0 =? 0) with true. one_step.
    change (Z.of_nat 0) with 0. rewrite Z.sub_0_r, Z.add_0_r.
    eexists _, _, _. reflexivity.
  - destruct (startup_iter f ax bx cx si zf lt rt) as (bx1 & zf1 & lt1 & E);
      [lia| lia | lia | Z.div_mod_to_equations; lia |].
    replace (7 * S k + 3)%nat with (7 + (7 * k + 3))%nat by lia.
    rewrite exec_plus, E.
    destruct (IH (accumulate hw ax [mem f si]) bx1 (cx - 1) (si + 1)
                zf1 lt1 rt) as (bx2 & zf2 & lt2 & E2);
      [Z.div_mod_to_equations; lia | lia | lia | lia |].
    rewrite E2, segment_S.
    replace (cx - 1 - Z.of_nat k) with (cx - Z.of_nat (S k)) by lia.
    replace (si + 1 + Z.of_nat k) with (si + Z.of_nat (S k)) by lia.
    eexists _, _, _. reflexivity.
Qed.

(** Lines 30-36, once round: eight bytes. *)
Lemma aligned_iter f ax bx cx si zf lt rt :
  bytewise hw -> 0 <= ax < 2 ^ 32 ->
  8 <= cx < 2 ^ 31 -> 0 <= si -> si + 8 < 2 ^ 64 ->
  exists zf' lt',
    exec 6 hw f (mkMachine L30 ax bx cx si zf lt rt)
    = mkMachine L30 (accumulate hw ax (segment f si 8)) bx (cx - 8) (si + 8)
        zf' lt' rt.
Proof.
  intros Hw Ha Hc Hs Hs'. one_step.
  rewrite (signed32_small cx), (signed32_small 8) by lia.
  destruct (Z.ltb_spec cx 8) as [E|_]; [lia|].
  do 5 one_step.
  rewrite (wrap64_small (si + 8)), (wrap64_small (cx - 8)) by lia.
  rewrite quad_segment by lia.
  rewrite Hw by apply segment_length. rewrite (wrap32_small ax) by lia.
  eexists _, _. reflexivity.
Qed.

(** Lines 30-36: the quadwords. *)
Lemma aligned_loop f (q : nat) : forall ax bx cx si zf lt rt,
  bytewise hw -> 0 <= ax < 2 ^ 32 ->
  Z.of_nat q = cx / 8 -> 0 <= cx < 2 ^ 31 -> 0 <= si -> si + cx < 2 ^ 64 ->
  exists zf' lt',
    exec (6 * q + 2) hw f (mkMachine L30 ax bx cx si zf lt rt)
    = mkMachine L40 (accumulate hw ax (segment f si (8 * q))) bx
        (cx - 8 * Z.of_nat q) (si + 8 * Z.of_nat q) zf' lt' rt.
Proof.
  induction q as [|q IH]; intros ax bx cx si zf lt rt Hw Ha Hq Hc Hs Hs'.
  - change (6 * 0 + 2)%nat with 2%nat. one_step.
    rewrite (signed32_small cx), (signed32_small 8) by lia.
    destruct (Z.ltb_spec cx 8) as [_|E];
      [|change (Z.of_nat 0) with 0 in Hq; Z.div_mod_to_equations; lia].
    one_step. change (Z.of_nat 0) with 0.
    rewrite Z.mul_0_r, Z.sub_0_r, Z.add_0_r.
    eexists _, _. reflexivity.
  - destruct (aligned_iter f ax bx cx si zf lt rt) as (zf1 & lt1 & E);
      [exact Hw | lia | Z.div_mod_to_equations; lia | lia
      | Z.div_mod_to_equations; lia |].
    replace (6 * S q + 2)%nat with (6 + (6 * q + 2))%nat by lia.
    rewrite exec_plus, E.
    destruct (IH (accumulate hw ax (segment f si 8)) bx (cx - 8) (si + 8)
                zf1 lt1 rt) as (zf2 & lt2 & E2);
      [exact Hw | apply accumulate_range; lia
      | Z.div_mod_to_equations; lia | Z.div_mod_to_equations; lia
      | lia | lia |].
    rewrite E2.
    replace (8 * S q)%nat with (8 + 8 * q)%nat by lia.
    rewrite segment_app, accumulate_app.
    change (Z.of_nat 8) with 8.
    replace (cx - 8 - 8 * Z.of_nat q) with (cx - 8 * Z.of_nat (S q)) by lia.
    replace (si + 8 + 8 * Z.of_nat q) with (si + 8 * Z.of_nat (S q)) by lia.
    eexists _, _. reflexivity.
Qed.

(** Lines 40-46, once round: one byte. *)
Lemma cleanup_iter f ax bx cx si zf lt rt :
  0 < cx < 2 ^ 32 -> 0 <= si -> si + 1 < 2 ^ 64 ->
  exists zf' lt',
    exec 6 hw f (mkMachine L40 ax bx cx si zf lt rt)
    = mkMachine L40 (accumulate hw ax [mem f si]) bx (cx - 1) (si + 1)
        zf' lt' rt.
Proof.
  intros Hc Hs Hs'. one_step.
  rewrite (wrap32_small cx), (wrap32_small 0) by lia.
  destruct (Z.eqb_spec cx 0) as [E|_]; [lia|].
  do 5 one_step.
  rewrite (wrap64_small (si + 1)), (wrap64_small (cx - 1)) by lia.
  eexists _, _. reflexivity.
Qed.

(** Lines 40-46: the bytes that are left, one at a time. *)
Lemma cleanup_loop f (n : nat) : forall ax bx cx si zf lt rt,
  cx = Z.of_nat n -> cx < 2 ^ 32 -> 0 <= si -> si + cx < 2 ^ 64 ->
  exists cx' si' zf' lt',
    exec (6 * n + 2) hw f (mkMachine L40 ax bx cx si zf lt rt)
    = mkMachine L49 (accumulate hw ax (segment f si n)) bx cx' si'
        zf' lt' rt.
Proof.
  induction n as [|n IH]; intros ax bx cx si zf lt rt Hn Hc Hs Hs'.
  - subst cx. change (6 * 0 + 2)%nat with 2%nat. one_step.
    change (wrap32 (Z.of_nat 0) =? wrap32 0) with true. one_step.
    eexists _, _, _, _. reflexivity.
  - destruct (cleanup_iter f ax bx cx si zf lt rt) as (zf1 & lt1 & E);
      [lia..|].
    replace (6 * S n + 2)%nat with (6 + (6 * n + 2))%nat by lia.
    rewrite exec_plus, E.
    destruct (IH (accumulate hw ax [mem f si]) bx (cx - 1) (si + 1) zf1 lt1 rt)
      as (cx2 & si2 & zf2 & lt2 & E2); [lia..|].
    rewrite E2, segment_S. eexists _, _, _, _. reflexivity.
Qed.

(** Lines 49-51. *)
Lemma done_run f ax bx cx si zf lt rt :
  exec 3 hw f (mkMachine L49 ax bx cx si zf lt rt)
  = mkMachine Returned (not32 ax) bx cx si zf lt (not32 ax).
Proof.
  do 3 one_step. rewrite (wrap32_small (not32 ax)) by apply not32_range.
  reflexivity.
Qed.

(** Lines 7-15. *)
Lemma prologue_run f ax bx cx si zf lt rt :
  0 <= arg_crc f < 2 ^ 32 -> 0 <= arg_len f < 2 ^ 32 ->
  0 <= arg_ptr f < 2 ^ 64 ->
  exec 6 hw f (mkMachine L7 ax bx cx si zf lt rt)
  = mkMachine (if signed32 (arg_len f) <? 8 then L40 else L19)
      (not32 (arg_crc f)) bx (arg_len f) (arg_ptr f)
      (arg_len f =? 8) (signed32 (arg_len f) <? 8) rt.
Proof.
  intros Hc Hl Hp. do 6 one_step.
  rewrite (wrap32_small (arg_crc f)), !(wrap32_small (arg_len f)),
    (wrap64_small (arg_ptr f)), (wrap32_small 8), (signed32_small 8) by lia.
  apply exec_0.
Qed.

(** The whole routine, from any registers. *)
Lemma castagnoliSSE42_run f ax bx cx si zf lt rt :
  bytewise hw ->
  0 <= arg_crc f < 2 ^ 32 -> 0 <= arg_len f < 2 ^ 32 ->
  0 <= arg_ptr f -> arg_ptr f + arg_len f < 2 ^ 64 ->
  exists n ax' bx' cx' si' zf' lt',
    (n <= 7 * Z.to_nat (arg_len f) + 16)%nat
    /\ exec n hw f (mkMachine L7 ax bx cx si zf lt rt)
       = mkMachine Returned ax' bx' cx' si' zf' lt'
           (not32 (accumulate hw (not32 (arg_crc f)) (bytes f))).
Proof.
  intros Hw Hc Hl Hp Hpl. unfold bytes.
  pose proof (prologue_run f ax bx cx si zf lt rt Hc Hl ltac:(lia)) as E0.
  destruct (Z.ltb_spec (signed32 (arg_len f)) 8) as [Hlt|Hge].
  - destruct (cleanup_loop f (Z.to_nat (arg_len f)) (not32 (arg_crc f)) bx
                (arg_len f) (arg_ptr f) (arg_len f =? 8) true rt)
      as (cx1 & si1 & zf1 & lt1 & E1); [lia..|].
    exists (6 + ((6 * Z.to_nat (arg_len f) + 2) + 3))%nat.
    eexists _, _, _, _, _, _. split; [lia|].
    rewrite exec_plus, E0, exec_plus, E1, done_run. reflexivity.
  - assert (Hl' : 8 <= arg_len f < 2 ^ 31).
    { destruct (Z.lt_ge_cases (arg_len f) (2 ^ 31)) as [H|H].
      - rewrite signed32_small in Hge by lia. lia.
      - rewrite signed32_high in Hge by lia. lia. }
    set (len := arg_len f) in *. set (ptr := arg_ptr f) in *.
    set (kz := (- ptr) mod 8).
    assert (Hkz : 0 <= kz < 8) by (apply Z.mod_pos_bound; lia).
    set (qz := (len - kz) / 8). set (rz := (len - kz) mod 8).
    assert (Hqr : len - kz = 8 * qz + rz) by (apply Z.div_mod; lia).
    assert (Hrz : 0 <= rz < 8) by (apply Z.mod_pos_bound; lia).
    assert (Hqz : 0 <= qz) by (apply Z.div_pos; lia).
    destruct (startup_loop f (Z.to_nat kz) (not32 (arg_crc f)) bx len ptr
                (len =? 8) false rt) as (bx1 & zf1 & lt1 & E1);
      [rewrite Z2Nat.id by lia; reflexivity | lia | lia | lia |].
    rewrite (Z2Nat.id kz) in E1 by lia.
    destruct (aligned_loop f (Z.to_nat qz)
                (accumulate hw (not32 (arg_crc f))
                   (segment f ptr (Z.to_nat kz)))
                bx1 (len - kz) (ptr + kz) zf1 lt1 rt) as (zf2 & lt2 & E2);
      [exact Hw | apply accumulate_range, not32_range
      | rewrite Z2Nat.id by lia; reflexivity | lia | lia | lia |].
    rewrite (Z2Nat.id qz) in E2 by lia.
    match type of E2 with _ = mkMachine _ ?a _ _ _ _ _ _ =>
      destruct (cleanup_loop f (Z.to_nat rz) a bx1 (len - kz - 8 * qz)
                  (ptr + kz + 8 * qz) zf2 lt2 rt)
        as (cx3 & si3 & zf3 & lt3 & E3); [lia..|]
    end.
    exists (6 + ((7 * Z.to_nat kz + 3) + ((6 * Z.to_nat qz + 2)
              + ((6 * Z.to_nat rz + 2) + 3))))%nat.
    eexists _, _, _, _, _, _. split; [lia|].
    rewrite exec_plus, E0, exec_plus, E1, exec_plus, E2, exec_plus, E3,
      done_run.
    replace (Z.to_nat len)
      with (Z.to_nat kz + (8 * Z.to_nat qz + Z.to_nat rz))%nat by lia.
    rewrite !segment_app, !accumulate_app.
    replace (Z.of_nat (Z.to_nat kz)) with kz by lia.
    replace (Z.of_nat (8 * Z.to_nat qz)) with (8 * qz) by lia.
    reflexivity.
Qed.

(** Once the routine has returned, more fuel changes nothing. *)
Lemma castagnoliSSE42_returned f (fuel n : nat) (s : machine)
    ax bx cx si zf lt r :
  exec n hw f (goto L7 s) = mkMachine Returned ax bx cx si zf lt r ->
  (n <= fuel)%nat ->
  castagnoliSSE42 fuel hw f s = Some r.
Proof.
  intros E Hn. unfold castagnoliSSE42.
  replace fuel with (n + (fuel - n))%nat by lia.
  rewrite exec_plus, E, returned_stays. reflexivity.
Qed.

(** X19.  [castagnoliSSE42(crc, p)] returns, after at most
    [7 * len(p) + 16] instructions, the complement of what [CRC32B] on
    the bytes of [p] in turn makes of the complement of [crc]: whatever
    the alignment of [p], whatever the registers held at the call, and
    also for a length of [2^31] or more, which the signed comparisons of
    lines 14 and 30 send to the byte loop. *)
Theorem castagnoliSSE42_bytewise (fuel : nat) (f : frame) (s : machine) :
  bytewise hw ->
  0 <= arg_crc f < 2 ^ 32 -> 0 <= arg_len f < 2 ^ 32 ->
  0 <= arg_ptr f -> arg_ptr f + arg_len f < 2 ^ 64 ->
  (7 * Z.to_nat (arg_len f) + 16 <= fuel)%nat ->
  castagnoliSSE42 fuel hw f s
  = Some (not32 (accumulate hw (not32 (arg_crc f)) (bytes f))).
Proof.
  intros Hw Hc Hl Hp Hpl Hfuel. destruct s as [p ax bx cx si zf lt rt].
  destruct (castagnoliSSE42_run f ax bx cx si zf lt rt Hw Hc Hl Hp Hpl)
    as (n & ax' & bx' & cx' & si' & zf' & lt' & Hn & E).
  eapply castagnoliSSE42_returned; [exact E|lia].
Qed.

(** X20.  The routine can be called on the parts of a slice in turn: on
    the second part with the result for the first as [crc], it returns
    what it returns on the whole slice. *)
Theorem castagnoliSSE42_chains (fuel : nat) (memory : Z -> Z)
    (crc ptr n1 n2 : Z) (s1 s2 s : machine) :
  bytewise hw ->
  0 <= crc < 2 ^ 32 -> 0 <= n1 -> 0 <= n2 -> n1 + n2 < 2 ^ 32 ->
  0 <= ptr -> ptr + n1 + n2 < 2 ^ 64 ->
  (7 * Z.to_nat (n1 + n2) + 16 <= fuel)%nat ->
  exists r1,
    castagnoliSSE42 fuel hw (mkFrame crc ptr n1 memory) s1 = Some r1
    /\ castagnoliSSE42 fuel hw (mkFrame r1 (ptr + n1) n2 memory) s2
       = castagnoliSSE42 fuel hw (mkFrame crc ptr (n1 + n2) memory) s.
Proof.
  intros Hw Hc H1 H2 Hn Hp Hpn Hfuel.
  assert (R : forall f s0,
    0 <= arg_crc f < 2 ^ 32 -> 0 <= arg_len f <= n1 + n2 ->
    0 <= arg_ptr f -> arg_ptr f + arg_len f < 2 ^ 64 ->
    castagnoliSSE42 fuel hw f s0
    = Some (not32 (accumulate hw (not32 (arg_crc f)) (bytes f)))).
  { intros f [p ax bx cx si zf lt rt] Hc' Hl' Hp' Hpl'.
    destruct (castagnoliSSE42_run f ax bx cx si zf lt rt Hw Hc'
                ltac:(lia) Hp' Hpl')
      as (n & ax' & bx' & cx' & si' & zf' & lt' & Hn' & E).
    eapply castagnoliSSE42_returned; [exact E|lia]. }
  eexists. split.
  - apply R; cbn [arg_crc arg_len arg_ptr]; lia.
  - rewrite !R; cbn [arg_crc arg_len arg_ptr];
      try lia; try apply not32_range.
    unfold bytes. cbn [arg_crc arg_len arg_ptr mem].
    rewrite not32_not32 by (apply accumulate_range, not32_range).
    rewrite Z2Nat.inj_add by lia.
    rewrite segment_app, accumulate_app, Z2Nat.id by lia. reflexivity.
Qed.

(** X21.  [haveSSE42] asks [CPUID] for leaf 1 and returns bit 20 of what
    it leaves in [CX], as 0 or 1. *)
Theorem haveSSE42_bit_20 (a b c d : Z) :
  cpuid hw 1 = (a, b, c, d) ->
  haveSSE42 hw = Z.b2z (Z.testbit c 20).
Proof.
  intros E. unfold haveSSE42.
  change (wrap32 (Z.lxor 0 0 + 1)) with 1. rewrite E.
  change 1 with (Z.ones 1) at 1. rewrite Z.land_ones by lia.
  change (2 ^ 1) with 2. rewrite <- Z.bit0_mod.
  rewrite Z.shiftr_spec by lia. unfold wrap32.
  rewrite Z.mod_pow2_bits_low by lia.
  destruct (Z.testbit c (0 + 20)) eqn:Eb;
    change (0 + 20) with 20 in Eb; rewrite Eb; reflexivity.
Qed.

End Crc32Facts.

Lemma example_hardware_bytewise : Crc32.bytewise Crc32.example_hardware.
Proof.
  intros c bs _.
  unfold Crc32.accumulate, Crc32.example_hardware, Crc32.crc32b,
    Crc32.crc32q, Crc32.wrap32.
  assert (Ha : (c mod 2 ^ 32) mod 2 ^ 32 = c mod 2 ^ 32)
    by (apply Z.mod_mod; lia).
  revert Ha. generalize (c mod 2 ^ 32) as a.
  induction bs as [|b bs IH]; intros a Ha; [exact Ha|].
  cbn [fold_left]. rewrite (Z.mod_mod (33 * a + b)) by lia.
  apply IH, Z.mod_mod. lia.
Qed.

Lemma castagnoliSSE42_bytewise_witness :
  Crc32.castagnoliSSE42 93 Crc32.example_hardware Crc32.example_frame
    (Crc32.entry 1 2 3 4 true false)
  = Some (Crc32.not32
            (Crc32.accumulate Crc32.example_hardware (Crc32.not32 7)
               (Crc32.bytes Crc32.example_frame))).
Proof.
  apply (castagnoliSSE42_bytewise Crc32.example_hardware 93
           Crc32.example_frame).
  - exact example_hardware_bytewise.
  - simpl; lia.
  - simpl; lia.
  - simpl; lia.
  - simpl; lia.
  - simpl; lia.
Defined.

Lemma castagnoliSSE42_chains_witness :
  exists r1,
    Crc32.castagnoliSSE42 93 Crc32.example_hardware
      (Crc32.mkFrame 7 4099 5 (fun a => a mod 256))
      (Crc32.entry 0 0 0 0 false false) = Some r1
    /\ Crc32.castagnoliSSE42 93 Crc32.example_hardware
         (Crc32.mkFrame r1 (4099 + 5) 6 (fun a => a mod 256))
         (Crc32.entry 0 0 0 0 false false)
       = Crc32.castagnoliSSE42 93 Crc32.example_hardware
           (Crc32.mkFrame 7 4099 (5 + 6) (fun a => a mod 256))
           (Crc32.entry 1 2 3 4 true false).
Proof.
  apply (castagnoliSSE42_chains Crc32.example_hardware 93
           (fun a => a mod 256) 7 4099 5 6).
  - exact example_hardware_bytewise.
  - simpl; lia.
  - lia.
  - lia.
  - simpl; lia.
  - lia.
  - simpl; lia.
  - simpl; lia.
Defined.

Lemma haveSSE42_bit_20_witness :
  Crc32.haveSSE42 Crc32.example_hardware
  = Z.b2z (Z.testbit (2 ^ 20) 20).
Proof.
  apply (haveSSE42_bit_20 Crc32.example_hardware 0 0 (2 ^ 20) 0).
  reflexivity.
Defined.
